(** * Efficient Quantum Modular Arithmetics: circuit builders and their action

    A shallow embedding of the operator builders of
    [quantum_modular_artihmetics.ipynb] (sum_k, add_in_k_N, add_out_k_N,
    add_in_N, add_out_N, mult_out_k_N, mult_in_k_N, mult_out_N, Exp_a_N),
    a model of the executor on the states these circuits pass through, and
    the properties of the builders.

    - Python integers are [Z]; wire labels are [nat]; wire lists are lists.
    - A builder queues operators and may print; it is a computation in the
      monad [build], which records the printed lines and the queued
      operators, or the exception that ended the call.
    - Rotation angles [k * np.pi / 2**j] are kept exact, as rationals in
      units of pi. *)

From Stdlib Require Import ZArith QArith Qreduction Zcong Lia.
From stdpp Require Import base option list gmap strings pretty.

Local Open Scope Z_scope.

(** ** Operators *)

Abbreviation wire := nat.

(** The operators the notebook queues.  [RZ theta w] is
    [qml.RZ(theta * pi, wires=w)]; [QFTdg ws] is
    [qml.adjoint(qml.QFT)(wires=ws)]; [Controlled base control] is what
    [qml.ctrl] makes of one queued operator. *)
Inductive Op : Type :=
| RZ (theta : Q) (w : wire)
| QFT (ws : list wire)
| QFTdg (ws : list wire)
| PauliX (w : wire)
| CNOT (c t : wire)
| SWAP (a b : wire)
| Controlled (base : Op) (control : list wire).

Fixpoint op_wires (g : Op) : list wire :=
  match g with
  | RZ _ w => [w]
  | QFT ws | QFTdg ws => ws
  | PauliX w => [w]
  | CNOT c t => [c; t]
  | SWAP a b => [a; b]
  | Controlled base control => control ++ op_wires base
  end.

(** The inverse of one operator: a rotation by the opposite angle, the
    other transform, the same gate for the self-inverse ones. *)
Fixpoint op_adjoint (g : Op) : Op :=
  match g with
  | RZ theta w => RZ (Qopp theta) w
  | QFT ws => QFTdg ws
  | QFTdg ws => QFT ws
  | PauliX w => PauliX w
  | CNOT c t => CNOT c t
  | SWAP a b => SWAP a b
  | Controlled base control => Controlled (op_adjoint base) control
  end.

(** ** The builder monad *)

Inductive exn : Type :=
| IndexError
| ValueError
| ZeroDivisionError
| WireConflict.

Inductive build (A : Type) : Type :=
| Ok (x : A) (out : list string) (ops : list Op)
| Raise (e : exn).
Arguments Ok {A} x out ops.
Arguments Raise {A} e.

#[global] Instance build_ret : MRet build := λ A x, Ok x [] [].
#[global] Instance build_bind : MBind build := λ A B f m,
  match m with
  | Raise e => Raise e
  | Ok x out ops =>
      match f x with
      | Raise e => Raise e
      | Ok y out' ops' => Ok y (out ++ out') (ops ++ ops')
      end
  end.

Definition queue (g : Op) : build unit := Ok tt [] [g].
Definition print (line : string) : build unit := Ok tt [line] [].

(** [for x in l: body x] *)
Fixpoint for_each {A} (l : list A) (body : A → build unit) : build unit :=
  match l with
  | [] => mret tt
  | x :: l' => body x ;; for_each l' body
  end.

(** [range(n)] *)
Definition range (n : nat) : list nat := seq 0 n.

(** ** Python primitives *)

(** [l[i]], with Python's negative indices. *)
Definition py_index {A} (l : list A) (i : Z) : build A :=
  let n := Z.of_nat (length l) in
  let j := if i <? 0 then i + n else i in
  if (j <? 0) || (n <=? j) then Raise IndexError
  else match l !! Z.to_nat j with
       | Some x => mret x
       | None => Raise IndexError
       end.

(** [a % n] *)
Definition py_mod (a n : Z) : build Z :=
  if n =? 0 then Raise ZeroDivisionError else mret (a mod n).

(** [pow(b, e, m)]: a negative exponent takes the power of the inverse of
    [b] modulo [m], and fails if there is none. *)
Definition py_pow3 (b e m : Z) : build Z :=
  if m =? 0 then Raise ValueError
  else if 0 <=? e then mret (b ^ e mod m)
  else if Z.gcd b m =? 1 then mret (Z.invmod b m ^ (- e) mod m)
  else Raise ValueError.

(** Python's [len] *)
Definition len {A} (l : list A) : Z := Z.of_nat (length l).

(** [binary_to_integer]: the dot product of the bits with the powers of two,
    most significant first. *)
Definition binary_to_integer (vOutput : list Z) : Z :=
  let vPows := reverse ((λ i, 2 ^ Z.of_nat i) <$> range (length vOutput)) in
  foldr Z.add 0 (zip_with Z.mul vOutput vPows).

(** ** The transforms of pennylane on builders *)

(** [qml.adjoint(fn)(args)]: the queued operators in reverse order, each
    inverted. *)
Definition adjoint_ops (ops : list Op) : list Op := reverse (op_adjoint <$> ops).

Definition adjoint (fn : build unit) : build unit :=
  match fn with
  | Raise e => Raise e
  | Ok _ out ops => Ok tt out (adjoint_ops ops)
  end.

Definition conflicts (control : list wire) (g : Op) : bool :=
  existsb (λ c, bool_decide (c ∈ op_wires g)) control.

(** Modelled from the spec: the control-wrapping of the circuit algebra
    ([controlled(c, controls)] of section 4.1), which is [qml.ctrl] of
    pennylane and not code of the notebook.  Every queued operator gets the
    same extra controls, in order; controls that share a wire with an
    operator are refused with [WireConflict]. *)
Definition ctrl (fn : build unit) (control : list wire) : build unit :=
  match fn with
  | Raise e => Raise e
  | Ok _ out ops =>
      if existsb (conflicts control) ops then Raise WireConflict
      else Ok tt out ((λ g, Controlled g control) <$> ops)
  end.

(** ** The builders of the notebook

    The builders queue the operators as the notebook writes them.  Two
    things pennylane and Python do when an operator is built are left to
    the hypotheses of the properties: an operator whose wires repeat is
    refused with [WireError] (the properties take the wires apart), and
    the angle of a rotation is a float (the properties that need it take
    the constant in [float_range], defined below). *)

(** [2**j] as the denominator of an angle *)
Definition pow2 (j : nat) : positive := Pos.shiftl_nat 1 j.

(** The angle [k * np.pi / (2**j)] is kept as the rational [k / 2^j], in
    units of pi. *)
Definition sum_k (k : Z) (wires : list wire) : build unit :=
  for_each (range (length wires)) (λ j,
    w ← py_index wires (Z.of_nat j);
    queue (RZ (k # pow2 j) w)).

Definition add_in_k_N (k N : Z) (wires_a wires_aux : list wire)
    (is_in_standard_basis : bool) : build unit :=
  (if is_in_standard_basis then queue (QFT wires_a) else mret tt) ;;
  sum_k k wires_a ;;
  adjoint (sum_k N wires_a) ;;
  queue (QFTdg wires_a) ;;
  (a0 ← py_index wires_a 0; x0 ← py_index wires_aux 0; queue (CNOT a0 x0)) ;;
  queue (QFT wires_a) ;;
  (x0 ← py_index wires_aux 0; ctrl (sum_k N wires_a) [x0]) ;;
  adjoint (sum_k k wires_a) ;;
  queue (QFTdg wires_a) ;;
  (a0 ← py_index wires_a 0; queue (PauliX a0)) ;;
  (a0 ← py_index wires_a 0; x0 ← py_index wires_aux 0; queue (CNOT a0 x0)) ;;
  (a0 ← py_index wires_a 0; queue (PauliX a0)) ;;
  queue (QFT wires_a) ;;
  sum_k k wires_a ;;
  (if is_in_standard_basis then queue (QFTdg wires_a) else mret tt).

Definition add_out_k_N (k N : Z) (wires_a wires_res wires_aux : list wire)
    : build unit :=
  if len wires_aux <? 2 then print "Not enough ancillary wires"
  else
    for_each (range (length wires_res)) (λ i,
      a ← py_index wires_a (Z.of_nat i);
      r ← py_index wires_res (Z.of_nat i);
      queue (CNOT a r)) ;;
    x0 ← py_index wires_aux 0;
    let new_wires_res := [x0] ++ wires_res in
    x1 ← py_index wires_aux 1;
    add_in_k_N k N new_wires_res [x1] true.

Definition add_in_N (N : Z) (wires_a wires_b aux1 aux2 : list wire) : build unit :=
  let new_wires_b := aux1 ++ wires_b in
  queue (QFT new_wires_b) ;;
  for_each (range (length wires_a)) (λ i,
    value ← py_mod (2 ^ (len wires_a - 1 - Z.of_nat i)) N;
    c ← py_index wires_a (Z.of_nat i);
    ctrl (add_in_k_N value N new_wires_b aux2 false) [c]) ;;
  queue (QFTdg new_wires_b).

Definition add_out_N (N : Z) (wires_a wires_b wires_res aux1 aux2 : list wire)
    : build unit :=
  for_each (range (length wires_b)) (λ i,
    b ← py_index wires_b (Z.of_nat i);
    r ← py_index wires_res (Z.of_nat i);
    queue (CNOT b r)) ;;
  add_in_N N wires_a wires_res aux1 aux2.

Definition mult_out_k_N (k N : Z) (wires_a wires_b wires_aux : list wire) : build unit :=
  if len wires_aux <? 2 then print "Not enough ancillary qubits"
  else
    x0 ← py_index wires_aux 0;
    let new_wires_b := [x0] ++ wires_b in
    queue (QFT new_wires_b) ;;
    for_each (range (length wires_a)) (λ i,
      value ← py_mod (k * 2 ^ (len wires_a - 1 - Z.of_nat i)) N;
      c ← py_index wires_a (Z.of_nat i);
      x1 ← py_index wires_aux 1;
      ctrl (add_in_k_N value N new_wires_b [x1] false) [c]) ;;
    queue (QFTdg new_wires_b).

Definition mult_in_k_N (k N : Z) (wires_a wires_support wires_aux : list wire) : build unit :=
  if (len wires_aux <? 2) || negb (len wires_a =? len wires_support)
  then print "Not enough ancillary qubits"
  else
    p ← py_pow3 k (N - 2) N;
    r ← py_mod (p * k) N;
    if negb (r =? 1)
    then print ("FALLO: No existe el inverso de " +:+ pretty k +:+ " mod " +:+ pretty N)
    else
      mult_out_k_N k N wires_a wires_support wires_aux ;;
      for_each (range (length wires_a)) (λ i,
        a ← py_index wires_a (Z.of_nat i);
        s ← py_index wires_support (Z.of_nat i);
        queue (SWAP a s)) ;;
      inv_k ← py_pow3 k (N - 2) N;
      mult_out_k_N (N - inv_k) N wires_a wires_support wires_aux.

Definition mult_out_N (N : Z) (wires_a wires_b wires_res wires_aux : list wire)
    : build unit :=
  x0 ← py_index wires_aux 0;
  let new_wires_res := [x0] ++ wires_res in
  queue (QFT new_wires_res) ;;
  for_each (range (length wires_a)) (λ i,
    let new_i := len wires_a - Z.of_nat i - 1 in
    for_each (range (length wires_b)) (λ j,
      let new_j := len wires_b - Z.of_nat j - 1 in
      value ← py_mod (2 ^ (new_i + new_j)) N;
      a ← py_index wires_a (Z.of_nat i);
      b ← py_index wires_b (Z.of_nat j);
      x1 ← py_index wires_aux 1;
      ctrl (add_in_k_N value N new_wires_res [x1] false) [a; b])) ;;
  queue (QFTdg new_wires_res).

Definition Exp_a_N (a N : Z) (wires_x wires_res wires_support wires_aux : list wire)
    : build unit :=
  (r ← py_index wires_res (len wires_res - 1); queue (PauliX r)) ;;
  let n := len wires_x in
  for_each (range (length wires_x)) (λ i,
    let value := a ^ (2 ^ (n - Z.of_nat i - 1)) in
    x ← py_index wires_x (Z.of_nat i);
    ctrl (mult_in_k_N value N wires_res wires_support wires_aux) [x]).

(** ** The executor on product states

    Execution belongs to pennylane, not to the notebook.  The device is
    modelled on the states the circuits of the notebook pass through when
    they start from a basis state: every wire is either in a basis state
    or in an equatorial state (|0> + e^(i pi phi) |1>) / sqrt 2, and the
    wires are not entangled.  Global phases are dropped.  The run is
    partial: an operator that would leave this class of states, or that
    pennylane would refuse (repeated wires, unknown wires), gives [None].

    On these states the operators act as follows.
    - RZ(theta) = diag(e^(-i theta/2), e^(i theta/2)) adds theta to the
      angle of an equatorial state and changes a basis state by a phase.
    - PauliX exchanges |0> and |1>: it flips a basis state and negates the
      angle of an equatorial state.
    - CNOT and the controlled operators, with their controls in basis
      states, apply their base operator or nothing.
    - QFT takes the basis state |v> of m wires, first wire most
      significant, to 2^(-m/2) sum_y e^(2 pi i v y / 2^m) |y>, which is the
      product of the equatorial states of angle v / 2^j on wire j; its
      adjoint takes that product back to |v>. *)

Inductive qubit : Type :=
| Basis (b : bool)
| Phase (phi : Q).

#[global] Instance Q_eq_dec : EqDecision Q.
Proof. solve_decision. Defined.
#[global] Instance qubit_eq_dec : EqDecision qubit.
Proof. solve_decision. Defined.
#[global] Instance Op_eq_dec : EqDecision Op.
Proof. solve_decision. Defined.

Abbreviation state := (gmap nat qubit).

(** Angles are kept modulo 2 (in units of pi) and in lowest terms. *)
Definition norm (p : Q) : Q :=
  Qred ((Qnum p mod (2 * Zpos (Qden p))) # Qden p).

(** The bits of [v], most significant first, on [m] wires. *)
Fixpoint Zbits (m : nat) (v : Z) : list bool :=
  match m with
  | O => []
  | S m' => Z.testbit v (Z.of_nat m') :: Zbits m' v
  end.

(** The value of a list of sampled bits, as the notebook reads it. *)
Definition bits_value (bits : list bool) : Z :=
  binary_to_integer (Z.b2z <$> bits).

(** The Fourier state of [v] on [m] wires: wire [j] carries the angle
    [v / 2^j]. *)
Definition fourier (m : nat) (v : Z) : list qubit :=
  (λ j, Phase (norm (v # pow2 j))) <$> seq 0 m.

(** The qubits of a register, if all its wires are wires of the device. *)
Definition read (s : state) (ws : list wire) : option (list qubit) :=
  mapM (λ w, s !! w) ws.

(** The state with the qubits [qs] on the wires [ws]. *)
Definition write (ws : list wire) (qs : list qubit) (s : state) : state :=
  foldr (λ wq s', <[wq.1 := wq.2]> s') s (zip ws qs).

(** The bits of a register in a basis state, the angles of a register of
    equatorial states. *)
Definition as_bits (qs : list qubit) : option (list bool) :=
  mapM (λ q, match q with Basis b => Some b | Phase _ => None end) qs.

Definition as_phases (qs : list qubit) : option (list Q) :=
  mapM (λ q, match q with Phase p => Some p | Basis _ => None end) qs.

(** The value whose Fourier state has the angles [phis], if there is one:
    the last wire gives the candidate, the others are checked. *)
Definition decode (phis : list Q) : option Z :=
  let m := length phis in
  let u := match last phis with
           | Some p => (Qnum p * 2 ^ Z.of_nat (m - 1)) `div` Zpos (Qden p)
           | None => 0
           end in
  if bool_decide (Phase <$> phis = fourier m u) then Some u else None.

(** PauliX and RZ on one qubit. *)
Definition flip (q : qubit) : qubit :=
  match q with
  | Basis b => Basis (negb b)
  | Phase p => Phase (norm (- p))
  end.

Definition rotate (theta : Q) (q : qubit) : qubit :=
  match q with
  | Basis b => Basis b
  | Phase p => Phase (norm (p + theta))
  end.

(** One operator on a state. *)
Fixpoint run_op (g : Op) (s : state) : option state :=
  match g with
  | RZ theta w => q ← s !! w; Some (<[w := rotate theta q]> s)
  | PauliX w => q ← s !! w; Some (<[w := flip q]> s)
  | CNOT c t =>
      if decide (c = t) then None else
      qc ← s !! c; qt ← s !! t;
      match qc with
      | Basis b => Some (if b then <[t := flip qt]> s else s)
      | Phase _ => None
      end
  | SWAP a b =>
      if decide (a = b) then None else
      qa ← s !! a; qb ← s !! b;
      Some (<[a := qb]> (<[b := qa]> s))
  | QFT ws =>
      if decide (NoDup ws) then
        qs ← read s ws; bits ← as_bits qs;
        Some (write ws (fourier (length ws) (bits_value bits)) s)
      else None
  | QFTdg ws =>
      if decide (NoDup ws) then
        qs ← read s ws; phis ← as_phases qs; v ← decode phis;
        Some (write ws (Basis <$> Zbits (length ws) v) s)
      else None
  | Controlled base control =>
      if conflicts control base then None else
      qs ← read s control; bits ← as_bits qs;
      if forallb id bits then run_op base s else Some s
  end.

(** A queue of operators, in order. *)
Fixpoint run (ops : list Op) (s : state) : option state :=
  match ops with
  | [] => Some s
  | g :: ops' => s' ← run_op g s; run ops' s'
  end.

(** Running what a builder queued; a builder that raised queued nothing
    to run. *)
Definition execute (fn : build unit) (s : state) : option state :=
  match fn with
  | Ok _ _ ops => run ops s
  | Raise _ => None
  end.

(** [qml.device("default.qubit", wires=n)]: all wires at 0. *)
Definition device (n : nat) : state :=
  list_to_map ((λ w, (w, Basis false)) <$> seq 0 n).

(** [qml.BasisEmbedding(a, wires=ws)] *)
Definition BasisEmbedding (a : Z) (ws : list wire) (s : state) : state :=
  write ws (Basis <$> Zbits (length ws) a) s.

(** What the notebook prints of a register: [binary_to_integer] of the
    sampled bits, when the register is in a basis state. *)
Definition measure (s : state) (ws : list wire) : option Z :=
  qs ← read s ws; bits ← as_bits qs; Some (bits_value bits).

(** What a cell of the notebook prints: the circuit run from a state and
    a register read back. *)
Definition sample (fn : build unit) (s : state) (ws : list wire) : option Z :=
  s' ← execute fn s; measure s' ws.

(** ** What the builders queue, as plain lists *)

(** The rotations of [sum_k], from rank [j] on. *)
Fixpoint rotations (k : Z) (j : nat) (ws : list wire) : list Op :=
  match ws with
  | [] => []
  | w :: ws' => RZ (k # pow2 j) w :: rotations k (S j) ws'
  end.

(** What [ctrl] makes of a queue when it accepts the controls. *)
Definition controlled_by (control : list wire) (ops : list Op) : list Op :=
  (λ g, Controlled g control) <$> ops.

(** The operators of [add_in_k_N] on the register [ws] with overflow wire
    [x0]. *)
Definition adder_core (k N : Z) (ws : list wire) (x0 : wire) : list Op :=
  let a0 := default O (head ws) in
  rotations k 0 ws ++ adjoint_ops (rotations N 0 ws)
  ++ [QFTdg ws; CNOT a0 x0; QFT ws]
  ++ controlled_by [x0] (rotations N 0 ws)
  ++ adjoint_ops (rotations k 0 ws)
  ++ [QFTdg ws; PauliX a0; CNOT a0 x0; PauliX a0; QFT ws]
  ++ rotations k 0 ws.

(** The same with the transforms around them when the register comes in
    the standard basis. *)
Definition adder_ops (k N : Z) (ws : list wire) (x0 : wire) (std : bool) : list Op :=
  if std then [QFT ws] ++ adder_core k N ws x0 ++ [QFTdg ws]
  else adder_core k N ws x0.

(** Two angles that differ by a whole number of turns. *)
Definition same_angle (p q : Q) : Prop :=
  ∃ t : Z, (p == q + inject_Z (2 * t))%Q.

(** The Fourier state of [v] from rank [j] on, and its angles. *)
Definition fourier_from (j m : nat) (v : Z) : list qubit :=
  (λ i, Phase (norm (v # pow2 i))) <$> seq j m.

Definition angles (m : nat) (v : Z) : list Q :=
  (λ i, norm (v # pow2 i)) <$> seq 0 m.

(** Every operator of [ops] names wires of [W] only. *)
Definition within (W : list wire) (ops : list Op) : Prop :=
  Forall (λ g, ∀ w, w ∈ op_wires g → w ∈ W) ops.

(** Membership in an explicit list; the wires of explicit operators; a
    decidable proposition on closed terms. *)
Ltac in_list := solve [repeat first [left | assumption | right]].

Ltac within_gates :=
  repeat (constructor;
          [simpl; intros ? Hw';
           repeat (apply elem_of_cons in Hw' as [->|Hw']);
           try (by inversion Hw'); in_list|]);
  constructor.

Ltac by_compute :=
  lazymatch goal with
  | |- ?P => apply (bool_decide_unpack P); vm_compute; exact I
  end.

(** The body of the loops of [add_in_N] and [mult_out_k_N]: for each wire
    of [wa], from the top, the constant adder of [c] times the weight of
    the wire, under the control of that wire. *)
Fixpoint controlled_adders (c N : Z) (wa ext : list wire) (x : wire) : list Op :=
  match wa with
  | [] => []
  | w :: wa' =>
      controlled_by [w] (adder_ops ((c * 2 ^ len wa') mod N) N ext x false)
      ++ controlled_adders c N wa' ext x
  end.

(** The operators of [add_in_N] (c = 1) and of [mult_out_k_N] (c = k) on
    the extended register [ext]. *)
Definition scaled_adder (c N : Z) (wa ext : list wire) (x : wire) : list Op :=
  QFT ext :: controlled_adders c N wa ext x ++ [QFTdg ext].

(** The angles of a state are kept reduced. *)
Definition wf (s : state) : Prop :=
  ∀ w p, s !! w = Some (Phase p) → norm p = p.

(** The same of one qubit. *)
Definition wf_qubit (q : qubit) : Prop :=
  match q with Basis _ => True | Phase p => norm p = p end.

(** The rotations among the operators. *)
Definition is_RZ (g : Op) : Prop :=
  match g with RZ _ _ => True | _ => False end.

(** Step 2 of [mult_in_k_N]: the operators, and the loop that queues
    them. *)
Definition swaps (wa ws : list wire) : list Op := zip_with SWAP wa ws.

Definition swap_loop (wires_a wires_support : list wire) : build unit :=
  for_each (range (length wires_a)) (λ i,
    a ← py_index wires_a (Z.of_nat i);
    s ← py_index wires_support (Z.of_nat i);
    queue (SWAP a s)).

(** The first test of [mult_in_k_N], on the wires. *)
Definition short_of_wires (wires_a wires_support wires_aux : list wire) : bool :=
  (len wires_aux <? 2) || negb (len wires_a =? len wires_support).

(** The second test of [mult_in_k_N], on the constant. *)
Definition passes (k N : Z) : Prop := (k ^ (N - 2) mod N * k) mod N = 1.

#[global] Instance passes_dec k N : Decision (passes k N).
Proof. unfold passes. apply _. Defined.

(** The line printed when the constant fails the test. *)
Definition fallo (k N : Z) : string :=
  "FALLO: No existe el inverso de " +:+ pretty k +:+ " mod " +:+ pretty N.

(** The operators of [mult_in_k_N] when both tests pass. *)
Definition mult_in_ops (k N : Z) (wa ws : list wire) (x0 x1 : wire) : list Op :=
  scaled_adder k N wa (x0 :: ws) x1
  ++ swaps wa ws
  ++ scaled_adder (N - k ^ (N - 2) mod N) N wa (x0 :: ws) x1.

(** The body of the loop of [Exp_a_N]: for each wire of the exponent, from
    the top, the in-place multiplier of [a] to the power of the weight of
    the wire, under the control of that wire. *)
Fixpoint controlled_multipliers (a N : Z) (wx res sup : list wire) (x0 x1 : wire)
    : list Op :=
  match wx with
  | [] => []
  | w :: wx' =>
      controlled_by [w] (mult_in_ops (a ^ (2 ^ len wx')) N res sup x0 x1)
      ++ controlled_multipliers a N wx' res sup x0 x1
  end.

(** The calls of [sum_k] whose angles [k * np.pi / (2**j)] are floats
    computed from the exact value of [k]: an integer up to [2^53] in
    absolute value is a float, and [2**j] is one up to [j = 1023].  Beyond,
    Python rounds [k] or raises [OverflowError]; the builders, which keep
    the angles exact, say nothing of such calls. *)
Definition float_range (k : Z) (wires : list wire) : Prop :=
  Z.abs k <= 2 ^ 53 ∧ len wires <= 1024.

#[global] Instance float_range_dec k wires : Decision (float_range k wires).
Proof. unfold float_range. apply _. Defined.

(** A vector of samples: every entry is 0 or 1. *)
Definition is_bits (v : list Z) : Prop := Forall (λ b, b = 0 ∨ b = 1) v.

#[global] Instance is_bits_dec v : Decision (is_bits v).
Proof. unfold is_bits. apply _. Defined.

(** The first loop of [add_out_k_N] and of [add_out_N]: a CNOT from each
    wire of the source onto the wire of the same rank of the result. *)
Definition copies (src dst : list wire) : list Op := zip_with CNOT src dst.

(** What [ctrl] makes of the adders of the inner loop of [mult_out_N]
    for the wire [w] of weight [2^e] of the first operand: for each wire of
    [wb], from the top, the constant adder of the product of the two
    weights, under the control of both wires. *)
Fixpoint doubly_controlled_adders (e N : Z) (w : wire) (wb ext : list wire)
    (x : wire) : list Op :=
  match wb with
  | [] => []
  | w' :: wb' =>
      controlled_by [w; w'] (adder_ops (2 ^ (e + len wb') mod N) N ext x false)
      ++ doubly_controlled_adders e N w wb' ext x
  end.

(** The two loops of [mult_out_N], and its operators on the extended
    register [ext]. *)
Fixpoint product_adders (N : Z) (wa wb ext : list wire) (x : wire) : list Op :=
  match wa with
  | [] => []
  | w :: wa' =>
      doubly_controlled_adders (len wa') N w wb ext x
      ++ product_adders N wa' wb ext x
  end.

Definition product_ops (N : Z) (wa wb ext : list wire) (x : wire) : list Op :=
  QFT ext :: product_adders N wa wb ext x ++ [QFTdg ext].

(** * Properties *)

(** ** The outputs recorded in the notebook

    The executor reproduces what the cells of the notebook print. *)

Example notebook_add_in_k_N :
  sample (add_in_k_N 3 5 [0; 1; 2; 3]%nat [4%nat] true)
    (BasisEmbedding 4 [0; 1; 2; 3]%nat (device 10)) [0; 1; 2; 3]%nat
  = Some 2.
Proof. reflexivity. Qed.

Example notebook_add_out_k_N :
  sample (add_out_k_N 3 7 [0; 1; 2]%nat [3; 4; 5]%nat [6; 7]%nat)
    (BasisEmbedding 5 [0; 1; 2]%nat (device 8)) [3; 4; 5]%nat
  = Some 1.
Proof. reflexivity. Qed.

Example notebook_add_in_N :
  sample (add_in_N 5 [0; 1; 2]%nat [3; 4; 5]%nat [6%nat] [7%nat])
    (BasisEmbedding 3 [3; 4; 5]%nat (BasisEmbedding 1 [0; 1; 2]%nat (device 10)))
    [3; 4; 5]%nat
  = Some 4.
Proof. reflexivity. Qed.

Example notebook_add_out_N :
  sample (add_out_N 5 [0; 1; 2]%nat [3; 4; 5]%nat [6; 7; 8]%nat [9%nat] [10%nat])
    (BasisEmbedding 3 [3; 4; 5]%nat (BasisEmbedding 1 [0; 1; 2]%nat (device 11)))
    [6; 7; 8]%nat
  = Some 4.
Proof. reflexivity. Qed.

Example notebook_mult_out_k_N :
  sample (mult_out_k_N 4 6 [0; 1; 2]%nat [3; 4; 5]%nat [6; 7]%nat)
    (BasisEmbedding 3 [3; 4; 5]%nat (BasisEmbedding 2 [0; 1; 2]%nat (device 8)))
    [3; 4; 5]%nat
  = Some 5.
Proof. reflexivity. Qed.

Example notebook_mult_in_k_N :
  sample (mult_in_k_N 3 5 [0; 1; 2]%nat [3; 4; 5]%nat [6; 7]%nat)
    (BasisEmbedding 1 [0; 1; 2]%nat (device 8)) [0; 1; 2]%nat
  = Some 3.
Proof. reflexivity. Qed.

Example notebook_mult_out_N :
  sample (mult_out_N 7 [0; 1; 2]%nat [3; 4; 5]%nat [6; 7; 8]%nat [9; 10]%nat)
    (BasisEmbedding 5 [3; 4; 5]%nat (BasisEmbedding 3 [0; 1; 2]%nat (device 11)))
    [6; 7; 8]%nat
  = Some 1.
Proof. reflexivity. Qed.

Example notebook_Exp_a_N :
  sample (Exp_a_N 2 7 [0; 1; 2]%nat [3; 4; 5]%nat [6; 7; 8]%nat [9; 10]%nat)
    (BasisEmbedding 3 [0; 1; 2]%nat (device 11)) [3; 4; 5]%nat
  = Some 1.
Proof. reflexivity. Qed.

(** ** The builder monad *)

Section Monad.
Context {A B : Type}.

Lemma bind_Ok (x : A) out ops (f : A → build B) :
  Ok x out ops ≫= f =
  match f x with
  | Raise e => Raise e
  | Ok y out' ops' => Ok y (out ++ out') (ops ++ ops')
  end.
Proof. reflexivity. Qed.

Lemma bind_Raise e (f : A → build B) : Raise e ≫= f = Raise e.
Proof. reflexivity. Qed.

Lemma bind_mret (x : A) (f : A → build B) : mret x ≫= f = f x.
Proof.
  unfold mret, build_ret. rewrite bind_Ok. destruct (f x); reflexivity.
Qed.

Lemma bind_Ok_Ok (m : build A) (f : A → build B) x out ops y out' ops' :
  m = Ok x out ops → f x = Ok y out' ops' →
  m ≫= f = Ok y (out ++ out') (ops ++ ops').
Proof. intros -> Hf. rewrite bind_Ok, Hf. reflexivity. Qed.
End Monad.

Lemma py_index_nat {A} (l : list A) (i : nat) (x : A) :
  l !! i = Some x → py_index l (Z.of_nat i) = mret x.
Proof.
  intros Hi. pose proof (lookup_lt_Some _ _ _ Hi) as Hlt.
  unfold py_index.
  destruct (Z.ltb_spec (Z.of_nat i) 0); [lia|].
  destruct (Z.ltb_spec (Z.of_nat i) 0); [lia|].
  destruct (Z.leb_spec (Z.of_nat (length l)) (Z.of_nat i)); [lia|].
  simpl. rewrite Nat2Z.id, Hi. reflexivity.
Qed.

Lemma py_index_head {A} (x : A) (l : list A) : py_index (x :: l) 0 = mret x.
Proof. apply (py_index_nat (x :: l) 0). reflexivity. Qed.

Lemma for_each_seq {A} (l : list A) (body : nat → build unit)
    (out : nat → A → list string) (step : nat → A → list Op) (j : nat) :
  (∀ i x, l !! i = Some x → body (j + i)%nat = Ok tt (out i x) (step i x)) →
  for_each (seq j (length l)) body
  = Ok tt (concat (imap out l)) (concat (imap step l)).
Proof.
  revert j out step. induction l as [|x l IH]; intros j out step Hbody.
  - reflexivity.
  - simpl. erewrite bind_Ok_Ok; [reflexivity| |].
    + rewrite <- (Hbody 0%nat x eq_refl). f_equal. lia.
    + apply (IH (S j) (out ∘ S) (step ∘ S)). intros i y Hi. simpl.
      rewrite <- (Hbody (S i) y Hi). f_equal. lia.
Qed.

(** A loop [for i in range(len(l))] whose body reads [l[i]]. *)
Lemma for_each_range {A} (l : list A) (body : nat → build unit)
    (out : nat → A → list string) (step : nat → A → list Op) :
  (∀ i x, l !! i = Some x → body i = Ok tt (out i x) (step i x)) →
  for_each (range (length l)) body
  = Ok tt (concat (imap out l)) (concat (imap step l)).
Proof. intros H. apply (for_each_seq l body out step 0). exact H. Qed.

Lemma concat_imap_nil {A} (l : list A) :
  concat (imap (λ _ _, @nil string) l) = [].
Proof.
  induction l as [|x l IH]; [reflexivity|]. simpl. exact IH.
Qed.

(** ** sum_k *)

Lemma rotations_imap k j ws :
  concat (imap (λ i w, [RZ (k # pow2 (j + i)) w]) ws) = rotations k j ws.
Proof.
  revert j. induction ws as [|w ws IH]; intros j; [reflexivity|].
  simpl. rewrite Nat.add_0_r. f_equal.
  rewrite <- IH. f_equal. apply imap_ext. intros i x _. simpl.
  replace (j + S i)%nat with (S j + i)%nat by (clear; lia). reflexivity.
Qed.

Lemma sum_k_ok k wires : sum_k k wires = Ok tt [] (rotations k 0 wires).
Proof.
  unfold sum_k.
  rewrite (for_each_range wires _ (λ _ _, []) (λ i w, [RZ (k # pow2 i) w])).
  - rewrite concat_imap_nil. f_equal. apply (rotations_imap k 0).
  - intros i x Hi. rewrite (py_index_nat _ _ _ Hi), bind_mret. reflexivity.
Qed.

Lemma rotations_length k j ws : length (rotations k j ws) = length ws.
Proof. revert j. induction ws; intros j; simpl; [|rewrite IHws]; reflexivity. Qed.

Lemma rotations_lookup k j ws i w :
  ws !! i = Some w → rotations k j ws !! i = Some (RZ (k # pow2 (j + i)) w).
Proof.
  revert j i. induction ws as [|w' ws IH]; intros j i Hi; [done|].
  destruct i as [|i]; simpl in *.
  - rewrite Nat.add_0_r. congruence.
  - rewrite (IH (S j) i Hi).
    replace (j + S i)%nat with (S j + i)%nat by (clear; lia). reflexivity.
Qed.

Lemma rotations_adjoint k j ws :
  adjoint_ops (rotations k j ws) = reverse (rotations (- k) j ws).
Proof.
  unfold adjoint_ops. f_equal. revert j.
  induction ws as [|w ws IH]; intros j; [reflexivity|].
  simpl. rewrite IH. reflexivity.
Qed.

(** ** Angles modulo 2 *)

Lemma same_angle_refl p : same_angle p p.
Proof. exists 0. simpl. unfold inject_Z. rewrite Qplus_0_r. reflexivity. Qed.

Lemma same_angle_Qeq p q : (p == q)%Q → same_angle p q.
Proof.
  intros H. exists 0. rewrite H. unfold inject_Z. simpl.
  rewrite Qplus_0_r. reflexivity.
Qed.

Lemma same_angle_sym p q : same_angle p q → same_angle q p.
Proof.
  intros [t Ht]. exists (- t). rewrite Ht.
  unfold Qeq, Qplus, inject_Z. simpl. lia.
Qed.

Lemma same_angle_trans p q r : same_angle p q → same_angle q r → same_angle p r.
Proof.
  intros [t Ht] [u Hu]. exists (t + u). rewrite Ht, Hu.
  unfold Qeq, Qplus, inject_Z. simpl. lia.
Qed.

Lemma same_angle_plus p p' q q' :
  same_angle p p' → same_angle q q' → same_angle (p + q) (p' + q').
Proof.
  intros [t Ht] [u Hu]. exists (t + u). rewrite Ht, Hu.
  unfold Qeq, Qplus, inject_Z. simpl. lia.
Qed.

Lemma same_angle_opp p q : same_angle p q → same_angle (- p) (- q).
Proof.
  intros [t Ht]. exists (- t). rewrite Ht.
  unfold Qeq, Qplus, Qopp, inject_Z. simpl. lia.
Qed.

Lemma norm_same p : same_angle (norm p) p.
Proof.
  exists (- (Qnum p `div` (2 * Zpos (Qden p)))).
  unfold norm. rewrite Qred_correct.
  destruct p as [n d]. unfold Qeq, Qplus, inject_Z. simpl Qnum. simpl Qden.
  rewrite Z.mod_eq by lia. rewrite Pos2Z.inj_mul. lia.
Qed.

Lemma norm_cong p q : same_angle p q → norm p = norm q.
Proof.
  intros [t Ht]. unfold norm. apply Qred_complete.
  destruct p as [n d], q as [n' d'].
  unfold Qeq, Qplus, inject_Z in *. simpl in *.
  rewrite Pos2Z.inj_mul in Ht.
  rewrite <- !Z.mul_mod_distr_r by lia.
  replace (n * Zpos d') with ((n' * Zpos d) + t * (2 * Zpos d' * Zpos d)) by lia.
  replace (2 * Zpos d * Zpos d') with (2 * Zpos d' * Zpos d) by lia.
  apply Z.mod_add. lia.
Qed.

Lemma norm_norm p : norm (norm p) = norm p.
Proof. apply norm_cong, norm_same. Qed.

Lemma norm_plus_l p q : norm (norm p + q) = norm (p + q).
Proof. apply norm_cong, same_angle_plus; [apply norm_same|apply same_angle_refl]. Qed.

Lemma norm_opp_opp p : norm (- norm (- p)) = norm p.
Proof.
  apply norm_cong.
  eapply same_angle_trans; [apply same_angle_opp, norm_same|].
  apply same_angle_Qeq, Qopp_involutive.
Qed.

Lemma norm_plus_opp p q : norm (norm (p + q) + - q) = norm p.
Proof.
  rewrite norm_plus_l. apply norm_cong, same_angle_Qeq.
  unfold Qeq, Qplus, Qopp. simpl. rewrite !Pos2Z.inj_mul. lia.
Qed.

(** ** Powers of two, bits and values *)

Lemma pow2_S j : pow2 (S j) = xO (pow2 j).
Proof. reflexivity. Qed.

Lemma pow2_Z j : Zpos (pow2 j) = 2 ^ Z.of_nat j.
Proof.
  induction j as [|j IH]; [reflexivity|].
  rewrite pow2_S, Pos2Z.inj_xO, IH, Nat2Z.inj_succ, Z.pow_succ_r by lia.
  reflexivity.
Qed.

(** Angles of a Fourier state only see the value modulo [2^(j+1)]. *)
Lemma norm_rank_cong v v' j :
  v mod 2 ^ Z.of_nat (S j) = v' mod 2 ^ Z.of_nat (S j) →
  norm (v # pow2 j) = norm (v' # pow2 j).
Proof.
  intros H. unfold norm. simpl Qnum. simpl Qden.
  rewrite pow2_Z. rewrite Nat2Z.inj_succ, Z.pow_succ_r in H by lia.
  rewrite H. reflexivity.
Qed.

Lemma norm_rank_plus v k j :
  norm (norm (v # pow2 j) + (k # pow2 j)) = norm ((v + k) # pow2 j).
Proof.
  rewrite norm_plus_l. apply norm_cong, same_angle_Qeq.
  unfold Qeq, Qplus. simpl. rewrite Pos2Z.inj_mul. lia.
Qed.

Lemma mod_pow2_le v (m n : Z) :
  0 <= n <= m → (v mod 2 ^ m) mod 2 ^ n = v mod 2 ^ n.
Proof.
  intros H. replace m with (n + (m - n)) by lia.
  rewrite Z.pow_add_r by lia.
  rewrite Z.rem_mul_r by lia.
  rewrite (Z.mul_comm (2 ^ n)), Z.mod_add by lia. apply Z.mod_mod. lia.
Qed.

Lemma binary_to_integer_cons b l :
  binary_to_integer (b :: l) = b * 2 ^ len l + binary_to_integer l.
Proof.
  unfold binary_to_integer, range, len. simpl length.
  rewrite seq_S, fmap_app, reverse_app. simpl. reflexivity.
Qed.

Lemma bits_value_cons b bits :
  bits_value (b :: bits) = Z.b2z b * 2 ^ len bits + bits_value bits.
Proof.
  unfold bits_value. simpl. rewrite binary_to_integer_cons.
  unfold len. rewrite length_fmap. reflexivity.
Qed.

Lemma Zbits_length m v : length (Zbits m v) = m.
Proof. induction m; simpl; [|rewrite IHm]; reflexivity. Qed.

Lemma bits_value_Zbits m v : bits_value (Zbits m v) = v mod 2 ^ Z.of_nat m.
Proof.
  induction m as [|m IH].
  - simpl. rewrite Z.mod_1_r. reflexivity.
  - simpl Zbits. rewrite bits_value_cons, IH. unfold len.
    rewrite Zbits_length, Z.testbit_spec' by lia.
    rewrite Nat2Z.inj_succ, Z.pow_succ_r by lia.
    rewrite (Z.mul_comm 2), Z.rem_mul_r by lia. lia.
Qed.

Lemma bits_value_range bits : 0 <= bits_value bits < 2 ^ len bits.
Proof.
  induction bits as [|b bits IH].
  - unfold bits_value, binary_to_integer, len. simpl. lia.
  - rewrite bits_value_cons. unfold len in *. simpl length.
    rewrite Nat2Z.inj_succ, Z.pow_succ_r by lia.
    destruct b; simpl Z.b2z; lia.
Qed.

Lemma Zbits_cong m v v' :
  v mod 2 ^ Z.of_nat m = v' mod 2 ^ Z.of_nat m → Zbits m v = Zbits m v'.
Proof.
  induction m as [|m IH]; intros H; [reflexivity|].
  simpl. f_equal.
  - rewrite <- (Z.mod_pow2_bits_low v (Z.of_nat (S m))) by lia.
    rewrite <- (Z.mod_pow2_bits_low v' (Z.of_nat (S m))) by lia.
    rewrite H. reflexivity.
  - apply IH.
    rewrite <- (mod_pow2_le v (Z.of_nat (S m))) by lia.
    rewrite <- (mod_pow2_le v' (Z.of_nat (S m)) (Z.of_nat m)) by lia.
    rewrite H. reflexivity.
Qed.

Lemma Zbits_mod m v : Zbits m (v mod 2 ^ Z.of_nat m) = Zbits m v.
Proof. apply Zbits_cong, Z.mod_mod. lia. Qed.

Lemma Zbits_bits_value bits : Zbits (length bits) (bits_value bits) = bits.
Proof.
  induction bits as [|b bits IH]; [reflexivity|].
  simpl length. simpl Zbits. rewrite bits_value_cons.
  pose proof (bits_value_range bits) as Hr. unfold len in *.
  f_equal.
  - destruct b; simpl Z.b2z.
    + apply Z.testbit_true; [lia|].
      rewrite Z.mul_1_l, Z.add_comm.
      rewrite <- (Z.mul_1_l (2 ^ Z.of_nat (length bits))) at 1.
      rewrite Z.div_add by lia. rewrite Z.div_small by lia. reflexivity.
    + rewrite Z.mul_0_l, Z.add_0_l.
      apply Z.testbit_false; [lia|]. rewrite Z.div_small by lia. reflexivity.
  - etransitivity; [|exact IH]. apply Zbits_cong.
    rewrite Z.add_comm, Z.mod_add by lia. reflexivity.
Qed.

(** The top bit of a register is the sign of the value it holds in two's
    complement. *)
Lemma testbit_sign (x : Z) (n : nat) :
  - 2 ^ Z.of_nat n <= x < 2 ^ Z.of_nat n →
  Z.testbit x (Z.of_nat n) = (x <? 0).
Proof.
  intros H. destruct (Z.ltb_spec x 0) as [Hneg|Hpos].
  - replace x with (- (- x)) by lia. rewrite Z.bits_opp by lia.
    apply negb_true_iff. apply Z.testbit_false; [lia|].
    rewrite Z.div_small by lia. reflexivity.
  - apply Z.testbit_false; [lia|]. rewrite Z.div_small by lia. reflexivity.
Qed.

(** ** Fourier states *)

Lemma fourier_from_0 m v : fourier m v = fourier_from 0 m v.
Proof. reflexivity. Qed.

Lemma fourier_from_S j m v :
  fourier_from j (S m) v = Phase (norm (v # pow2 j)) :: fourier_from (S j) m v.
Proof. reflexivity. Qed.

Lemma fourier_from_length j m v : length (fourier_from j m v) = m.
Proof. unfold fourier_from. rewrite length_fmap, length_seq. reflexivity. Qed.

Lemma fourier_length m v : length (fourier m v) = m.
Proof. apply fourier_from_length. Qed.

Lemma fourier_from_cong j m v v' :
  v mod 2 ^ Z.of_nat (j + m) = v' mod 2 ^ Z.of_nat (j + m) →
  fourier_from j m v = fourier_from j m v'.
Proof.
  revert j. induction m as [|m IH]; intros j H; [reflexivity|].
  rewrite !fourier_from_S. f_equal.
  - f_equal. apply norm_rank_cong.
    rewrite <- (mod_pow2_le v (Z.of_nat (j + S m))) by lia.
    rewrite <- (mod_pow2_le v' (Z.of_nat (j + S m)) (Z.of_nat (S j))) by lia.
    rewrite H. reflexivity.
  - apply IH. replace (S j + m)%nat with (j + S m)%nat by lia. exact H.
Qed.

Lemma fourier_mod m v : fourier m (v mod 2 ^ Z.of_nat m) = fourier m v.
Proof. apply (fourier_from_cong 0). simpl. apply Z.mod_mod. lia. Qed.

Lemma as_bits_Basis bits : as_bits (Basis <$> bits) = Some bits.
Proof. apply mapM_fmap_Some. reflexivity. Qed.

Lemma as_bits_inv qs bits : as_bits qs = Some bits → qs = Basis <$> bits.
Proof.
  intros H. symmetry. eapply mapM_fmap_Some_inv; [exact H|].
  intros [b|p] y; simpl; congruence.
Qed.

Lemma as_phases_Phase phis : as_phases (Phase <$> phis) = Some phis.
Proof. apply mapM_fmap_Some. reflexivity. Qed.

Lemma as_phases_inv qs phis : as_phases qs = Some phis → qs = Phase <$> phis.
Proof.
  intros H. symmetry. eapply mapM_fmap_Some_inv; [exact H|].
  intros [b|p] y; simpl; congruence.
Qed.

Lemma fourier_angles m v : fourier m v = Phase <$> angles m v.
Proof. unfold fourier, angles. rewrite <- list_fmap_compose. reflexivity. Qed.

Lemma Qred_num_den (n : Z) (d : positive) :
  Qnum (Qred (n # d)) * Zpos d = n * Zpos (Qden (Qred (n # d))).
Proof. exact (Qred_correct (n # d)). Qed.

Lemma angles_length m v : length (angles m v) = m.
Proof. unfold angles. rewrite length_fmap, length_seq. reflexivity. Qed.

(** Leaving the Fourier basis gives back the value, modulo [2^m]. *)
Lemma decode_angles m v : decode (angles m v) = Some (v mod 2 ^ Z.of_nat m).
Proof.
  unfold decode. rewrite (angles_length m v).
  assert (Hu : match last (angles m v) with
               | Some p => (Qnum p * 2 ^ Z.of_nat (m - 1)) `div` Zpos (Qden p)
               | None => 0
               end = v mod 2 ^ Z.of_nat m).
  { unfold angles.
    destruct m as [|m]; [simpl; rewrite Z.mod_1_r; reflexivity|].
    rewrite seq_S, fmap_app, last_app. cbn [fmap list_fmap last Nat.add].
    replace (S m - 1)%nat with m by lia.
    unfold norm. simpl Qnum. simpl Qden.
    rewrite pow2_Z, <- Z.pow_succ_r, <- Nat2Z.inj_succ by lia.
    set (r := v mod 2 ^ Z.of_nat (S m)).
    rewrite <- pow2_Z, Qred_num_den, Z.div_mul by lia. reflexivity. }
  rewrite Hu, fourier_mod, bool_decide_eq_true_2; [reflexivity|].
  symmetry. apply fourier_angles.
Qed.

(** ** States *)

Section State.
Implicit Types (s : state) (ws : list wire) (qs : list qubit) (w : wire).

Lemma write_cons w ws q qs s :
  write (w :: ws) (q :: qs) s = <[w := q]> (write ws qs s).
Proof. reflexivity. Qed.

Lemma lookup_write_ne ws qs s w : w ∉ ws → write ws qs s !! w = s !! w.
Proof.
  revert qs. induction ws as [|w' ws IH]; intros qs Hw; [reflexivity|].
  destruct qs as [|q qs]; [reflexivity|].
  apply not_elem_of_cons in Hw as [Hne Hw].
  rewrite write_cons, lookup_insert_ne by congruence. apply IH, Hw.
Qed.

Lemma write_insert ws qs s w q :
  w ∉ ws → write ws qs (<[w := q]> s) = <[w := q]> (write ws qs s).
Proof.
  revert qs. induction ws as [|w' ws IH]; intros qs Hw; [reflexivity|].
  destruct qs as [|q' qs]; [reflexivity|].
  apply not_elem_of_cons in Hw as [Hne Hw].
  rewrite !write_cons, IH by exact Hw.
  apply insert_insert_ne. congruence.
Qed.

Lemma read_cons s w ws :
  read s (w :: ws) = q ← s !! w; qs ← read s ws; Some (q :: qs).
Proof. reflexivity. Qed.

Lemma read_write_ne ws qs s ws' :
  (∀ w, w ∈ ws' → w ∉ ws) → read (write ws qs s) ws' = read s ws'.
Proof.
  intros H. induction ws' as [|w ws' IH]; [reflexivity|].
  rewrite !read_cons, lookup_write_ne, IH; [reflexivity| |].
  - intros w' Hw'. apply H. right. exact Hw'.
  - apply H. left.
Qed.

Lemma read_insert_ne s ws w q :
  w ∉ ws → read (<[w := q]> s) ws = read s ws.
Proof.
  intros H. induction ws as [|w' ws IH]; [reflexivity|].
  apply not_elem_of_cons in H as [Hne H].
  rewrite !read_cons, lookup_insert_ne, IH by (congruence || exact H).
  reflexivity.
Qed.

Lemma read_write ws qs s :
  NoDup ws → length qs = length ws → read (write ws qs s) ws = Some qs.
Proof.
  revert qs. induction ws as [|w ws IH]; intros [|q qs] Hnd Hlen;
    try discriminate; [reflexivity|].
  apply NoDup_cons in Hnd as [Hw Hnd].
  rewrite write_cons, read_cons, lookup_insert_eq. simpl.
  rewrite read_insert_ne, IH by (auto || (simpl in Hlen; lia)). reflexivity.
Qed.

Lemma write_write ws qs qs' s :
  NoDup ws → length qs = length ws → length qs' = length ws →
  write ws qs' (write ws qs s) = write ws qs' s.
Proof.
  revert qs qs'. induction ws as [|w ws IH];
    intros [|q qs] [|q' qs'] Hnd Hl Hl'; try discriminate; [reflexivity|].
  apply NoDup_cons in Hnd as [Hw Hnd]. simpl in Hl, Hl'.
  rewrite !write_cons, write_insert, insert_insert_eq, IH by (auto || lia).
  reflexivity.
Qed.

Lemma write_read s ws qs : read s ws = Some qs → write ws qs s = s.
Proof.
  revert qs. induction ws as [|w ws IH]; intros qs H.
  - injection H as <-. reflexivity.
  - rewrite read_cons in H.
    destruct (s !! w) as [q|] eqn:Hw; [|discriminate]. simpl in H.
    destruct (read s ws) as [qs'|] eqn:Hr; [|discriminate].
    injection H as <-. rewrite write_cons, (IH qs') by reflexivity.
    apply insert_id, Hw.
Qed.

Lemma read_length s ws qs : read s ws = Some qs → length qs = length ws.
Proof. intros H. symmetry. eapply length_mapM, H. Qed.
End State.

(** ** Running operators *)

Lemma run_app ops1 ops2 s : run (ops1 ++ ops2) s = run ops1 s ≫= run ops2.
Proof.
  revert s. induction ops1 as [|g ops1 IH]; intros s; [reflexivity|].
  simpl. destruct (run_op g s) as [s'|]; simpl; [apply IH|reflexivity].
Qed.

Lemma run_app_Some ops1 ops2 s s1 :
  run ops1 s = Some s1 → run (ops1 ++ ops2) s = run ops2 s1.
Proof. intros H. rewrite run_app, H. reflexivity. Qed.

Lemma run_cons_Some g ops s s1 :
  run_op g s = Some s1 → run (g :: ops) s = run ops s1.
Proof. intros H. cbn [run]. rewrite H. reflexivity. Qed.

(** An operator leaves the wires it does not name as they are. *)
Lemma run_op_frame g s s' w :
  run_op g s = Some s' → w ∉ op_wires g → s' !! w = s !! w.
Proof.
  revert s s'. induction g as [theta w0|ws|ws|w0|c t|a b|base IH control];
    intros s s' Hrun Hw; simpl in *.
  - apply not_elem_of_cons in Hw as [Hne _].
    destruct (s !! w0); simplify_eq/=. apply lookup_insert_ne. congruence.
  - destruct (decide (NoDup ws)); [|done].
    destruct (read s ws) as [qs|]; [|done]. simpl in Hrun.
    destruct (as_bits qs); simplify_eq/=. apply lookup_write_ne, Hw.
  - destruct (decide (NoDup ws)); [|done].
    destruct (read s ws) as [qs|]; [|done]. simpl in Hrun.
    destruct (as_phases qs) as [phis|]; [|done]. simpl in Hrun.
    destruct (decode phis); simplify_eq/=. apply lookup_write_ne, Hw.
  - apply not_elem_of_cons in Hw as [Hne _].
    destruct (s !! w0); simplify_eq/=. apply lookup_insert_ne. congruence.
  - apply not_elem_of_cons in Hw as [_ Hw].
    apply not_elem_of_cons in Hw as [Hne _].
    destruct (decide (c = t)); [done|].
    destruct (s !! c) as [[[|]|]|]; try done; simpl in Hrun;
      destruct (s !! t); simplify_eq/=; [|reflexivity].
    apply lookup_insert_ne. congruence.
  - apply not_elem_of_cons in Hw as [Hna Hw].
    apply not_elem_of_cons in Hw as [Hnb _].
    destruct (decide (a = b)); [done|].
    destruct (s !! a); [|done]. simpl in Hrun.
    destruct (s !! b); simplify_eq/=.
    rewrite !lookup_insert_ne by congruence. reflexivity.
  - apply not_elem_of_app in Hw as [_ Hw].
    destruct (conflicts control base); [done|].
    destruct (read s control) as [qs|]; [|done]. simpl in Hrun.
    destruct (as_bits qs) as [bits|]; [|done]. simpl in Hrun.
    destruct (forallb id bits); [|congruence]. eapply IH; eauto.
Qed.

Lemma conflicts_single c g : c ∉ op_wires g → conflicts [c] g = false.
Proof.
  intros H. unfold conflicts. simpl.
  rewrite bool_decide_eq_false_2 by exact H. reflexivity.
Qed.

(** A single control in a basis state selects between the operator and
    nothing. *)
Lemma run_op_Controlled g c s (b : bool) :
  c ∉ op_wires g → s !! c = Some (Basis b) →
  run_op (Controlled g [c]) s = if b then run_op g s else Some s.
Proof.
  intros Hc Hs. cbn [run_op]. rewrite conflicts_single by exact Hc.
  unfold read. simpl. rewrite Hs. simpl. destruct b; reflexivity.
Qed.

Lemma run_controlled_by ops c s (b : bool) :
  (∀ g, g ∈ ops → c ∉ op_wires g) → s !! c = Some (Basis b) →
  run (controlled_by [c] ops) s = if b then run ops s else Some s.
Proof.
  revert s. induction ops as [|g ops IH]; intros s Hc Hs.
  - destruct b; reflexivity.
  - assert (Hg : c ∉ op_wires g) by (apply Hc; left).
    assert (Hops : ∀ g', g' ∈ ops → c ∉ op_wires g')
      by (intros g' Hg'; apply Hc; right; exact Hg').
    change (controlled_by [c] (g :: ops))
      with (Controlled g [c] :: controlled_by [c] ops).
    cbn [run]. rewrite (run_op_Controlled g c s b Hg Hs).
    destruct b.
    + destruct (run_op g s) as [s'|] eqn:Hrun; [|reflexivity]. simpl.
      rewrite (IH s' Hops); [reflexivity|].
      rewrite (run_op_frame _ _ _ _ Hrun Hg). exact Hs.
    + simpl. rewrite (IH s Hops Hs). reflexivity.
Qed.

Lemma ctrl_Ok out ops c :
  (∀ g, g ∈ ops → c ∉ op_wires g) →
  ctrl (Ok tt out ops) [c] = Ok tt out (controlled_by [c] ops).
Proof.
  intros H. unfold ctrl.
  replace (existsb (conflicts [c]) ops) with false; [reflexivity|].
  symmetry. apply not_true_is_false. intros Hex.
  apply existsb_exists in Hex as (g & Hg & Hcon).
  rewrite conflicts_single in Hcon; [discriminate|].
  apply H, list_elem_of_In, Hg.
Qed.

(** ** The transforms on a register *)

Section Register.
Variables (ws : list wire) (s : state).
Hypothesis ws_NoDup : NoDup ws.

Lemma run_QFT bits :
  length bits = length ws →
  run_op (QFT ws) (write ws (Basis <$> bits) s)
  = Some (write ws (fourier (length ws) (bits_value bits)) s).
Proof.
  intros Hlen. simpl. rewrite decide_True by exact ws_NoDup.
  rewrite read_write by (rewrite ?length_fmap; auto). simpl.
  rewrite as_bits_Basis. simpl.
  rewrite write_write;
    rewrite ?length_fmap, ?fourier_length; auto.
Qed.

Lemma run_QFTdg v :
  run_op (QFTdg ws) (write ws (fourier (length ws) v) s)
  = Some (write ws (Basis <$> Zbits (length ws) v) s).
Proof.
  simpl. rewrite decide_True by exact ws_NoDup.
  rewrite read_write by (rewrite ?fourier_length; auto). simpl.
  rewrite fourier_angles, as_phases_Phase. simpl.
  rewrite decode_angles. simpl.
  rewrite Zbits_mod, write_write;
    rewrite ?length_fmap, ?angles_length, ?Zbits_length; auto.
Qed.
End Register.

Lemma run_rotations k j ws s v :
  NoDup ws →
  run (rotations k j ws) (write ws (fourier_from j (length ws) v) s)
  = Some (write ws (fourier_from j (length ws) (v + k)) s).
Proof.
  revert j s. induction ws as [|w ws IH]; intros j s Hnd; [reflexivity|].
  apply NoDup_cons in Hnd as [Hw Hnd].
  simpl length. rewrite !fourier_from_S, !write_cons.
  cbn [rotations run run_op]. rewrite lookup_insert_eq. simpl.
  rewrite insert_insert_eq, norm_rank_plus.
  rewrite <- write_insert by exact Hw. rewrite IH by exact Hnd.
  rewrite write_insert by exact Hw. reflexivity.
Qed.

Lemma run_rotations_reverse k j ws s v :
  NoDup ws →
  run (reverse (rotations k j ws)) (write ws (fourier_from j (length ws) v) s)
  = Some (write ws (fourier_from j (length ws) (v + k)) s).
Proof.
  revert j s. induction ws as [|w ws IH]; intros j s Hnd; [reflexivity|].
  apply NoDup_cons in Hnd as [Hw Hnd].
  simpl length. rewrite !fourier_from_S, !write_cons.
  cbn [rotations]. rewrite reverse_cons, run_app.
  rewrite <- write_insert by exact Hw. rewrite IH by exact Hnd. simpl.
  rewrite write_insert by exact Hw.
  rewrite lookup_insert_eq. simpl.
  rewrite insert_insert_eq, norm_rank_plus. reflexivity.
Qed.

Lemma rotations_wires k j ws g w : g ∈ rotations k j ws → w ∉ ws → w ∉ op_wires g.
Proof.
  revert j. induction ws as [|w' ws IH]; intros j Hg Hw; simpl in Hg.
  - inversion Hg.
  - apply not_elem_of_cons in Hw as [Hne Hw].
    apply elem_of_cons in Hg as [->|Hg].
    + simpl. intros Hin. apply list_elem_of_singleton in Hin. congruence.
    + eapply IH; eauto.
Qed.

(** ** The constant adder in the Fourier basis *)

Section Adder.
Variables (w0 : wire) (ws' : list wire) (x0 : wire).
Let ws := w0 :: ws'.
Let m' := length ws'.
Hypothesis wires_NoDup : NoDup (x0 :: ws).

Local Lemma ws_NoDup : NoDup ws.
Proof. apply NoDup_cons in wires_NoDup as [_ H]. exact H. Qed.

Local Lemma x0_fresh : x0 ∉ ws.
Proof. apply NoDup_cons in wires_NoDup as [H _]. exact H. Qed.

Local Lemma w0_fresh : w0 ∉ ws'.
Proof. pose proof ws_NoDup as H. apply NoDup_cons in H as [H _]. exact H. Qed.

Local Lemma w0_x0 : w0 ≠ x0.
Proof.
  pose proof x0_fresh as H. apply not_elem_of_cons in H as [H _]. congruence.
Qed.

(** The top wire copied into the overflow wire. *)
Lemma run_CNOT_top (b bx : bool) qs s :
  s !! x0 = Some (Basis bx) →
  run_op (CNOT w0 x0) (write ws (Basis b :: qs) s)
  = Some (write ws (Basis b :: qs) (<[x0 := Basis (xorb bx b)]> s)).
Proof.
  intros Hx. pose proof x0_fresh as Hf. pose proof w0_x0 as Hne.
  assert (H0 : write ws (Basis b :: qs) s !! w0 = Some (Basis b))
    by (unfold ws; rewrite write_cons; apply lookup_insert_eq).
  assert (H1 : write ws (Basis b :: qs) s !! x0 = Some (Basis bx))
    by (rewrite lookup_write_ne by exact Hf; exact Hx).
  cbn [run_op]. rewrite decide_False by exact Hne.
  rewrite H0. simpl. rewrite H1. simpl. f_equal.
  destruct b; simpl.
  - rewrite write_insert by exact Hf. destruct bx; reflexivity.
  - rewrite xorb_false_r, (insert_id s) by exact Hx. reflexivity.
Qed.

Lemma run_PauliX_top (b : bool) qs s :
  run_op (PauliX w0) (write ws (Basis b :: qs) s)
  = Some (write ws (Basis (negb b) :: qs) s).
Proof.
  cbn [run_op]. unfold ws. rewrite !write_cons, lookup_insert_eq. simpl.
  rewrite insert_insert_eq. reflexivity.
Qed.

Local Lemma refourier (u : Z) s :
  run_op (QFT ws) (write ws (Basis <$> Zbits (length ws) u) s)
  = Some (write ws (fourier (length ws) u) s).
Proof.
  rewrite run_QFT by (apply ws_NoDup || apply Zbits_length).
  rewrite bits_value_Zbits, fourier_mod. reflexivity.
Qed.

(** Out of the Fourier basis, the top bit added into the overflow wire,
    and back. *)
Lemma run_sign_test (u : Z) (bx : bool) s :
  s !! x0 = Some (Basis bx) →
  run [QFTdg ws; CNOT w0 x0; QFT ws] (write ws (fourier (length ws) u) s)
  = Some (write ws (fourier (length ws) u)
            (<[x0 := Basis (xorb bx (Z.testbit u (Z.of_nat m')))]> s)).
Proof.
  intros Hx.
  rewrite (run_cons_Some _ _ _ _ (run_QFTdg ws s ws_NoDup u)).
  change (Basis <$> Zbits (length ws) u)
    with (Basis (Z.testbit u (Z.of_nat m')) :: (Basis <$> Zbits m' u)).
  rewrite (run_cons_Some _ _ _ _ (run_CNOT_top _ bx _ s Hx)).
  change (Basis (Z.testbit u (Z.of_nat m')) :: (Basis <$> Zbits m' u))
    with (Basis <$> Zbits (length ws) u).
  rewrite (run_cons_Some _ _ _ _ (refourier u _)). reflexivity.
Qed.

(** The same with the top bit complemented for the copy. *)
Lemma run_sign_test_neg (u : Z) (bx : bool) s :
  s !! x0 = Some (Basis bx) →
  run [QFTdg ws; PauliX w0; CNOT w0 x0; PauliX w0; QFT ws]
    (write ws (fourier (length ws) u) s)
  = Some (write ws (fourier (length ws) u)
            (<[x0 := Basis (xorb bx (negb (Z.testbit u (Z.of_nat m'))))]> s)).
Proof.
  intros Hx.
  rewrite (run_cons_Some _ _ _ _ (run_QFTdg ws s ws_NoDup u)).
  change (Basis <$> Zbits (length ws) u)
    with (Basis (Z.testbit u (Z.of_nat m')) :: (Basis <$> Zbits m' u)).
  rewrite (run_cons_Some _ _ _ _ (run_PauliX_top _ _ s)).
  rewrite (run_cons_Some _ _ _ _ (run_CNOT_top _ bx _ s Hx)).
  rewrite (run_cons_Some _ _ _ _ (run_PauliX_top _ _ _)), negb_involutive.
  change (Basis (Z.testbit u (Z.of_nat m')) :: (Basis <$> Zbits m' u))
    with (Basis <$> Zbits (length ws) u).
  rewrite (run_cons_Some _ _ _ _ (refourier u _)). reflexivity.
Qed.

Lemma run_add (k v : Z) s :
  run (rotations k 0 ws) (write ws (fourier (length ws) v) s)
  = Some (write ws (fourier (length ws) (v + k)) s).
Proof. apply (run_rotations k 0 ws s v), ws_NoDup. Qed.

Lemma run_sub (k v : Z) s :
  run (adjoint_ops (rotations k 0 ws)) (write ws (fourier (length ws) v) s)
  = Some (write ws (fourier (length ws) (v - k)) s).
Proof.
  rewrite rotations_adjoint.
  apply (run_rotations_reverse (- k) 0 ws s v), ws_NoDup.
Qed.

Lemma run_add_if (k v : Z) (b : bool) s :
  s !! x0 = Some (Basis b) →
  run (controlled_by [x0] (rotations k 0 ws)) (write ws (fourier (length ws) v) s)
  = Some (write ws (fourier (length ws) (if b then v + k else v)) s).
Proof.
  intros Hx. rewrite (run_controlled_by _ x0 _ b).
  - destruct b; [apply run_add|reflexivity].
  - intros g Hg. eapply rotations_wires; [exact Hg|apply x0_fresh].
  - rewrite lookup_write_ne by apply x0_fresh. exact Hx.
Qed.

(** What the operators of [add_in_k_N] do to a Fourier state, whatever
    the value and the width: two sign tests on wrapped differences. *)
Lemma run_adder_core_gen (k N v : Z) s :
  s !! x0 = Some (Basis false) →
  let b1 := Z.testbit (v + k - N) (Z.of_nat m') in
  let r := if b1 then v + k - N + N else v + k - N in
  let b2 := Z.testbit (r - k) (Z.of_nat m') in
  run (adder_core k N ws x0) (write ws (fourier (length ws) v) s)
  = Some (write ws (fourier (length ws) (r - k + k))
            (<[x0 := Basis (xorb b1 (negb b2))]> s)).
Proof.
  intros Hx b1 r b2. unfold adder_core.
  change (default 0%nat (head ws)) with w0.
  rewrite (run_app_Some _ _ _ _ (run_add k v s)).
  rewrite (run_app_Some _ _ _ _ (run_sub N (v + k) s)).
  rewrite (run_app_Some _ _ _ _ (run_sign_test (v + k - N) false s Hx)).
  rewrite xorb_false_l. fold b1.
  erewrite run_app_Some;
    [|apply (run_add_if N (v + k - N) b1), lookup_insert_eq].
  fold r.
  erewrite run_app_Some; [|apply run_sub].
  erewrite run_app_Some;
    [|apply (run_sign_test_neg (r - k) b1), lookup_insert_eq].
  fold b2. rewrite insert_insert_eq. apply run_add.
Qed.

(** With room for the sign, the register goes from [v] to
    [(v + k) mod N] and the overflow wire is back at 0. *)
Lemma run_adder_core (k N v : Z) s :
  s !! x0 = Some (Basis false) →
  0 <= v < N → 0 <= k < N → N <= 2 ^ Z.of_nat m' →
  run (adder_core k N ws x0) (write ws (fourier (length ws) v) s)
  = Some (write ws (fourier (length ws) ((v + k) mod N)) s).
Proof.
  intros Hx Hv Hk HN. rewrite run_adder_core_gen by exact Hx.
  rewrite (testbit_sign (v + k - N)) by lia.
  destruct (Z.ltb_spec (v + k - N) 0) as [Hlt|Hge].
  - rewrite testbit_sign by lia.
    destruct (Z.ltb_spec (v + k - N + N - k) 0); [lia|]. simpl.
    rewrite (insert_id s) by exact Hx.
    rewrite Z.mod_small by lia. do 3 f_equal. lia.
  - rewrite testbit_sign by lia.
    destruct (Z.ltb_spec (v + k - N - k) 0); [|lia]. simpl.
    rewrite (insert_id s) by exact Hx.
    do 3 f_equal. apply (Z.mod_unique _ _ 1); lia.
Qed.
End Adder.

(** ** The wires a list of operators names *)

Lemma within_app W ops1 ops2 :
  within W (ops1 ++ ops2) ↔ within W ops1 ∧ within W ops2.
Proof. apply Forall_app. Qed.

Lemma within_weaken W W' ops :
  (∀ w, w ∈ W → w ∈ W') → within W ops → within W' ops.
Proof.
  intros H Hops. eapply Forall_impl; [exact Hops|].
  intros g Hg w Hw. apply H, Hg, Hw.
Qed.

Lemma within_reverse W ops : within W ops → within W (reverse ops).
Proof. intros H. apply Forall_reverse, H. Qed.

Lemma within_rotations k j ws : within ws (rotations k j ws).
Proof.
  revert j. induction ws as [|w ws IH]; intros j; [constructor|].
  constructor.
  - intros w' Hw'. apply list_elem_of_singleton in Hw' as ->. left.
  - eapply within_weaken; [|apply IH]. intros w' Hw'. right. exact Hw'.
Qed.

Lemma within_controlled_by W cs ops :
  (∀ c, c ∈ cs → c ∈ W) → within W ops → within W (controlled_by cs ops).
Proof.
  intros Hcs H. unfold controlled_by. apply Forall_fmap.
  eapply Forall_impl; [exact H|]. intros g Hg w Hw. simpl in Hw.
  apply elem_of_app in Hw as [Hw|Hw]; [apply Hcs, Hw|apply Hg, Hw].
Qed.

Lemma op_adjoint_wires g : op_wires (op_adjoint g) = op_wires g.
Proof. induction g; simpl; congruence. Qed.

Lemma within_adjoint W ops : within W ops → within W (adjoint_ops ops).
Proof.
  intros H. unfold adjoint_ops. apply within_reverse, Forall_fmap.
  eapply Forall_impl; [exact H|]. intros g Hg w. simpl.
  rewrite op_adjoint_wires. apply Hg.
Qed.

Lemma within_fresh W ops c :
  within W ops → c ∉ W → ∀ g, g ∈ ops → c ∉ op_wires g.
Proof.
  intros H Hc g Hg Hin. apply Hc.
  unfold within in H. rewrite Forall_forall in H. exact (H g Hg c Hin).
Qed.

Lemma within_adder_ops k N w0 ws' x0 std :
  within (x0 :: w0 :: ws') (adder_ops k N (w0 :: ws') x0 std).
Proof.
  assert (Hrot : ∀ k', within (x0 :: w0 :: ws') (rotations k' 0 (w0 :: ws'))).
  { intros k'. eapply within_weaken; [|apply within_rotations].
    intros w Hw. right. exact Hw. }
  assert (Hcore : within (x0 :: w0 :: ws') (adder_core k N (w0 :: ws') x0)).
  { unfold adder_core. simpl head. simpl default.
    repeat (apply within_app; split);
      try apply Hrot; try apply within_adjoint, Hrot.
    - within_gates.
    - apply within_controlled_by; [|apply Hrot].
      intros c Hc. apply list_elem_of_singleton in Hc as ->. left.
    - within_gates. }
  unfold adder_ops. destruct std; [|exact Hcore].
  apply within_app; split; [within_gates|].
  apply within_app; split; [exact Hcore|within_gates].
Qed.

(** ** add_in_k_N *)

Lemma adjoint_Ok out ops : adjoint (Ok tt out ops) = Ok tt out (adjoint_ops ops).
Proof. reflexivity. Qed.

Lemma add_in_k_N_ok k N w0 ws' x0 aux' std :
  x0 ∉ w0 :: ws' →
  add_in_k_N k N (w0 :: ws') (x0 :: aux') std
  = Ok tt [] (adder_ops k N (w0 :: ws') x0 std).
Proof.
  intros Hx. unfold add_in_k_N.
  rewrite !sum_k_ok, !adjoint_Ok, !py_index_head, !bind_mret.
  rewrite ctrl_Ok
    by (apply (within_fresh (w0 :: ws')); [apply within_rotations|exact Hx]).
  unfold adder_ops, adder_core, queue. simpl head. simpl default.
  destruct std; cbn [mbind build_bind mret build_ret app];
    rewrite ?app_nil_r; repeat (rewrite <- !app_assoc; cbn [app]);
    reflexivity.
Qed.

Lemma read_BasisEmbedding v ws s :
  NoDup ws → read (BasisEmbedding v ws s) ws = Some (Basis <$> Zbits (length ws) v).
Proof.
  intros H. apply read_write; [exact H|].
  rewrite length_fmap, Zbits_length. reflexivity.
Qed.

Lemma measure_BasisEmbedding v ws s :
  NoDup ws → 0 <= v < 2 ^ len ws → measure (BasisEmbedding v ws s) ws = Some v.
Proof.
  intros Hnd Hv. unfold measure. rewrite read_BasisEmbedding by exact Hnd.
  simpl. rewrite as_bits_Basis. simpl.
  rewrite bits_value_Zbits, Z.mod_small by exact Hv. reflexivity.
Qed.

Lemma measure_BasisEmbedding_ne v ws s ws' :
  (∀ w, w ∈ ws' → w ∉ ws) → measure (BasisEmbedding v ws s) ws' = measure s ws'.
Proof.
  intros H. unfold measure, BasisEmbedding.
  rewrite read_write_ne by exact H. reflexivity.
Qed.

Lemma lookup_BasisEmbedding_ne v ws s w :
  w ∉ ws → BasisEmbedding v ws s !! w = s !! w.
Proof. apply lookup_write_ne. Qed.

Lemma run_adder_std k N a w0 ws' x0 s :
  NoDup (x0 :: w0 :: ws') → s !! x0 = Some (Basis false) →
  0 <= a < N → 0 <= k < N → N <= 2 ^ Z.of_nat (length ws') →
  run (adder_ops k N (w0 :: ws') x0 true) (BasisEmbedding a (w0 :: ws') s)
  = Some (BasisEmbedding ((a + k) mod N) (w0 :: ws') s).
Proof.
  intros Hnd Hx Ha Hk HN.
  assert (Hws : NoDup (w0 :: ws')) by (apply NoDup_cons in Hnd; tauto).
  unfold adder_ops, BasisEmbedding.
  change ([QFT (w0 :: ws')] ++ ?l) with (QFT (w0 :: ws') :: l).
  erewrite run_cons_Some; [|apply run_QFT; [exact Hws|apply Zbits_length]].
  rewrite bits_value_Zbits, fourier_mod.
  erewrite run_app_Some; [|apply run_adder_core; eassumption].
  erewrite run_cons_Some; [|apply run_QFTdg; exact Hws].
  reflexivity.
Qed.

Lemma testbit_below (x : Z) (n : nat) :
  - 2 ^ Z.of_nat (S n) <= x < - 2 ^ Z.of_nat n →
  Z.testbit x (Z.of_nat n) = false.
Proof.
  rewrite Nat2Z.inj_succ, Z.pow_succ_r by lia. intros H.
  replace x with (- (- x)) by lia. rewrite Z.bits_opp by lia.
  apply negb_false_iff. apply Z.testbit_true; [lia|].
  replace (Z.pred (- x) `div` 2 ^ Z.of_nat n) with 1; [reflexivity|].
  apply (Z.div_unique _ _ 1 (Z.pred (- x) - 2 ^ Z.of_nat n)); lia.
Qed.

(** Without the spare top wire the adder fails for every modulus: from
    a = 0 with k = 0 the overflow wire is left at 1. *)
Lemma run_adder_narrow N w0 ws' x0 (s : state) :
  NoDup (x0 :: w0 :: ws') → s !! x0 = Some (Basis false) →
  2 ^ Z.of_nat (length ws') < N <= 2 ^ Z.of_nat (S (length ws')) →
  run (adder_ops 0 N (w0 :: ws') x0 true) (BasisEmbedding 0 (w0 :: ws') s)
  = Some (BasisEmbedding (- N) (w0 :: ws') (<[x0 := Basis true]> s)).
Proof.
  intros Hnd Hx HN.
  assert (Hws : NoDup (w0 :: ws')) by (apply NoDup_cons in Hnd; tauto).
  assert (Hbit : Z.testbit (- N) (Z.of_nat (length ws')) = false)
    by (apply testbit_below; lia).
  unfold adder_ops, BasisEmbedding.
  change ([QFT (w0 :: ws')] ++ ?l) with (QFT (w0 :: ws') :: l).
  erewrite run_cons_Some; [|apply run_QFT; [exact Hws|apply Zbits_length]].
  rewrite bits_value_Zbits, fourier_mod.
  erewrite run_app_Some; [|apply run_adder_core_gen; eassumption].
  cbv zeta. change (0 + 0 - N) with (- N). rewrite Hbit.
  replace (- N - 0) with (- N) by lia. rewrite Hbit.
  replace (- N + 0) with (- N) by lia. simpl xorb.
  erewrite run_cons_Some; [|apply run_QFTdg; exact Hws].
  reflexivity.
Qed.

(** C1, amended: on a register with one spare top wire, that is with
    [N <= 2^(n-1)] for [n] wires, and an overflow wire at 0 outside the
    register, the circuit of [add_in_k_N(k, N, wires_a, wires_aux)] takes
    the basis state [a < N] to [(a + k) mod N]; every other wire, the
    overflow wire among them, is as it was. *)
Theorem add_in_k_N_correct (N k a : Z) (wires_a wires_aux : list wire)
    (x0 : wire) (s : state) :
  2 <= N → 0 <= k < N → 0 <= a < N →
  N <= 2 ^ (len wires_a - 1) →
  head wires_aux = Some x0 → NoDup (x0 :: wires_a) →
  s !! x0 = Some (Basis false) →
  ∃ s', execute (add_in_k_N k N wires_a wires_aux true)
          (BasisEmbedding a wires_a s) = Some s'
      ∧ s' = BasisEmbedding ((a + k) mod N) wires_a s
      ∧ measure s' wires_a = Some ((a + k) mod N)
      ∧ s' !! x0 = Some (Basis false).
Proof.
  intros HN Hk Ha Hwidth Haux Hnd Hx.
  destruct wires_aux as [|x aux']; [discriminate|]. injection Haux as ->.
  destruct wires_a as [|w0 ws'].
  { exfalso. unfold len in Hwidth. simpl in Hwidth. lia. }
  assert (Hws : NoDup (w0 :: ws')) by (apply NoDup_cons in Hnd; tauto).
  assert (Hfresh : x0 ∉ w0 :: ws') by (apply NoDup_cons in Hnd; tauto).
  assert (Hw : N <= 2 ^ Z.of_nat (length ws')).
  { revert Hwidth. unfold len. cbn [length]. rewrite Nat2Z.inj_succ.
    replace (Z.succ (Z.of_nat (length ws')) - 1) with (Z.of_nat (length ws'))
      by lia. trivial. }
  eexists. split; [|split; [reflexivity|split]].
  - rewrite add_in_k_N_ok by exact Hfresh. simpl execute.
    apply run_adder_std; assumption.
  - apply measure_BasisEmbedding; [exact Hws|].
    pose proof (Z.mod_pos_bound (a + k) N ltac:(lia)) as Hm.
    unfold len. cbn [length]. rewrite Nat2Z.inj_succ, Z.pow_succ_r by lia.
    lia.
  - rewrite lookup_BasisEmbedding_ne by exact Hfresh. exact Hx.
Qed.

Lemma add_in_k_N_correct_witness :
  ∃ s', execute (add_in_k_N 3 5 [0; 1; 2; 3]%nat [4%nat] true)
          (BasisEmbedding 4 [0; 1; 2; 3]%nat (device 10)) = Some s'
      ∧ s' = BasisEmbedding ((4 + 3) mod 5) [0; 1; 2; 3]%nat (device 10)
      ∧ measure s' [0; 1; 2; 3]%nat = Some ((4 + 3) mod 5)
      ∧ s' !! 4%nat = Some (Basis false).
Proof.
  apply (add_in_k_N_correct 5 3 4 [0; 1; 2; 3]%nat [4%nat] 4%nat (device 10));
    [lia|lia|lia|by_compute|reflexivity|by_compute|reflexivity].
Defined.

(** C1 as stated fails on a register that can hold the residues modulo [N]
    but has no spare top wire: with N = 5 on three wires, a = 0 and k = 0
    come out as 3, and the overflow wire is left at 1. *)
Lemma add_in_k_N_narrow_register :
  2 <= 5 ∧ 0 <= 0 < 5 ∧ 5 <= 2 ^ len [1; 2; 3]%nat
  ∧ NoDup [4; 1; 2; 3]%nat
  ∧ device 5 !! 4%nat = Some (Basis false)
  ∧ ∃ s', execute (add_in_k_N 0 5 [1; 2; 3]%nat [4%nat] true)
            (BasisEmbedding 0 [1; 2; 3]%nat (device 5)) = Some s'
        ∧ measure s' [1; 2; 3]%nat = Some 3
        ∧ 3 ≠ (0 + 0) mod 5
        ∧ s' !! 4%nat = Some (Basis true).
Proof.
  split; [lia|]. split; [lia|]. split; [by_compute|].
  split; [by_compute|]. split; [reflexivity|].
  eexists. split; [vm_compute; reflexivity|].
  split; [vm_compute; reflexivity|]. split; [discriminate|].
  vm_compute. reflexivity.
Qed.

(** ** Adders under the control of a register *)

Lemma controlled_adders_imap c N wa ext x j :
  concat (imap (λ i w, controlled_by [w]
                 (adder_ops
                    ((c * 2 ^ (Z.of_nat (j + length wa) - 1 - Z.of_nat (j + i)))
                     mod N) N ext x false)) wa)
  = controlled_adders c N wa ext x.
Proof.
  revert j. induction wa as [|w wa IH]; intros j; [reflexivity|].
  cbn [imap concat length controlled_adders]. f_equal.
  - do 5 f_equal. unfold len. lia.
  - rewrite <- (IH (S j)). f_equal. apply imap_ext. intros i w' _. simpl.
    do 5 f_equal. lia.
Qed.

Lemma controlled_adders_loop c N wa ext x :
  concat (imap (λ i w, controlled_by [w]
                 (adder_ops ((c * 2 ^ (len wa - 1 - Z.of_nat i)) mod N)
                    N ext x false)) wa)
  = controlled_adders c N wa ext x.
Proof. exact (controlled_adders_imap c N wa ext x 0). Qed.

Lemma within_controlled_adders c N wa e0 ext' x :
  within (wa ++ x :: e0 :: ext') (controlled_adders c N wa (e0 :: ext') x).
Proof.
  induction wa as [|w wa IH]; [constructor|].
  cbn [controlled_adders]. apply within_app. split.
  - apply within_controlled_by.
    + intros c' Hc'. apply list_elem_of_singleton in Hc' as ->. left.
    + eapply within_weaken; [|apply within_adder_ops].
      intros w' Hw'. apply elem_of_app. right. exact Hw'.
  - eapply within_weaken; [|exact IH]. intros w' Hw'. right. exact Hw'.
Qed.

Lemma mod_add_chain v a d N :
  0 < N → ((v + a mod N) mod N + d) mod N = (v + (a + d)) mod N.
Proof.
  intros HN. rewrite Z.add_mod_idemp_l by lia.
  rewrite <- Z.add_assoc, (Z.add_comm v), <- Z.add_assoc.
  rewrite Z.add_mod_idemp_l by lia. f_equal. lia.
Qed.

Section ControlledAdders.
Variables (e0 : wire) (ext' : list wire) (x : wire) (N : Z).
Let ext := e0 :: ext'.
Hypothesis wires_NoDup : NoDup (x :: ext).
Hypothesis N_fits : 0 < N <= 2 ^ Z.of_nat (length ext').

Lemma run_controlled_adders c wa abits v s :
  (∀ w, w ∈ wa → w ∉ x :: ext) →
  read s wa = Some (Basis <$> abits) →
  s !! x = Some (Basis false) →
  0 <= v < N →
  run (controlled_adders c N wa ext x) (write ext (fourier (length ext) v) s)
  = Some (write ext (fourier (length ext) ((v + c * bits_value abits) mod N)) s).
Proof.
  revert abits v.
  induction wa as [|w wa IH]; intros abits v Hwa Hread Hx Hv.
  - destruct abits; [|discriminate]. simpl.
    unfold bits_value, binary_to_integer. simpl.
    rewrite Z.mul_0_r, Z.add_0_r, Z.mod_small by lia. reflexivity.
  - rewrite read_cons in Hread.
    destruct (s !! w) as [q|] eqn:Hw; [|discriminate]. simpl in Hread.
    destruct (read s wa) as [qs|] eqn:Hr; [|discriminate].
    destruct abits as [|b abits]; [discriminate|].
    injection Hread as -> ->.
    assert (Hfw : w ∉ x :: ext) by (apply Hwa; left).
    assert (Hwa' : ∀ w', w' ∈ wa → w' ∉ x :: ext)
      by (intros w' Hw'; apply Hwa; right; exact Hw').
    assert (Hlen : len wa = len abits).
    { unfold len. f_equal. apply read_length in Hr.
      rewrite length_fmap in Hr. congruence. }
    cbn [controlled_adders].
    set (value := (c * 2 ^ len wa) mod N).
    assert (Hvalue : 0 <= value < N) by (apply Z.mod_pos_bound; lia).
    assert (Hstep :
      run (controlled_by [w] (adder_ops value N ext x false))
        (write ext (fourier (length ext) v) s)
      = Some (write ext
                (fourier (length ext) (if b then (v + value) mod N else v)) s)).
    { rewrite (run_controlled_by _ w _ b).
      - destruct b; [|reflexivity].
        apply (run_adder_core e0 ext' x wires_NoDup value N v s Hx Hv Hvalue).
        lia.
      - apply (within_fresh (x :: ext)); [apply within_adder_ops|exact Hfw].
      - rewrite lookup_write_ne; [exact Hw|].
        intros Hin. apply Hfw. right. exact Hin. }
    rewrite (run_app_Some _ _ _ _ Hstep).
    rewrite bits_value_cons, <- Hlen.
    destruct b; simpl Z.b2z.
    + rewrite (IH abits ((v + value) mod N) Hwa' eq_refl Hx)
        by (apply Z.mod_pos_bound; lia).
      unfold value. rewrite mod_add_chain by lia.
      replace (c * 2 ^ len wa + c * bits_value abits)
        with (c * (1 * 2 ^ len wa + bits_value abits)) by lia.
      reflexivity.
    + replace (v + c * (0 * 2 ^ len wa + bits_value abits))
        with (v + c * bits_value abits) by lia.
      apply (IH abits v Hwa' eq_refl Hx Hv).
Qed.

(** The extended register holds what the register below its top wire
    holds, as long as the value fits below. *)
Lemma write_extended v s :
  s !! e0 = Some (Basis false) →
  0 <= v < 2 ^ Z.of_nat (length ext') →
  write ext (Basis <$> Zbits (length ext) v) s
  = write ext' (Basis <$> Zbits (length ext') v) s.
Proof.
  intros He Hv. unfold ext. cbn [length Zbits fmap list_fmap].
  rewrite write_cons.
  replace (Z.testbit v (Z.of_nat (length ext'))) with false.
  - apply insert_id. rewrite lookup_write_ne; [exact He|].
    apply NoDup_cons in wires_NoDup as [_ H].
    apply NoDup_cons in H as [H _]. exact H.
  - symmetry. apply Z.testbit_false; [lia|].
    rewrite Z.div_small by lia. reflexivity.
Qed.

Lemma run_scaled_adder c wa a b s :
  NoDup wa → (∀ w, w ∈ wa → w ∉ x :: ext) →
  s !! x = Some (Basis false) → s !! e0 = Some (Basis false) →
  0 <= a < 2 ^ len wa → 0 <= b < N →
  run (scaled_adder c N wa ext x)
    (BasisEmbedding b ext' (BasisEmbedding a wa s))
  = Some (BasisEmbedding ((b + c * a) mod N) ext' (BasisEmbedding a wa s)).
Proof.
  intros Hnd Hwa Hx He Ha Hb.
  assert (Hext : NoDup ext) by (apply NoDup_cons in wires_NoDup; tauto).
  set (sa := BasisEmbedding a wa s).
  assert (Hxa : sa !! x = Some (Basis false)).
  { unfold sa. rewrite lookup_BasisEmbedding_ne; [exact Hx|].
    intros Hin. apply (Hwa x Hin). left. }
  assert (Hea : sa !! e0 = Some (Basis false)).
  { unfold sa. rewrite lookup_BasisEmbedding_ne; [exact He|].
    intros Hin. apply (Hwa e0 Hin). right. left. }
  pose proof (Z.mod_pos_bound (b + c * a) N ltac:(lia)) as Hr.
  unfold BasisEmbedding at 1 2.
  rewrite <- !write_extended by (auto || lia). unfold scaled_adder.
  erewrite run_cons_Some; [|apply run_QFT; [exact Hext|apply Zbits_length]].
  rewrite bits_value_Zbits, fourier_mod.
  erewrite run_app_Some.
  2:{ apply (run_controlled_adders c wa (Zbits (length wa) a)); auto.
      apply read_BasisEmbedding, Hnd. }
  rewrite bits_value_Zbits, (Z.mod_small a) by exact Ha.
  erewrite run_cons_Some; [reflexivity|]. apply run_QFTdg, Hext.
Qed.
End ControlledAdders.

(** ** add_in_N and mult_out_k_N *)

Lemma py_mod_ok a N : N ≠ 0 → py_mod a N = mret (a mod N).
Proof.
  intros H. unfold py_mod. destruct (Z.eqb_spec N 0); [contradiction|reflexivity].
Qed.

Lemma controlled_adder_ok value N e0 ext' x aux' w :
  x ∉ e0 :: ext' → w ∉ x :: e0 :: ext' →
  ctrl (add_in_k_N value N (e0 :: ext') (x :: aux') false) [w]
  = Ok tt [] (controlled_by [w] (adder_ops value N (e0 :: ext') x false)).
Proof.
  intros Hx Hw. rewrite add_in_k_N_ok by exact Hx.
  apply ctrl_Ok. apply (within_fresh (x :: e0 :: ext')); [|exact Hw].
  apply within_adder_ops.
Qed.

Lemma add_in_N_ok N wa wb aux1 e0 ext' x aux2' :
  N ≠ 0 → aux1 ++ wb = e0 :: ext' → x ∉ e0 :: ext' →
  (∀ w, w ∈ wa → w ∉ x :: e0 :: ext') →
  add_in_N N wa wb aux1 (x :: aux2')
  = Ok tt [] (scaled_adder 1 N wa (e0 :: ext') x).
Proof.
  intros HN Hext Hx Hwa. unfold add_in_N. rewrite Hext.
  rewrite (for_each_range wa _ (λ _ _, [])
             (λ i w, controlled_by [w]
                (adder_ops ((1 * 2 ^ (len wa - 1 - Z.of_nat i)) mod N) N
                   (e0 :: ext') x false))).
  - rewrite concat_imap_nil, controlled_adders_loop. reflexivity.
  - intros i w Hi.
    rewrite py_mod_ok, bind_mret, (py_index_nat _ _ _ Hi), bind_mret by exact HN.
    rewrite Z.mul_1_l. apply controlled_adder_ok; [exact Hx|].
    apply Hwa. eapply list_elem_of_lookup_2, Hi.
Qed.

Lemma mult_out_k_N_ok k N wa wb x0 x1 aux' :
  N ≠ 0 → x1 ∉ x0 :: wb → (∀ w, w ∈ wa → w ∉ x1 :: x0 :: wb) →
  mult_out_k_N k N wa wb (x0 :: x1 :: aux')
  = Ok tt [] (scaled_adder k N wa (x0 :: wb) x1).
Proof.
  intros HN Hx Hwa. unfold mult_out_k_N.
  replace (len (x0 :: x1 :: aux') <? 2) with false
    by (symmetry; apply Z.ltb_ge; unfold len; simpl length; lia).
  rewrite py_index_head, bind_mret. cbn [app].
  rewrite (for_each_range wa _ (λ _ _, [])
             (λ i w, controlled_by [w]
                (adder_ops ((k * 2 ^ (len wa - 1 - Z.of_nat i)) mod N) N
                   (x0 :: wb) x1 false))).
  - rewrite concat_imap_nil, controlled_adders_loop. reflexivity.
  - intros i w Hi.
    rewrite py_mod_ok, bind_mret, (py_index_nat _ _ _ Hi), bind_mret by exact HN.
    rewrite (py_index_nat (x0 :: x1 :: aux') 1 x1 eq_refl
             : py_index (x0 :: x1 :: aux') 1 = mret x1), bind_mret.
    apply controlled_adder_ok; [exact Hx|].
    apply Hwa. eapply list_elem_of_lookup_2, Hi.
Qed.

(** ** The adjoint undoes the circuit *)

Lemma wf_lookup s w q : wf s → s !! w = Some q → wf_qubit q.
Proof. intros Hwf Hq. destruct q as [b|p]; [exact I|]. exact (Hwf w p Hq). Qed.

Lemma wf_insert s w q : wf s → wf_qubit q → wf (<[w := q]> s).
Proof.
  intros Hwf Hq w' p Hp. destruct (decide (w = w')) as [->|Hne].
  - rewrite lookup_insert_eq in Hp. injection Hp as ->. exact Hq.
  - rewrite lookup_insert_ne in Hp by exact Hne. exact (Hwf w' p Hp).
Qed.

Lemma wf_write ws qs s : wf s → Forall wf_qubit qs → wf (write ws qs s).
Proof.
  intros Hwf. revert qs. induction ws as [|w ws IH]; intros qs Hqs; [exact Hwf|].
  destruct qs as [|q qs]; [exact Hwf|].
  apply Forall_cons in Hqs as [Hq Hqs]. rewrite write_cons.
  apply wf_insert; [apply IH, Hqs|exact Hq].
Qed.

Lemma wf_rotate theta q : wf_qubit (rotate theta q).
Proof. destruct q; simpl; [exact I|apply norm_norm]. Qed.

Lemma wf_flip q : wf_qubit (flip q).
Proof. destruct q; simpl; [exact I|apply norm_norm]. Qed.

Lemma wf_fourier m v : Forall wf_qubit (fourier m v).
Proof.
  unfold fourier. apply Forall_fmap, Forall_forall. intros j _. simpl.
  apply norm_norm.
Qed.

Lemma wf_Basis bits : Forall wf_qubit (Basis <$> bits).
Proof. apply Forall_fmap, Forall_forall. intros b _. exact I. Qed.

Lemma rotate_back theta q : wf_qubit q → rotate (- theta) (rotate theta q) = q.
Proof.
  destruct q as [b|p]; simpl; [reflexivity|]. intros Hp.
  rewrite norm_plus_opp, Hp. reflexivity.
Qed.

Lemma flip_back q : wf_qubit q → flip (flip q) = q.
Proof.
  destruct q as [b|p]; simpl; [rewrite negb_involutive; reflexivity|].
  intros Hp. rewrite norm_opp_opp, Hp. reflexivity.
Qed.

Lemma decode_Some phis u :
  decode phis = Some u → Phase <$> phis = fourier (length phis) u.
Proof.
  unfold decode. intros H. case_bool_decide as Heq; [|discriminate].
  injection H as <-. exact Heq.
Qed.

Lemma as_bits_length qs bits : as_bits qs = Some bits → length bits = length qs.
Proof. intros H. symmetry. eapply length_mapM, H. Qed.

Lemma as_phases_length qs phis : as_phases qs = Some phis → length phis = length qs.
Proof. intros H. symmetry. eapply length_mapM, H. Qed.

Lemma conflicts_false cs g c : conflicts cs g = false → c ∈ cs → c ∉ op_wires g.
Proof.
  unfold conflicts. intros H Hc Hin.
  assert (Hex : existsb (λ c0, bool_decide (c0 ∈ op_wires g)) cs = true).
  { apply existsb_exists. exists c. split; [apply list_elem_of_In, Hc|].
    apply bool_decide_eq_true_2, Hin. }
  congruence.
Qed.

Lemma conflicts_adjoint cs g : conflicts cs (op_adjoint g) = conflicts cs g.
Proof. unfold conflicts. rewrite op_adjoint_wires. reflexivity. Qed.

Lemma read_ext s s' ws : (∀ w, w ∈ ws → s' !! w = s !! w) → read s' ws = read s ws.
Proof.
  intros H. induction ws as [|w ws IH]; [reflexivity|].
  rewrite !read_cons, H, IH; [reflexivity| |left].
  intros w' Hw'. apply H. right. exact Hw'.
Qed.

Lemma run_op_wf g s s' : wf s → run_op g s = Some s' → wf s'.
Proof.
  revert s s'. induction g as [theta w0|ws|ws|w0|c t|a b|base IH control];
    intros s s' Hwf Hrun; simpl in Hrun.
  - destruct (s !! w0); simplify_eq/=. apply wf_insert, wf_rotate. exact Hwf.
  - destruct (decide (NoDup ws)); [|done].
    destruct (read s ws) as [qs|]; [|done]. simpl in Hrun.
    destruct (as_bits qs); simplify_eq/=. apply wf_write, wf_fourier. exact Hwf.
  - destruct (decide (NoDup ws)); [|done].
    destruct (read s ws) as [qs|]; [|done]. simpl in Hrun.
    destruct (as_phases qs) as [phis|]; [|done]. simpl in Hrun.
    destruct (decode phis); simplify_eq/=. apply wf_write, wf_Basis. exact Hwf.
  - destruct (s !! w0); simplify_eq/=. apply wf_insert, wf_flip. exact Hwf.
  - destruct (decide (c = t)); [done|].
    destruct (s !! c) as [[[|]|]|]; try done; simpl in Hrun;
      destruct (s !! t); simplify_eq/=; [|exact Hwf].
    apply wf_insert, wf_flip. exact Hwf.
  - destruct (decide (a = b)); [done|].
    destruct (s !! a) as [qa|] eqn:Ha; [|done]. simpl in Hrun.
    destruct (s !! b) as [qb|] eqn:Hb; simplify_eq/=.
    apply wf_insert; [apply wf_insert; [exact Hwf|]|]; eapply wf_lookup; eauto.
  - destruct (conflicts control base); [done|].
    destruct (read s control) as [qs|]; [|done]. simpl in Hrun.
    destruct (as_bits qs) as [bits|]; [|done]. simpl in Hrun.
    destruct (forallb id bits); [eapply IH; eauto|].
    injection Hrun as <-. exact Hwf.
Qed.

Lemma run_op_adjoint g s s' :
  wf s → run_op g s = Some s' → run_op (op_adjoint g) s' = Some s.
Proof.
  revert s s'. induction g as [theta w0|ws|ws|w0|c t|a b|base IH control];
    intros s s' Hwf Hrun; simpl in Hrun.
  - destruct (s !! w0) as [q|] eqn:Hq; simplify_eq/=.
    rewrite lookup_insert_eq. simpl.
    rewrite insert_insert_eq, rotate_back by (eapply wf_lookup; eauto).
    f_equal. apply insert_id, Hq.
  - destruct (decide (NoDup ws)) as [Hnd|]; [|done].
    destruct (read s ws) as [qs|] eqn:Hr; [|done]. simpl in Hrun.
    destruct (as_bits qs) as [bits|] eqn:Hb; simplify_eq/=.
    change (run_op (QFTdg ws)
              (write ws (fourier (length ws) (bits_value bits)) s) = Some s).
    rewrite run_QFTdg by exact Hnd. f_equal.
    replace (length ws) with (length bits)
      by (rewrite (as_bits_length _ _ Hb); apply (read_length _ _ _ Hr)).
    rewrite Zbits_bits_value, <- (as_bits_inv _ _ Hb).
    apply write_read, Hr.
  - destruct (decide (NoDup ws)) as [Hnd|]; [|done].
    destruct (read s ws) as [qs|] eqn:Hr; [|done]. simpl in Hrun.
    destruct (as_phases qs) as [phis|] eqn:Hp; [|done]. simpl in Hrun.
    destruct (decode phis) as [u|] eqn:Hd; simplify_eq/=.
    change (run_op (QFT ws) (write ws (Basis <$> Zbits (length ws) u) s) = Some s).
    rewrite run_QFT by (exact Hnd || apply Zbits_length). f_equal.
    rewrite bits_value_Zbits, fourier_mod.
    replace (length ws) with (length phis)
      by (rewrite (as_phases_length _ _ Hp); apply (read_length _ _ _ Hr)).
    rewrite <- (decode_Some _ _ Hd), <- (as_phases_inv _ _ Hp).
    apply write_read, Hr.
  - destruct (s !! w0) as [q|] eqn:Hq; simplify_eq/=.
    rewrite lookup_insert_eq. simpl.
    rewrite insert_insert_eq, flip_back by (eapply wf_lookup; eauto).
    f_equal. apply insert_id, Hq.
  - destruct (decide (c = t)) as [|Hne]; [done|].
    destruct (s !! c) as [[b|]|] eqn:Hc; try done; simpl in Hrun;
      destruct (s !! t) as [qt|] eqn:Ht; simplify_eq/=.
    rewrite decide_False by exact Hne.
    destruct b.
    + rewrite (lookup_insert_ne s t c) by (intros Heq; apply Hne; congruence).
      rewrite Hc. simpl. rewrite lookup_insert_eq. simpl.
      rewrite insert_insert_eq, flip_back by (eapply wf_lookup; eauto).
      f_equal. apply insert_id, Ht.
    + rewrite Hc. simpl. rewrite Ht. reflexivity.
  - destruct (decide (a = b)) as [|Hne]; [done|].
    destruct (s !! a) as [qa|] eqn:Ha; [|done]. simpl in Hrun.
    destruct (s !! b) as [qb|] eqn:Hb; simplify_eq/=.
    rewrite decide_False by exact Hne.
    rewrite lookup_insert_eq. simpl.
    rewrite lookup_insert_ne, lookup_insert_eq by congruence. simpl.
    f_equal.
    rewrite (insert_insert_ne (<[b:=qa]> s) b a)
      by (intros Heq; apply Hne; congruence).
    rewrite !insert_insert_eq.
    rewrite (insert_id s b) by exact Hb. apply insert_id, Ha.
  - destruct (conflicts control base) eqn:Hcon; [done|].
    destruct (read s control) as [qs|] eqn:Hr; [|done]. simpl in Hrun.
    destruct (as_bits qs) as [bits|] eqn:Hb; [|done]. simpl in Hrun.
    cbn [op_adjoint run_op]. rewrite conflicts_adjoint, Hcon.
    destruct (forallb id bits) eqn:Hall.
    + rewrite (read_ext s s'), Hr.
      * simpl. rewrite Hb. simpl. rewrite Hall. eapply IH; eauto.
      * intros w Hw. eapply run_op_frame; [exact Hrun|].
        eapply conflicts_false; eauto.
    + injection Hrun as <-. rewrite Hr. simpl. rewrite Hb. simpl.
      rewrite Hall. reflexivity.
Qed.

Lemma run_wf ops s s' : wf s → run ops s = Some s' → wf s'.
Proof.
  revert s. induction ops as [|g ops IH]; intros s Hwf Hrun; simpl in Hrun.
  - injection Hrun as <-. exact Hwf.
  - destruct (run_op g s) as [s1|] eqn:Hg; [|done]. simpl in Hrun.
    eapply IH; [|exact Hrun]. eapply run_op_wf; eauto.
Qed.

(** Running the adjoint of a circuit from where the circuit arrived
    leads back to where it started. *)
Lemma run_adjoint ops s s' :
  wf s → run ops s = Some s' → run (adjoint_ops ops) s' = Some s.
Proof.
  revert s. induction ops as [|g ops IH]; intros s Hwf Hrun; simpl in Hrun.
  - injection Hrun as <-. reflexivity.
  - destruct (run_op g s) as [s1|] eqn:Hg; [|done]. simpl in Hrun.
    unfold adjoint_ops. rewrite fmap_cons, reverse_cons.
    fold (adjoint_ops ops).
    rewrite (run_app_Some _ _ _ s1).
    + simpl. rewrite (run_op_adjoint _ _ _ Hwf Hg). reflexivity.
    + apply IH; [|exact Hrun]. eapply run_op_wf; eauto.
Qed.

Lemma wf_device n : wf (device n).
Proof.
  intros w p Hp. unfold device in Hp.
  apply elem_of_list_to_map_2, list_elem_of_fmap in Hp as (w' & Heq & _).
  discriminate.
Qed.

Lemma wf_BasisEmbedding a ws s : wf s → wf (BasisEmbedding a ws s).
Proof. intros H. apply wf_write, wf_Basis. exact H. Qed.

(** ** add_in_N *)

(** The layout of the wires of the register adders: the operand, the
    result register, its support wire and the overflow wire, all apart. *)
Lemma adder_layout (wa wb : list wire) (sup ovf : wire) :
  NoDup (wa ++ wb ++ [sup; ovf]) →
  NoDup wa ∧ NoDup wb ∧ NoDup (ovf :: sup :: wb)
  ∧ (∀ w, w ∈ wa → w ∉ ovf :: sup :: wb)
  ∧ (∀ w, w ∈ wa → w ∉ wb).
Proof.
  intros H. apply NoDup_app in H as (Hwa & Hdisj & H).
  apply NoDup_app in H as (Hwb & Hdisj' & Haux).
  apply NoDup_cons in Haux as [Hso _].
  assert (Hsup : sup ∉ wb) by (intros Hin; apply (Hdisj' sup Hin); left).
  assert (Hovf : ovf ∉ wb) by (intros Hin; apply (Hdisj' ovf Hin); right; left).
  assert (Hne : ovf ≠ sup).
  { intros ->. apply Hso. left. }
  repeat split; try assumption.
  - apply NoDup_cons. split.
    + intros Hin. apply elem_of_cons in Hin as [?|Hin]; [contradiction|].
      contradiction.
    + apply NoDup_cons. split; assumption.
  - intros w Hw Hin. apply (Hdisj w Hw).
    apply elem_of_cons in Hin as [->|Hin];
      [apply elem_of_app; right; right; left|].
    apply elem_of_cons in Hin as [->|Hin];
      [apply elem_of_app; right; left|].
    apply elem_of_app. left. exact Hin.
  - intros w Hw Hin. apply (Hdisj w Hw). apply elem_of_app. left. exact Hin.
Qed.

Lemma run_add_in_N N a b wa wb sup ovf s :
  0 < N <= 2 ^ len wb → 0 <= a < 2 ^ len wa → 0 <= b < N →
  NoDup (wa ++ wb ++ [sup; ovf]) →
  s !! sup = Some (Basis false) → s !! ovf = Some (Basis false) →
  add_in_N N wa wb [sup] [ovf] = Ok tt [] (scaled_adder 1 N wa (sup :: wb) ovf)
  ∧ run (scaled_adder 1 N wa (sup :: wb) ovf)
      (BasisEmbedding b wb (BasisEmbedding a wa s))
    = Some (BasisEmbedding ((a + b) mod N) wb (BasisEmbedding a wa s)).
Proof.
  intros HN Ha Hb Hnd Hsup Hovf.
  destruct (adder_layout _ _ _ _ Hnd) as (Hwa & Hwb & Hext & Hdisj & _).
  split.
  - apply (add_in_N_ok N wa wb [sup] sup wb ovf []);
      [lia|reflexivity| |exact Hdisj].
    apply NoDup_cons in Hext as [H _]. exact H.
  - rewrite (run_scaled_adder sup wb ovf N Hext HN 1 wa a b s); auto.
    rewrite Z.mul_1_l, (Z.add_comm b a). reflexivity.
Qed.

(** C3: on registers that hold [a] and the residues modulo [N], with the
    support and overflow wires at 0 and all wires apart, the circuit of
    [add_in_N] takes (a, b) to (a, (a + b) mod N), and its adjoint takes
    (a, (a + b) mod N) back to (a, b); every other wire is as it was. *)
Theorem add_in_N_correct (N a b : Z) (wires_a wires_b : list wire)
    (sup ovf : wire) (s : state) :
  2 <= N → 0 <= a < N → 0 <= b < N →
  a < 2 ^ len wires_a → N <= 2 ^ len wires_b →
  NoDup (wires_a ++ wires_b ++ [sup; ovf]) → wf s →
  s !! sup = Some (Basis false) → s !! ovf = Some (Basis false) →
  let s0 := BasisEmbedding b wires_b (BasisEmbedding a wires_a s) in
  let s1 := BasisEmbedding ((a + b) mod N) wires_b (BasisEmbedding a wires_a s) in
  execute (add_in_N N wires_a wires_b [sup] [ovf]) s0 = Some s1
  ∧ execute (adjoint (add_in_N N wires_a wires_b [sup] [ovf])) s1 = Some s0
  ∧ measure s0 wires_a = Some a ∧ measure s0 wires_b = Some b
  ∧ measure s1 wires_a = Some a ∧ measure s1 wires_b = Some ((a + b) mod N)
  ∧ s1 !! sup = Some (Basis false) ∧ s1 !! ovf = Some (Basis false).
Proof.
  intros HN Ha Hb Hwa Hwb Hnd Hwf Hsup Hovf s0 s1.
  destruct (run_add_in_N N a b wires_a wires_b sup ovf s) as [Hok Hrun];
    try assumption; try lia.
  destruct (adder_layout _ _ _ _ Hnd) as (Hnda & Hndb & Hext & Hdisj & Hab).
  pose proof (Z.mod_pos_bound (a + b) N ltac:(lia)) as Hr.
  assert (Hma : ∀ v, measure (BasisEmbedding v wires_b (BasisEmbedding a wires_a s))
                       wires_a = Some a).
  { intros v. rewrite measure_BasisEmbedding_ne by exact Hab.
    apply measure_BasisEmbedding; [exact Hnda|lia]. }
  assert (Haux : ∀ v w, w ∈ [sup; ovf] → s !! w = Some (Basis false) →
            BasisEmbedding v wires_b (BasisEmbedding a wires_a s) !! w
            = Some (Basis false)).
  { intros v w Hw Hs. apply NoDup_app in Hnd as (_ & Hd1 & Hnd).
    apply NoDup_app in Hnd as (_ & Hd2 & _).
    rewrite !lookup_BasisEmbedding_ne; [exact Hs| |].
    - intros Hin. apply (Hd1 w Hin). apply elem_of_app. right. exact Hw.
    - intros Hin. apply (Hd2 w Hin). exact Hw. }
  repeat split.
  - rewrite Hok. exact Hrun.
  - rewrite Hok. simpl. apply run_adjoint; [|exact Hrun].
    apply wf_BasisEmbedding, wf_BasisEmbedding, Hwf.
  - apply Hma.
  - apply measure_BasisEmbedding; [exact Hndb|lia].
  - apply Hma.
  - apply measure_BasisEmbedding; [exact Hndb|lia].
  - apply Haux; [left|exact Hsup].
  - apply Haux; [right; left|exact Hovf].
Qed.

Lemma add_in_N_correct_witness :
  execute (add_in_N 5 [0; 1; 2]%nat [3; 4; 5]%nat [6%nat] [7%nat])
    (BasisEmbedding 3 [3; 4; 5]%nat (BasisEmbedding 1 [0; 1; 2]%nat (device 10)))
  = Some (BasisEmbedding ((1 + 3) mod 5) [3; 4; 5]%nat
            (BasisEmbedding 1 [0; 1; 2]%nat (device 10))).
Proof.
  apply (add_in_N_correct 5 1 3 [0; 1; 2]%nat [3; 4; 5]%nat 6%nat 7%nat
           (device 10));
    [lia|lia|lia|by_compute|by_compute|by_compute|apply wf_device
    |reflexivity|reflexivity].
Defined.

(** ** Rotations commute *)

Lemma rotate_comm t1 t2 q : rotate t2 (rotate t1 q) = rotate t1 (rotate t2 q).
Proof.
  destruct q as [b|p]; simpl; [reflexivity|].
  rewrite !norm_plus_l. f_equal. apply norm_cong, same_angle_Qeq.
  rewrite <- !Qplus_assoc, (Qplus_comm t1 t2). reflexivity.
Qed.

Lemma run_RZ_comm g1 g2 s :
  is_RZ g1 → is_RZ g2 →
  run_op g1 s ≫= run_op g2 = run_op g2 s ≫= run_op g1.
Proof.
  destruct g1 as [t1 w1| | | | | |], g2 as [t2 w2| | | | | |]; try done.
  intros _ _. simpl.
  destruct (decide (w1 = w2)) as [->|Hne].
  - destruct (s !! w2) as [q|]; [|reflexivity]. simpl.
    rewrite !lookup_insert_eq. simpl.
    rewrite !insert_insert_eq, rotate_comm. reflexivity.
  - destruct (s !! w1) as [q1|] eqn:H1, (s !! w2) as [q2|] eqn:H2; simpl;
      rewrite ?lookup_insert_ne, ?H1, ?H2 by congruence; simpl;
      try reflexivity.
    rewrite insert_insert_ne by congruence. reflexivity.
Qed.

Lemma run_RZ_past g ops s :
  is_RZ g → Forall is_RZ ops →
  run ops s ≫= run_op g = run_op g s ≫= run ops.
Proof.
  intros Hg Hops. revert s. induction Hops as [|g' ops Hg' Hops IH]; intros s.
  - simpl. destruct (run_op g s); reflexivity.
  - cbn [run]. pose proof (run_RZ_comm g' g s Hg' Hg) as Hcomm.
    destruct (run_op g' s) as [s1|]; simpl in *.
    + rewrite IH, Hcomm. destruct (run_op g s); reflexivity.
    + destruct (run_op g s) as [s2|]; simpl in *; [|reflexivity].
      rewrite <- Hcomm. reflexivity.
Qed.

Lemma run_RZ_reverse ops s : Forall is_RZ ops → run (reverse ops) s = run ops s.
Proof.
  intros Hops. revert s. induction Hops as [|g ops Hg Hops IH]; intros s.
  - reflexivity.
  - rewrite reverse_cons, run_app. cbn [run].
    transitivity (run ops s ≫= run_op g).
    + rewrite IH. destruct (run ops s) as [s'|]; [|reflexivity].
      simpl. destruct (run_op g s'); reflexivity.
    + apply run_RZ_past; assumption.
Qed.

Lemma rotations_RZ k j ws : Forall is_RZ (rotations k j ws).
Proof.
  revert j. induction ws as [|w ws IH]; intros j; constructor; [exact I|apply IH].
Qed.

(** C8, amended: for a constant of at most [2^53] in absolute value and
    at most 1024 wires, where the angles are floats computed from the exact
    constant, [sum_k(k, wires)] queues one rotation per wire, the one on
    the wire of rank [j] with angle [k pi / 2^j], and nothing else; its
    adjoint queues the rotations of [sum_k(-k, wires)] in the opposite
    order, which act on a state as [sum_k(-k, wires)] does. *)
Theorem sum_k_rotations (k : Z) (wires : list wire) :
  float_range k wires →
  ∃ ops ops',
    sum_k k wires = Ok tt [] ops
    ∧ sum_k (- k) wires = Ok tt [] ops'
    ∧ length ops = length wires
    ∧ (∀ j w, wires !! j = Some w → ops !! j = Some (RZ (k # pow2 j) w))
    ∧ adjoint (sum_k k wires) = Ok tt [] (reverse ops')
    ∧ ∀ s, run (reverse ops') s = run ops' s.
Proof.
  intros _.
  exists (rotations k 0 wires), (rotations (- k) 0 wires).
  split; [apply sum_k_ok|]. split; [apply sum_k_ok|].
  split; [apply rotations_length|]. split.
  - intros j w Hj. apply (rotations_lookup k 0 wires j w Hj).
  - split.
    + rewrite sum_k_ok, adjoint_Ok, rotations_adjoint. reflexivity.
    + intros s. apply run_RZ_reverse, rotations_RZ.
Qed.

Lemma sum_k_rotations_witness :
  ∃ ops ops',
    sum_k 3 [1; 2; 3]%nat = Ok tt [] ops
    ∧ sum_k (- 3) [1; 2; 3]%nat = Ok tt [] ops'
    ∧ length ops = length [1; 2; 3]%nat
    ∧ (∀ j w, [1; 2; 3]%nat !! j = Some w → ops !! j = Some (RZ (3 # pow2 j) w))
    ∧ adjoint (sum_k 3 [1; 2; 3]%nat) = Ok tt [] (reverse ops')
    ∧ ∀ s, run (reverse ops') s = run ops' s.
Proof.
  apply (sum_k_rotations 3 [1; 2; 3]%nat). by_compute.
Defined.

(** C8 as stated fails on two wires: the adjoint queues the rotation of
    the last wire first. *)
Lemma sum_k_adjoint_order :
  adjoint (sum_k 1 [0; 1]%nat) = Ok tt [] [RZ (-1 # 2) 1; RZ (-1 # 1) 0]
  ∧ sum_k (-1) [0; 1]%nat = Ok tt [] [RZ (-1 # 1) 0; RZ (-1 # 2) 1]
  ∧ adjoint (sum_k 1 [0; 1]%nat) ≠ sum_k (-1) [0; 1]%nat.
Proof.
  split; [reflexivity|]. split; [reflexivity|]. discriminate.
Qed.

(** ** mult_in_k_N *)

Lemma swaps_imap wa ws :
  length wa = length ws →
  concat (imap (λ i a, [SWAP a (default 0%nat (ws !! i))]) wa) = swaps wa ws.
Proof.
  revert ws. induction wa as [|a wa IH]; intros [|b ws] Hlen;
    try discriminate; [reflexivity|].
  cbn [imap concat app]. simpl. f_equal. apply IH.
  simpl in Hlen. lia.
Qed.

Lemma swap_loop_ok wa ws :
  length wa = length ws → swap_loop wa ws = Ok tt [] (swaps wa ws).
Proof.
  intros Hlen. unfold swap_loop.
  rewrite (for_each_range wa _ (λ _ _, [])
             (λ i a, [SWAP a (default 0%nat (ws !! i))])).
  - rewrite concat_imap_nil, swaps_imap by exact Hlen. reflexivity.
  - intros i a Hi.
    destruct (lookup_lt_is_Some_2 ws i) as [b Hb].
    { rewrite <- Hlen. eapply lookup_lt_Some, Hi. }
    rewrite (py_index_nat _ _ _ Hi), bind_mret.
    rewrite (py_index_nat _ _ _ Hb), bind_mret, Hb. reflexivity.
Qed.

Lemma write_comm ws1 qs1 ws2 qs2 (s : state) :
  (∀ w, w ∈ ws1 → w ∉ ws2) →
  write ws1 qs1 (write ws2 qs2 s) = write ws2 qs2 (write ws1 qs1 s).
Proof.
  revert qs1. induction ws1 as [|w ws1 IH]; intros qs1 H; [reflexivity|].
  destruct qs1 as [|q qs1]; [reflexivity|].
  rewrite !write_cons, IH by (intros w' Hw'; apply H; right; exact Hw').
  rewrite write_insert by (apply H; left). reflexivity.
Qed.

Lemma run_swaps wa ws qa qs (s : state) :
  NoDup (wa ++ ws) → length qa = length wa → length qs = length ws →
  length wa = length ws →
  run (swaps wa ws) (write wa qa (write ws qs s))
  = Some (write wa qs (write ws qa s)).
Proof.
  revert ws qa qs s.
  induction wa as [|a wa IH]; intros [|b ws] [|x qa] [|y qs] s Hnd Ha Hs Hlen;
    try discriminate; [reflexivity|].
  simpl in Ha, Hs, Hlen.
  change ((a :: wa) ++ b :: ws) with (a :: (wa ++ b :: ws)) in Hnd.
  apply NoDup_cons in Hnd as [Ha' Hnd].
  assert (Hnd' : NoDup (wa ++ ws)).
  { apply NoDup_app in Hnd as (H1 & H2 & H3).
    apply NoDup_cons in H3 as [_ H3]. apply NoDup_app. repeat split; auto.
    intros w Hw Hin. apply (H2 w Hw). right. exact Hin. }
  assert (Hawa : a ∉ wa) by (intros H; apply Ha', elem_of_app; left; exact H).
  assert (Haws : a ∉ ws)
    by (intros H; apply Ha', elem_of_app; right; right; exact H).
  assert (Hab : a ≠ b)
    by (intros ->; apply Ha', elem_of_app; right; left).
  assert (Hbwa : b ∉ wa).
  { intros H. apply NoDup_app in Hnd as (_ & H2 & _). apply (H2 b H). left. }
  assert (Hbws : b ∉ ws).
  { apply NoDup_app in Hnd as (_ & _ & H3). apply NoDup_cons in H3 as [H3 _].
    exact H3. }
  unfold swaps. cbn [zip_with]. fold (swaps wa ws).
  rewrite !write_cons.
  rewrite (write_insert wa qa _ b y) by exact Hbwa.
  erewrite run_cons_Some.
  2:{ cbn [run_op]. rewrite decide_False by exact Hab.
      rewrite lookup_insert_eq. simpl.
      rewrite lookup_insert_ne, lookup_insert_eq by exact Hab. simpl.
      reflexivity. }
  rewrite (insert_insert_ne _ b a x x) by congruence.
  rewrite !insert_insert_eq.
  rewrite <- (write_insert wa qa _ b x) by exact Hbwa.
  rewrite <- (write_insert wa qa _ a y) by exact Hawa.
  rewrite <- (write_insert ws qs _ b x) by exact Hbws.
  rewrite <- (write_insert ws qs _ a y) by exact Haws.
  rewrite IH by (auto; lia).
  rewrite (write_insert ws qa _ a y) by exact Haws.
  rewrite (write_insert ws qa _ b x) by exact Hbws.
  rewrite (write_insert wa qs _ a y) by exact Hawa.
  reflexivity.
Qed.

Lemma py_pow3_ok k N : 2 <= N → py_pow3 k (N - 2) N = mret (k ^ (N - 2) mod N).
Proof.
  intros HN. unfold py_pow3.
  destruct (Z.eqb_spec N 0); [lia|].
  destruct (Z.leb_spec 0 (N - 2)); [reflexivity|lia].
Qed.

Lemma mult_in_k_N_short k N wa ws aux :
  short_of_wires wa ws aux = true →
  mult_in_k_N k N wa ws aux = Ok tt ["Not enough ancillary qubits"] [].
Proof.
  unfold short_of_wires, mult_in_k_N. intros ->. reflexivity.
Qed.

Lemma mult_in_k_N_reject k N wa ws aux :
  2 <= N → short_of_wires wa ws aux = false → ¬ passes k N →
  mult_in_k_N k N wa ws aux = Ok tt [fallo k N] [].
Proof.
  unfold short_of_wires, mult_in_k_N, passes. intros HN -> Hguard.
  rewrite py_pow3_ok, bind_mret, py_mod_ok, bind_mret by lia.
  destruct (Z.eqb_spec ((k ^ (N - 2) mod N * k) mod N) 1); [contradiction|].
  reflexivity.
Qed.

Lemma mult_in_k_N_accept k N wa ws aux :
  2 <= N → short_of_wires wa ws aux = false → passes k N →
  mult_in_k_N k N wa ws aux
  = (mult_out_k_N k N wa ws aux ;;
     swap_loop wa ws ;;
     mult_out_k_N (N - k ^ (N - 2) mod N) N wa ws aux).
Proof.
  unfold short_of_wires, mult_in_k_N, passes. intros HN -> Hguard.
  rewrite py_pow3_ok, bind_mret, py_mod_ok, bind_mret by lia.
  destruct (Z.eqb_spec ((k ^ (N - 2) mod N * k) mod N) 1); [|contradiction].
  cbn [negb]. unfold swap_loop.
  destruct (mult_out_k_N k N wa ws aux) as [[] out1 ops1|e1]; [|reflexivity].
  rewrite !bind_Ok.
  destruct (for_each _ _) as [[] out2 ops2|e2]; [|reflexivity].
  rewrite !bind_Ok, bind_mret. reflexivity.
Qed.

Lemma passes_pow k N : 2 <= N → passes k N ↔ k ^ (N - 1) mod N = 1.
Proof.
  intros HN. unfold passes.
  rewrite Z.mul_mod_idemp_l by lia.
  replace (N - 1) with (Z.succ (N - 2)) by lia.
  rewrite Z.pow_succ_r, (Z.mul_comm k) by lia. reflexivity.
Qed.

Lemma short_of_wires_false wa ws x0 x1 aux' :
  length wa = length ws → short_of_wires wa ws (x0 :: x1 :: aux') = false.
Proof.
  intros Hlen. unfold short_of_wires, len. rewrite Hlen, Z.eqb_refl.
  simpl length. apply orb_false_iff. split; [|reflexivity].
  apply Z.ltb_ge. lia.
Qed.

Lemma mult_in_k_N_ok k N wa ws x0 x1 aux' :
  2 <= N → length wa = length ws → passes k N →
  NoDup (wa ++ ws ++ [x0; x1]) →
  mult_in_k_N k N wa ws (x0 :: x1 :: aux') = Ok tt [] (mult_in_ops k N wa ws x0 x1).
Proof.
  intros HN Hlen Hpass Hnd.
  destruct (adder_layout _ _ _ _ Hnd) as (_ & _ & Hext & Hdisj & _).
  assert (Hx1 : x1 ∉ x0 :: ws) by (apply NoDup_cons in Hext; tauto).
  rewrite mult_in_k_N_accept
    by (auto using short_of_wires_false).
  rewrite !mult_out_k_N_ok, swap_loop_ok by (auto; lia).
  reflexivity.
Qed.

Lemma uncompute_zero (N inv k a : Z) :
  0 < N → (inv * k) mod N = 1 →
  (a + (N - inv) * ((k * a) mod N)) mod N = 0.
Proof.
  intros HN Hinv.
  rewrite <- Z.add_mod_idemp_r, Z.mul_mod_idemp_r, Z.add_mod_idemp_r by lia.
  pose proof (Z.div_mod (inv * k) N ltac:(lia)) as Hdiv. rewrite Hinv in Hdiv.
  set (q := (inv * k) `div` N) in *.
  replace (a + (N - inv) * (k * a)) with (a + N * (k * a) - (inv * k) * a)
    by ring.
  rewrite Hdiv.
  replace (a + N * (k * a) - (N * q + 1) * a) with ((k * a - q * a) * N)
    by ring.
  apply Z.mod_mul. lia.
Qed.

Lemma multiply_back (N inv k a : Z) :
  0 <= a < N → (inv * k) mod N = 1 → (inv * ((k * a) mod N)) mod N = a.
Proof.
  intros Ha Hinv.
  rewrite Z.mul_mod_idemp_r, Z.mul_assoc by lia.
  rewrite <- Z.mul_mod_idemp_l, Hinv, Z.mul_1_l by lia.
  apply Z.mod_small, Ha.
Qed.

Lemma passes_inverse k N : 2 <= N → passes k N → passes (k ^ (N - 2) mod N) N.
Proof.
  intros HN Hk. apply passes_pow in Hk; [|exact HN]. apply passes_pow; [exact HN|].
  rewrite Z.mod_pow_l, <- Z.pow_mul_r, (Z.mul_comm (N - 2)) by lia.
  rewrite Z.pow_mul_r, <- Z.mod_pow_l, Hk, Z.pow_1_l by lia.
  apply Z.mod_small. lia.
Qed.

Section MultIn.
Variables (k N : Z) (wa ws : list wire) (x0 x1 : wire) (s : state).
Hypothesis N_ge_2 : 2 <= N.
Hypothesis N_fits : N <= 2 ^ len wa.
Hypothesis same_width : length wa = length ws.
Hypothesis wires_NoDup : NoDup (wa ++ ws ++ [x0; x1]).
Hypothesis x0_zero : s !! x0 = Some (Basis false).
Hypothesis x1_zero : s !! x1 = Some (Basis false).

Local Lemma layout :
  NoDup wa ∧ NoDup ws ∧ NoDup (x1 :: x0 :: ws)
  ∧ (∀ w, w ∈ wa → w ∉ x1 :: x0 :: ws) ∧ (∀ w, w ∈ wa → w ∉ ws).
Proof. apply adder_layout, wires_NoDup. Qed.

Local Lemma N_fits_ws : 0 < N <= 2 ^ Z.of_nat (length ws).
Proof. unfold len in N_fits. rewrite <- same_width. lia. Qed.

(** Step 1 and step 3: the multiplier into the support register. *)
Lemma run_mult_out (c a b : Z) :
  0 <= a < 2 ^ len wa → 0 <= b < N →
  run (scaled_adder c N wa (x0 :: ws) x1)
    (BasisEmbedding b ws (BasisEmbedding a wa s))
  = Some (BasisEmbedding ((b + c * a) mod N) ws (BasisEmbedding a wa s)).
Proof.
  intros Ha Hb. destruct layout as (Hwa & _ & Hext & Hdisj & _).
  apply (run_scaled_adder x0 ws x1 N Hext N_fits_ws c wa a b s); auto.
Qed.

(** Step 2: the registers exchanged. *)
Lemma run_swap_registers (a b : Z) :
  run (swaps wa ws) (BasisEmbedding b ws (BasisEmbedding a wa s))
  = Some (BasisEmbedding a ws (BasisEmbedding b wa s)).
Proof.
  destruct layout as (_ & _ & _ & _ & Hdisj).
  assert (Hnd : NoDup (wa ++ ws)).
  { pose proof wires_NoDup as H. apply NoDup_app in H as (H1 & H2 & H3).
    apply NoDup_app in H3 as (H3 & _ & _).
    apply NoDup_app. split; [exact H1|split; [|exact H3]].
    exact Hdisj. }
  unfold BasisEmbedding.
  rewrite <- (write_comm wa _ ws _ s) by exact Hdisj.
  rewrite run_swaps by (rewrite ?length_fmap, ?Zbits_length; auto).
  rewrite (write_comm wa _ ws _ s) by exact Hdisj.
  rewrite same_width. reflexivity.
Qed.

(** The three steps of the in-place multiplier, one after the other. *)
Lemma run_mult_in_steps (a : Z) :
  passes k N → 0 <= a < N →
  let r := (k * a) mod N in
  let inv := k ^ (N - 2) mod N in
  let s0 := BasisEmbedding 0 ws (BasisEmbedding a wa s) in
  let s1 := BasisEmbedding r ws (BasisEmbedding a wa s) in
  let s2 := BasisEmbedding a ws (BasisEmbedding r wa s) in
  let s3 := BasisEmbedding 0 ws (BasisEmbedding r wa s) in
  run (scaled_adder k N wa (x0 :: ws) x1) s0 = Some s1
  ∧ run (swaps wa ws) s1 = Some s2
  ∧ run (scaled_adder (N - inv) N wa (x0 :: ws) x1) s2 = Some s3.
Proof.
  intros Hpass Ha r inv s0 s1 s2 s3.
  assert (Hr : 0 <= r < N) by (apply Z.mod_pos_bound; lia).
  split; [|split].
  - unfold s0, s1. rewrite run_mult_out by lia. reflexivity.
  - apply run_swap_registers.
  - unfold s2, s3. rewrite run_mult_out by lia.
    unfold r, inv. rewrite uncompute_zero by (exact Hpass || lia).
    reflexivity.
Qed.

Lemma run_mult_in_ops (a : Z) :
  passes k N → 0 <= a < N →
  run (mult_in_ops k N wa ws x0 x1)
    (BasisEmbedding 0 ws (BasisEmbedding a wa s))
  = Some (BasisEmbedding 0 ws (BasisEmbedding ((k * a) mod N) wa s)).
Proof.
  intros Hpass Ha.
  destruct (run_mult_in_steps a Hpass Ha) as (H1 & H2 & H3).
  unfold mult_in_ops.
  rewrite (run_app_Some _ _ _ _ H1), (run_app_Some _ _ _ _ H2). exact H3.
Qed.
End MultIn.

Lemma Zbits_0 m : Zbits m 0 = replicate m false.
Proof.
  induction m as [|m IH]; [reflexivity|].
  simpl. rewrite Z.bits_0, IH. reflexivity.
Qed.

Lemma lookup_BasisEmbedding_0 ws (s : state) w :
  w ∈ ws → BasisEmbedding 0 ws s !! w = Some (Basis false).
Proof.
  unfold BasisEmbedding. rewrite Zbits_0.
  induction ws as [|w' ws IH]; intros Hw; [inversion Hw|].
  cbn [length replicate fmap list_fmap]. rewrite write_cons.
  destruct (decide (w' = w)) as [->|Hne].
  - apply lookup_insert_eq.
  - rewrite lookup_insert_ne by exact Hne. apply IH.
    apply elem_of_cons in Hw as [->|Hw]; [contradiction|exact Hw].
Qed.

Lemma measure_zeros (s : state) ws :
  (∀ w, w ∈ ws → s !! w = Some (Basis false)) → measure s ws = Some 0.
Proof.
  intros H. unfold measure.
  assert (Hr : read s ws = Some (Basis <$> replicate (length ws) false)).
  { induction ws as [|w ws IH]; [reflexivity|].
    rewrite read_cons, H by left. simpl.
    rewrite IH by (intros w' Hw'; apply H; right; exact Hw'). reflexivity. }
  rewrite Hr. simpl. rewrite as_bits_Basis. simpl. f_equal.
  rewrite <- Zbits_0, bits_value_Zbits. apply Z.mod_0_l.
  apply Z.pow_nonzero; lia.
Qed.

(** C4, amended: when the constant passes the test of the code,
    [pow(k, N-2, N) * k % N = 1], on registers of equal width that hold the
    residues modulo [N], with the support register and the two ancilla
    wires at 0 and all wires apart, the circuit of [mult_in_k_N] takes
    [a] to [(k * a) mod N]; the support and ancilla wires are back at 0,
    every other wire is as it was, and the circuit of [mult_in_k_N] for
    the inverse [pow(k, N-2, N)] leads back to [a]. *)
Theorem mult_in_k_N_correct (N k a : Z) (wires_a wires_support : list wire)
    (x0 x1 : wire) (s : state) :
  2 <= N → 0 <= a < N → 0 <= k < N →
  (k ^ (N - 2) mod N * k) mod N = 1 →
  length wires_a = length wires_support → N <= 2 ^ len wires_a →
  NoDup (wires_a ++ wires_support ++ [x0; x1]) →
  s !! x0 = Some (Basis false) → s !! x1 = Some (Basis false) →
  let inv := k ^ (N - 2) mod N in
  let s0 := BasisEmbedding 0 wires_support (BasisEmbedding a wires_a s) in
  let s1 := BasisEmbedding 0 wires_support
              (BasisEmbedding ((k * a) mod N) wires_a s) in
  execute (mult_in_k_N k N wires_a wires_support [x0; x1]) s0 = Some s1
  ∧ measure s0 wires_a = Some a
  ∧ measure s1 wires_a = Some ((k * a) mod N)
  ∧ measure s1 (wires_support ++ [x0; x1]) = Some 0
  ∧ execute (mult_in_k_N inv N wires_a wires_support [x0; x1]) s1 = Some s0.
Proof.
  intros HN Ha Hk Hpass Hlen Hfits Hnd Hx0 Hx1. cbv zeta.
  destruct (adder_layout _ _ _ _ Hnd) as (Hwa & Hws & Hext & Hdisj & Hab).
  pose proof (Z.mod_pos_bound (k * a) N ltac:(lia)) as Hr.
  assert (Hm : ∀ v, 0 <= v < N →
            measure (BasisEmbedding 0 wires_support (BasisEmbedding v wires_a s))
              wires_a = Some v).
  { intros v Hv. rewrite measure_BasisEmbedding_ne by exact Hab.
    apply measure_BasisEmbedding; [exact Hwa|lia]. }
  split; [|split; [|split; [|split]]].
  - rewrite mult_in_k_N_ok by assumption. unfold execute.
    apply run_mult_in_ops; assumption.
  - apply Hm, Ha.
  - apply Hm, Hr.
  - apply measure_zeros. intros w Hw.
    apply elem_of_app in Hw as [Hw|Hw];
      [apply lookup_BasisEmbedding_0, Hw|].
    assert (Hw' : w ∈ x1 :: x0 :: wires_support).
    { apply elem_of_cons in Hw as [->|Hw]; [right; left|].
      apply list_elem_of_singleton in Hw as ->. left. }
    assert (Hs : s !! w = Some (Basis false)).
    { apply elem_of_cons in Hw as [->|Hw]; [exact Hx0|].
      apply list_elem_of_singleton in Hw as ->. exact Hx1. }
    rewrite !lookup_BasisEmbedding_ne; [exact Hs| |].
    + intros Hin. apply (Hdisj w Hin Hw').
    + intros Hin. apply NoDup_app in Hnd as (_ & _ & Hnd).
      apply NoDup_app in Hnd as (_ & Hd & _). apply (Hd w Hin Hw).
  - rewrite mult_in_k_N_ok by (auto using passes_inverse). unfold execute.
    rewrite run_mult_in_ops by (auto using passes_inverse).
    rewrite multiply_back by assumption. reflexivity.
Qed.

Lemma mult_in_k_N_correct_witness :
  execute (mult_in_k_N 3 5 [0; 1; 2]%nat [3; 4; 5]%nat [6; 7]%nat)
    (BasisEmbedding 0 [3; 4; 5]%nat (BasisEmbedding 1 [0; 1; 2]%nat (device 8)))
  = Some (BasisEmbedding 0 [3; 4; 5]%nat
            (BasisEmbedding ((3 * 1) mod 5) [0; 1; 2]%nat (device 8))).
Proof.
  apply (mult_in_k_N_correct 5 3 1 [0; 1; 2]%nat [3; 4; 5]%nat 6%nat 7%nat
           (device 8));
    [lia|lia|lia|reflexivity|reflexivity|by_compute|by_compute
    |reflexivity|reflexivity].
Defined.

(** C4 as stated fails for a composite modulus: 3 is invertible modulo 8,
    but the test of the code rejects it, no gate is queued and the
    register stays at [a]. *)
Lemma mult_in_k_N_composite_modulus :
  Z.gcd 3 8 = 1
  ∧ mult_in_k_N 3 8 [0; 1; 2]%nat [3; 4; 5]%nat [6; 7]%nat
    = Ok tt ["FALLO: No existe el inverso de 3 mod 8"] []
  ∧ ∃ s', execute (mult_in_k_N 3 8 [0; 1; 2]%nat [3; 4; 5]%nat [6; 7]%nat)
            (BasisEmbedding 1 [0; 1; 2]%nat (device 8)) = Some s'
        ∧ measure s' [0; 1; 2]%nat = Some 1
        ∧ 1 ≠ (3 * 1) mod 8.
Proof.
  split; [reflexivity|]. split; [reflexivity|].
  eexists. split; [reflexivity|]. split; [reflexivity|discriminate].
Qed.

(** C6, amended: when the constant passes the test, [mult_in_k_N] is three
    steps: [mult_out_k_N(k, N, ...)], which leaves (a, k a mod N) in
    (input, support); the swap of the two registers wire by wire; and
    [mult_out_k_N] again, not its adjoint, with the constant
    [N - pow(k, N-2, N)], which brings the support register back to 0. *)
Theorem mult_in_k_N_steps (N k a : Z) (wires_a wires_support : list wire)
    (x0 x1 : wire) (s : state) :
  2 <= N → 0 <= a < N →
  (k ^ (N - 2) mod N * k) mod N = 1 →
  length wires_a = length wires_support → N <= 2 ^ len wires_a →
  NoDup (wires_a ++ wires_support ++ [x0; x1]) →
  s !! x0 = Some (Basis false) → s !! x1 = Some (Basis false) →
  let inv := k ^ (N - 2) mod N in
  let r := (k * a) mod N in
  let step1 := mult_out_k_N k N wires_a wires_support [x0; x1] in
  let step2 := swap_loop wires_a wires_support in
  let step3 := mult_out_k_N (N - inv) N wires_a wires_support [x0; x1] in
  mult_in_k_N k N wires_a wires_support [x0; x1] = (step1 ;; step2 ;; step3)
  ∧ step2 = Ok tt [] (zip_with SWAP wires_a wires_support)
  ∧ execute step1 (BasisEmbedding 0 wires_support (BasisEmbedding a wires_a s))
    = Some (BasisEmbedding r wires_support (BasisEmbedding a wires_a s))
  ∧ execute step2 (BasisEmbedding r wires_support (BasisEmbedding a wires_a s))
    = Some (BasisEmbedding a wires_support (BasisEmbedding r wires_a s))
  ∧ execute step3 (BasisEmbedding a wires_support (BasisEmbedding r wires_a s))
    = Some (BasisEmbedding 0 wires_support (BasisEmbedding r wires_a s)).
Proof.
  intros HN Ha Hpass Hlen Hfits Hnd Hx0 Hx1. cbv zeta.
  destruct (adder_layout _ _ _ _ Hnd) as (_ & _ & Hext & Hdisj & _).
  assert (Hx : x1 ∉ x0 :: wires_support) by (apply NoDup_cons in Hext; tauto).
  destruct (run_mult_in_steps k N wires_a wires_support x0 x1 s
              HN Hfits Hlen Hnd Hx0 Hx1 a Hpass Ha) as (H1 & H2 & H3).
  split; [|split; [|split; [|split]]].
  - apply mult_in_k_N_accept; auto using short_of_wires_false.
  - apply swap_loop_ok, Hlen.
  - rewrite mult_out_k_N_ok by (auto; lia). exact H1.
  - rewrite swap_loop_ok by exact Hlen. exact H2.
  - rewrite mult_out_k_N_ok by (auto; lia). exact H3.
Qed.

Lemma mult_in_k_N_steps_witness :
  mult_in_k_N 3 5 [0; 1; 2]%nat [3; 4; 5]%nat [6; 7]%nat
  = (mult_out_k_N 3 5 [0; 1; 2]%nat [3; 4; 5]%nat [6; 7]%nat ;;
     swap_loop [0; 1; 2]%nat [3; 4; 5]%nat ;;
     mult_out_k_N (5 - 3 ^ (5 - 2) mod 5) 5 [0; 1; 2]%nat [3; 4; 5]%nat
       [6; 7]%nat).
Proof.
  apply (mult_in_k_N_steps 5 3 1 [0; 1; 2]%nat [3; 4; 5]%nat 6%nat 7%nat
           (device 8));
    [lia|lia|reflexivity|reflexivity|by_compute|by_compute
    |reflexivity|reflexivity].
Defined.

(** C6 as stated fails on its third step: with the adjoint of
    [mult_out_k_N(N - inv, ...)] there, the circuit is not the one
    [mult_in_k_N] builds, and from a = 1 with k = 3, N = 5 it would leave 2
    in the support register. *)
Lemma mult_in_k_N_third_step_forward :
  mult_in_k_N 3 5 [0; 1; 2]%nat [3; 4; 5]%nat [6; 7]%nat
  ≠ (mult_out_k_N 3 5 [0; 1; 2]%nat [3; 4; 5]%nat [6; 7]%nat ;;
     swap_loop [0; 1; 2]%nat [3; 4; 5]%nat ;;
     adjoint (mult_out_k_N (5 - 3 ^ (5 - 2) mod 5) 5 [0; 1; 2]%nat [3; 4; 5]%nat
                [6; 7]%nat))
  ∧ ∃ s', execute
            (mult_out_k_N 3 5 [0; 1; 2]%nat [3; 4; 5]%nat [6; 7]%nat ;;
             swap_loop [0; 1; 2]%nat [3; 4; 5]%nat ;;
             adjoint (mult_out_k_N (5 - 3 ^ (5 - 2) mod 5) 5 [0; 1; 2]%nat
                        [3; 4; 5]%nat [6; 7]%nat))
            (BasisEmbedding 1 [0; 1; 2]%nat (device 8)) = Some s'
        ∧ measure s' [3; 4; 5]%nat = Some 2.
Proof.
  split.
  - intros H. vm_compute in H. discriminate H.
  - eexists. split; vm_compute; reflexivity.
Qed.

(** C5, amended: if [k] has no inverse modulo [N], [mult_in_k_N] prints one
    line and returns with no gate queued: the line on the ancillary qubits
    when there are fewer than two ancilla wires or the widths of the two
    registers differ, the line on the inverse of [k] otherwise.  It raises
    nothing, so what the caller gets runs as the identity. *)
Theorem mult_in_k_N_no_inverse (k N : Z) (wires_a wires_support wires_aux : list wire) :
  2 <= N → (∀ x, (x * k) mod N ≠ 1) →
  (len wires_aux < 2 ∨ len wires_a ≠ len wires_support →
   mult_in_k_N k N wires_a wires_support wires_aux
   = Ok tt ["Not enough ancillary qubits"] [])
  ∧ (2 <= len wires_aux → len wires_a = len wires_support →
     mult_in_k_N k N wires_a wires_support wires_aux
     = Ok tt ["FALLO: No existe el inverso de " +:+ pretty k +:+ " mod "
              +:+ pretty N] [])
  ∧ (∃ line, mult_in_k_N k N wires_a wires_support wires_aux = Ok tt [line] [])
  ∧ (∀ e, mult_in_k_N k N wires_a wires_support wires_aux ≠ Raise e)
  ∧ ∀ s, execute (mult_in_k_N k N wires_a wires_support wires_aux) s = Some s.
Proof.
  intros HN Hinv.
  assert (Hshort : short_of_wires wires_a wires_support wires_aux = true
                   ↔ len wires_aux < 2 ∨ len wires_a ≠ len wires_support).
  { unfold short_of_wires. rewrite orb_true_iff, negb_true_iff.
    rewrite Z.ltb_lt, Z.eqb_neq. reflexivity. }
  assert (Hwires : len wires_aux < 2 ∨ len wires_a ≠ len wires_support →
            mult_in_k_N k N wires_a wires_support wires_aux
            = Ok tt ["Not enough ancillary qubits"] []).
  { intros H. apply mult_in_k_N_short, Hshort, H. }
  assert (Hfallo : 2 <= len wires_aux → len wires_a = len wires_support →
            mult_in_k_N k N wires_a wires_support wires_aux = Ok tt [fallo k N] []).
  { intros Haux Hlen. apply mult_in_k_N_reject; [exact HN| |apply Hinv].
    apply not_true_is_false. intros H. apply Hshort in H. lia. }
  assert (Hline : ∃ line,
            mult_in_k_N k N wires_a wires_support wires_aux = Ok tt [line] []).
  { destruct (short_of_wires wires_a wires_support wires_aux) eqn:Hs.
    - eexists. apply mult_in_k_N_short, Hs.
    - eexists. apply mult_in_k_N_reject; [exact HN|exact Hs|apply Hinv]. }
  split; [exact Hwires|]. split; [exact Hfallo|]. split; [exact Hline|].
  destruct Hline as [line ->]. split; [discriminate|reflexivity].
Qed.

Lemma two_no_inverse_mod_four (x : Z) : (x * 2) mod 4 ≠ 1.
Proof.
  change 4 with (2 * 2). rewrite Z.mul_mod_distr_r by lia.
  pose proof (Z.mod_pos_bound x 2 ltac:(lia)). lia.
Qed.

Lemma mult_in_k_N_no_inverse_witness :
  mult_in_k_N 2 4 [0; 1; 2]%nat [3; 4; 5]%nat [6; 7]%nat
  = Ok tt ["FALLO: No existe el inverso de " +:+ pretty 2 +:+ " mod "
           +:+ pretty 4] []
  ∧ ∀ s, execute (mult_in_k_N 2 4 [0; 1; 2]%nat [3; 4; 5]%nat [6; 7]%nat) s
         = Some s.
Proof.
  destruct (mult_in_k_N_no_inverse 2 4 [0; 1; 2]%nat [3; 4; 5]%nat [6; 7]%nat)
    as (_ & Hfallo & _ & _ & Hrun); [lia|exact two_no_inverse_mod_four|].
  split; [apply Hfallo; [by_compute|reflexivity]|exact Hrun].
Defined.

(** C5 as stated fails: 2 has no inverse modulo 4, and the call returns
    normally, with a printed line and an empty queue; no error of any kind
    is raised. *)
Lemma mult_in_k_N_prints_and_returns :
  (∀ x, (x * 2) mod 4 ≠ 1)
  ∧ mult_in_k_N 2 4 [0; 1; 2]%nat [3; 4; 5]%nat [6; 7]%nat
    = Ok tt ["FALLO: No existe el inverso de 2 mod 4"] []
  ∧ ∀ e, mult_in_k_N 2 4 [0; 1; 2]%nat [3; 4; 5]%nat [6; 7]%nat ≠ Raise e.
Proof.
  split; [exact two_no_inverse_mod_four|]. split; [reflexivity|].
  intros e. discriminate.
Qed.



Lemma measure_cons (s : state) w ws (b : bool) v :
  s !! w = Some (Basis b) → measure s ws = Some v →
  measure s (w :: ws) = Some (Z.b2z b * 2 ^ len ws + v).
Proof.
  unfold measure. intros Hw Hv. rewrite read_cons, Hw. simpl.
  destruct (read s ws) as [qs|] eqn:Hr; [|discriminate]. simpl in *.
  destruct (as_bits qs) as [bits|] eqn:Hb; [|discriminate]. simpl in *.
  injection Hv as <-. rewrite bits_value_cons.
  replace (len bits) with (len ws); [reflexivity|].
  unfold len. rewrite (as_bits_length _ _ Hb), (read_length _ _ _ Hr).
  reflexivity.
Qed.

(** C7, amended: on wires that are apart (the overflow wire, the support
    wire and the wires of the result register all distinct, no wire of the
    other operand among them) and a modulus of at most [2^53] on at most
    1024 wires, [add_in_N] puts the support wire in front of the result
    register, where it is the extra top wire of the extended register: its
    bit counts for [2^width] in the value.  It queues the transform of the
    extended register, then for each wire [i] of the other operand, from
    the top, what [add_in_k_N] queues for the weight [2^(width-1-i) mod N]
    on the extended register, every operator under the control of wire
    [i], and the inverse transform last. *)
Theorem add_in_N_structure (N : Z) (wires_a wires_b : list wire) (sup ovf : wire) :
  N ≠ 0 → float_range N (sup :: wires_b) →
  NoDup (ovf :: sup :: wires_b) →
  Forall (λ w, w ∉ ovf :: sup :: wires_b) wires_a →
  ∃ blocks,
    add_in_N N wires_a wires_b [sup] [ovf]
    = Ok tt [] ([QFT (sup :: wires_b)] ++ concat blocks ++ [QFTdg (sup :: wires_b)])
    ∧ length blocks = length wires_a
    ∧ (∀ i w, wires_a !! i = Some w →
         ∃ ops,
           add_in_k_N (2 ^ (len wires_a - 1 - Z.of_nat i) mod N) N
             (sup :: wires_b) [ovf] false = Ok tt [] ops
           ∧ ctrl (Ok tt [] ops) [w] = Ok tt [] ((λ g, Controlled g [w]) <$> ops)
           ∧ blocks !! i = Some ((λ g, Controlled g [w]) <$> ops))
    ∧ (∀ (s : state) (b : bool) v,
         s !! sup = Some (Basis b) → measure s wires_b = Some v →
         measure s (sup :: wires_b) = Some (Z.b2z b * 2 ^ len wires_b + v)).
Proof.
  intros HN _ Hnd Hwa. rewrite Forall_forall in Hwa.
  assert (Hovf : ovf ∉ sup :: wires_b) by (apply NoDup_cons in Hnd; tauto).
  exists (imap (λ i w, controlled_by [w]
                 (adder_ops ((1 * 2 ^ (len wires_a - 1 - Z.of_nat i)) mod N) N
                    (sup :: wires_b) ovf false)) wires_a).
  split; [|split; [|split]].
  - rewrite (add_in_N_ok N wires_a wires_b [sup] sup wires_b ovf [])
      by auto.
    unfold scaled_adder. rewrite controlled_adders_loop. reflexivity.
  - apply length_imap.
  - intros i w Hi. eexists. split; [apply add_in_k_N_ok, Hovf|].
    split.
    + apply ctrl_Ok. apply (within_fresh (ovf :: sup :: wires_b));
        [apply within_adder_ops|].
      apply Hwa. eapply list_elem_of_lookup_2, Hi.
    + rewrite list_lookup_imap, Hi. simpl. rewrite Z.mul_1_l. reflexivity.
  - intros s b v Hb Hv. apply measure_cons; assumption.
Qed.

Lemma add_in_N_structure_witness :
  ∃ blocks,
    add_in_N 5 [0; 1; 2]%nat [3; 4; 5]%nat [6%nat] [7%nat]
    = Ok tt [] ([QFT [6; 3; 4; 5]%nat] ++ concat blocks ++ [QFTdg [6; 3; 4; 5]%nat])
    ∧ length blocks = 3%nat.
Proof.
  destruct (add_in_N_structure 5 [0; 1; 2]%nat [3; 4; 5]%nat 6%nat 7%nat)
    as (blocks & H1 & H2 & _);
    [lia|by_compute|by_compute|by_compute|].
  exists blocks. split; [exact H1|exact H2].
Defined.

(** C7 as stated fails on the place of the support wire: in the register
    that [add_in_N] transforms it comes first, so a 1 on it alone reads as
    8 on four wires; the low-order wire, which reads as 1, is the last
    wire of the result register. *)
Lemma add_in_N_support_wire_on_top :
  (∃ ops, add_in_N 5 [0; 1; 2]%nat [3; 4; 5]%nat [6%nat] [7%nat]
          = Ok tt [] (QFT [6; 3; 4; 5]%nat :: ops))
  ∧ measure (<[6%nat := Basis true]> (device 10)) [6; 3; 4; 5]%nat = Some 8
  ∧ measure (<[5%nat := Basis true]> (device 10)) [6; 3; 4; 5]%nat = Some 1
  ∧ last [6; 3; 4; 5]%nat ≠ Some 6%nat.
Proof.
  split; [eexists; vm_compute; reflexivity|].
  split; [reflexivity|]. split; [reflexivity|discriminate].
Qed.

(** ** Controls that meet the wires of the circuit *)







(** ** Exp_a_N *)

Lemma controlled_multipliers_imap a N wx res sup x0 x1 j :
  concat (imap (λ i w, controlled_by [w]
                 (mult_in_ops
                    (a ^ (2 ^ (Z.of_nat (j + length wx) - Z.of_nat (j + i) - 1)))
                    N res sup x0 x1)) wx)
  = controlled_multipliers a N wx res sup x0 x1.
Proof.
  revert j. induction wx as [|w wx IH]; intros j; [reflexivity|].
  cbn [imap concat length controlled_multipliers]. f_equal.
  - do 4 f_equal. unfold len. lia.
  - rewrite <- (IH (S j)). f_equal. apply imap_ext. intros i w' _.
    unfold compose. do 4 f_equal. lia.
Qed.

Lemma controlled_multipliers_loop a N wx res sup x0 x1 :
  concat (imap (λ i w, controlled_by [w]
                 (mult_in_ops (a ^ (2 ^ (len wx - Z.of_nat i - 1)))
                    N res sup x0 x1)) wx)
  = controlled_multipliers a N wx res sup x0 x1.
Proof. exact (controlled_multipliers_imap a N wx res sup x0 x1 0). Qed.

Lemma within_swaps wa ws : within (wa ++ ws) (swaps wa ws).
Proof.
  revert ws. induction wa as [|a wa IH]; intros [|b ws]; try constructor.
  - intros w Hw. simpl in Hw.
    apply elem_of_cons in Hw as [->|Hw]; [left|].
    apply list_elem_of_singleton in Hw as ->.
    right. apply elem_of_app. right. left.
  - eapply within_weaken; [|apply IH]. intros w Hw.
    apply elem_of_app in Hw as [Hw|Hw]; [right; apply elem_of_app; left; exact Hw|].
    right. apply elem_of_app. right. right. exact Hw.
Qed.

Lemma within_scaled_adder c N wa x0 ws x1 :
  within (wa ++ x1 :: x0 :: ws) (scaled_adder c N wa (x0 :: ws) x1).
Proof.
  unfold scaled_adder.
  assert (Hext : ∀ w, w ∈ x0 :: ws → w ∈ wa ++ x1 :: x0 :: ws)
    by (intros w Hw; apply elem_of_app; right; right; exact Hw).
  constructor; [exact Hext|].
  apply within_app. split; [apply within_controlled_adders|].
  constructor; [exact Hext|constructor].
Qed.

Lemma within_mult_in_ops k N wa ws x0 x1 :
  within (wa ++ x1 :: x0 :: ws) (mult_in_ops k N wa ws x0 x1).
Proof.
  unfold mult_in_ops. apply within_app. split; [apply within_scaled_adder|].
  apply within_app. split; [|apply within_scaled_adder].
  eapply within_weaken; [|apply within_swaps]. intros w Hw.
  apply elem_of_app in Hw as [Hw|Hw]; apply elem_of_app; [left; exact Hw|].
  right. right. right. exact Hw.
Qed.

Lemma Zbits_snoc m v : Zbits (S m) v = Zbits m (Z.div2 v) ++ [Z.testbit v 0].
Proof.
  induction m as [|m IH]; [reflexivity|].
  change (Zbits (S (S m)) v) with (Z.testbit v (Z.of_nat (S m)) :: Zbits (S m) v).
  rewrite IH. cbn [Zbits app]. f_equal.
  rewrite Z.div2_div, Z.div2_bits, Nat2Z.inj_succ by lia. reflexivity.
Qed.

Lemma write_snoc ws w qs q (s : state) :
  length qs = length ws →
  write (ws ++ [w]) (qs ++ [q]) s = write ws qs (<[w := q]> s).
Proof.
  revert qs. induction ws as [|w' ws IH]; intros [|q' qs] Hlen;
    try discriminate; [reflexivity|].
  simpl in Hlen. cbn [app]. rewrite !write_cons, IH by lia. reflexivity.
Qed.

(** The flip of [Exp_a_N] takes the result register from 0 to 1. *)
Lemma run_PauliX_last res r0 (s : state) :
  NoDup res → last res = Some r0 →
  run_op (PauliX r0) (BasisEmbedding 0 res s) = Some (BasisEmbedding 1 res s).
Proof.
  intros Hnd Hlast. apply last_Some in Hlast as [res' ->].
  apply NoDup_app in Hnd as (_ & Hdisj & _).
  assert (Hr0 : r0 ∉ res') by (intros Hin; apply (Hdisj r0 Hin); left).
  unfold BasisEmbedding. rewrite length_app. simpl length.
  replace (length res' + 1)%nat with (S (length res')) by lia.
  rewrite !Zbits_snoc, !fmap_app. simpl Z.div2. simpl Z.testbit.
  cbn [fmap list_fmap].
  rewrite !write_snoc by (rewrite length_fmap, Zbits_length; reflexivity).
  cbn [run_op]. rewrite lookup_write_ne, lookup_insert_eq by exact Hr0.
  simpl. rewrite <- write_insert, insert_insert_eq by exact Hr0. reflexivity.
Qed.

Lemma passes_power a N e : 2 <= N → 0 <= e → a ^ (N - 1) mod N = 1 → passes (a ^ e) N.
Proof.
  intros HN He Ha. apply passes_pow; [exact HN|].
  rewrite <- Z.pow_mul_r, (Z.mul_comm e), Z.pow_mul_r by lia.
  rewrite <- Z.mod_pow_l, Ha, Z.pow_1_l by lia. apply Z.mod_small. lia.
Qed.

Lemma exponent_step (a N r p e : Z) :
  0 < N → 0 <= p → 0 <= e →
  (((a ^ p * r) mod N) * a ^ e) mod N = (r * a ^ (1 * p + e)) mod N.
Proof.
  intros HN Hp He.
  rewrite Z.mul_mod_idemp_l, Z.mul_1_l, Z.pow_add_r by lia. f_equal. ring.
Qed.

Lemma py_index_last {A} (l : list A) (x : A) :
  last l = Some x → py_index l (len l - 1) = mret x.
Proof.
  intros Hlast. rewrite last_lookup in Hlast.
  pose proof (lookup_lt_Some _ _ _ Hlast) as Hlt.
  rewrite <- (py_index_nat l (pred (length l)) x Hlast).
  f_equal. unfold len. lia.
Qed.

Section Exponent.
Variables (a N : Z) (res sup : list wire) (x0 x1 : wire).
Hypothesis N_ge_2 : 2 <= N.
Hypothesis N_fits : N <= 2 ^ len res.
Hypothesis same_width : length res = length sup.
Hypothesis wires_NoDup : NoDup (res ++ sup ++ [x0; x1]).
Hypothesis a_passes : a ^ (N - 1) mod N = 1.

Lemma run_controlled_multiplier (e : Z) w (b : bool) r (st : state) :
  0 <= e → w ∉ res ++ x1 :: x0 :: sup →
  st !! w = Some (Basis b) →
  st !! x0 = Some (Basis false) → st !! x1 = Some (Basis false) →
  0 <= r < N →
  run (controlled_by [w] (mult_in_ops (a ^ e) N res sup x0 x1))
    (BasisEmbedding 0 sup (BasisEmbedding r res st))
  = Some (BasisEmbedding 0 sup
            (BasisEmbedding (if b then (a ^ e * r) mod N else r) res st)).
Proof.
  intros He Hw Hb Hx0 Hx1 Hr. rewrite (run_controlled_by _ w _ b).
  - destruct b; [|reflexivity].
    apply run_mult_in_ops; auto using passes_power.
  - apply (within_fresh (res ++ x1 :: x0 :: sup));
      [apply within_mult_in_ops|exact Hw].
  - rewrite !lookup_BasisEmbedding_ne; [exact Hb| |].
    + intros Hin. apply Hw, elem_of_app. left. exact Hin.
    + intros Hin. apply Hw, elem_of_app. right. right. right. exact Hin.
Qed.

Lemma run_controlled_multipliers wx xbits r (st : state) :
  (∀ w, w ∈ wx → w ∉ res ++ x1 :: x0 :: sup) →
  read st wx = Some (Basis <$> xbits) →
  st !! x0 = Some (Basis false) → st !! x1 = Some (Basis false) →
  0 <= r < N →
  run (controlled_multipliers a N wx res sup x0 x1)
    (BasisEmbedding 0 sup (BasisEmbedding r res st))
  = Some (BasisEmbedding 0 sup
            (BasisEmbedding ((r * a ^ bits_value xbits) mod N) res st)).
Proof.
  revert xbits r.
  induction wx as [|w wx IH]; intros xbits r Hwx Hread Hx0 Hx1 Hr.
  - destruct xbits; [|discriminate]. simpl.
    unfold bits_value, binary_to_integer. simpl.
    rewrite Z.mul_1_r, Z.mod_small by lia. reflexivity.
  - rewrite read_cons in Hread.
    destruct (st !! w) as [q|] eqn:Hw; [|discriminate]. simpl in Hread.
    destruct (read st wx) as [qs|] eqn:Hrd; [|discriminate].
    destruct xbits as [|b xbits]; [discriminate|].
    injection Hread as -> ->.
    assert (Hlen : len wx = len xbits).
    { unfold len. f_equal. apply read_length in Hrd.
      rewrite length_fmap in Hrd. congruence. }
    assert (Hwx' : ∀ w', w' ∈ wx → w' ∉ res ++ x1 :: x0 :: sup)
      by (intros w' Hw'; apply Hwx; right; exact Hw').
    pose proof (bits_value_range xbits) as Hbv.
    assert (Hpow : 0 <= 2 ^ len wx) by (apply Z.pow_nonneg; lia).
    cbn [controlled_multipliers].
    rewrite (run_app_Some _ _ _ _
               (run_controlled_multiplier (2 ^ len wx) w b r st Hpow
                  (Hwx w ltac:(left)) Hw Hx0 Hx1 Hr)).
    rewrite bits_value_cons, <- Hlen.
    destruct b; simpl Z.b2z.
    + rewrite (IH xbits _ Hwx' eq_refl Hx0 Hx1)
        by (apply Z.mod_pos_bound; lia).
      rewrite exponent_step by lia. reflexivity.
    + rewrite (IH xbits r Hwx' eq_refl Hx0 Hx1 Hr).
      rewrite Z.mul_0_l, Z.add_0_l. reflexivity.
Qed.

Lemma Exp_a_N_ok wx r0 aux' :
  last res = Some r0 →
  (∀ w, w ∈ wx → w ∉ res ++ x1 :: x0 :: sup) →
  Exp_a_N a N wx res sup (x0 :: x1 :: aux')
  = Ok tt [] (PauliX r0 :: controlled_multipliers a N wx res sup x0 x1).
Proof.
  intros Hlast Hwx. unfold Exp_a_N. cbv zeta.
  rewrite (py_index_last _ _ Hlast), bind_mret.
  rewrite (for_each_range wx _ (λ _ _, [])
             (λ i w, controlled_by [w]
                (mult_in_ops (a ^ (2 ^ (len wx - Z.of_nat i - 1))) N
                   res sup x0 x1))).
  - rewrite concat_imap_nil, controlled_multipliers_loop. reflexivity.
  - intros i w Hi. rewrite (py_index_nat _ _ _ Hi), bind_mret.
    pose proof (lookup_lt_Some _ _ _ Hi) as Hlt.
    rewrite mult_in_k_N_ok; auto.
    + apply ctrl_Ok. apply (within_fresh (res ++ x1 :: x0 :: sup));
        [apply within_mult_in_ops|].
      apply Hwx. eapply list_elem_of_lookup_2, Hi.
    + apply passes_power; auto. apply Z.pow_nonneg. lia.
Qed.
End Exponent.

(** The layout of the wires of the exponentiation: the exponent, the
    result register, the support register and the two ancilla wires, all
    apart. *)
Lemma exponent_layout (wx res sup : list wire) (x0 x1 : wire) :
  NoDup (wx ++ res ++ sup ++ [x0; x1]) →
  NoDup wx ∧ NoDup res ∧ NoDup (res ++ sup ++ [x0; x1])
  ∧ (∀ w, w ∈ wx → w ∉ res ++ x1 :: x0 :: sup)
  ∧ (∀ w, w ∈ wx → w ∉ res) ∧ (∀ w, w ∈ wx → w ∉ sup)
  ∧ (∀ w, w ∈ res → w ∉ sup)
  ∧ (∀ w, w ∈ [x0; x1] → (w ∉ wx) ∧ (w ∉ res) ∧ (w ∉ sup)).
Proof.
  intros H. apply NoDup_app in H as (Hwx & Hd1 & H).
  pose proof H as Hrest.
  apply NoDup_app in H as (Hres & Hd2 & H).
  apply NoDup_app in H as (Hsup & Hd3 & _).
  assert (Hin : ∀ w, w ∈ res ++ x1 :: x0 :: sup → w ∈ res ++ sup ++ [x0; x1]).
  { intros w Hw.
    apply elem_of_app in Hw as [Hw|Hw]; [apply elem_of_app; left; exact Hw|].
    apply elem_of_app. right.
    apply elem_of_cons in Hw as [->|Hw];
      [apply elem_of_app; right; right; left|].
    apply elem_of_cons in Hw as [->|Hw]; [apply elem_of_app; right; left|].
    apply elem_of_app. left. exact Hw. }
  split; [exact Hwx|]. split; [exact Hres|]. split; [exact Hrest|].
  split; [|split; [|split; [|split]]].
  - intros w Hw Hw'. apply (Hd1 w Hw), Hin, Hw'.
  - intros w Hw Hw'. apply (Hd1 w Hw). apply elem_of_app. left. exact Hw'.
  - intros w Hw Hw'. apply (Hd1 w Hw).
    apply elem_of_app. right. apply elem_of_app. left. exact Hw'.
  - intros w Hw Hw'. apply (Hd2 w Hw). apply elem_of_app. left. exact Hw'.
  - intros w Hw. split; [|split].
    + intros Hw'. apply (Hd1 w Hw').
      apply elem_of_app. right. apply elem_of_app. right. exact Hw.
    + intros Hw'. apply (Hd2 w Hw'). apply elem_of_app. right. exact Hw.
    + intros Hw'. apply (Hd3 w Hw'). exact Hw.
Qed.

(** C2, amended: when [a^(N-1) = 1] modulo [N], so that every constant of
    the loop passes the test of [mult_in_k_N], on a result and a support
    register of equal width that hold the residues modulo [N], all wires
    apart and the result, support and ancilla wires at 0, the circuit of
    [Exp_a_N] first flips the last wire of the result register, which goes
    to (x, 1, 0), and then arrives at (x, a^x mod N, 0). *)
Theorem Exp_a_N_correct (N a x : Z) (wires_x wires_res wires_support : list wire)
    (x0 x1 : wire) (s : state) :
  2 <= N → 0 <= a < N → a ^ (N - 1) mod N = 1 →
  0 <= x < 2 ^ len wires_x →
  length wires_res = length wires_support → N <= 2 ^ len wires_res →
  NoDup (wires_x ++ wires_res ++ wires_support ++ [x0; x1]) →
  s !! x0 = Some (Basis false) → s !! x1 = Some (Basis false) →
  let state_of v :=
    BasisEmbedding 0 wires_support
      (BasisEmbedding v wires_res (BasisEmbedding x wires_x s)) in
  ∃ r0 ops,
    Exp_a_N a N wires_x wires_res wires_support [x0; x1]
    = Ok tt [] (PauliX r0 :: ops)
    ∧ last wires_res = Some r0
    ∧ run_op (PauliX r0) (state_of 0) = Some (state_of 1)
    ∧ run ops (state_of 1) = Some (state_of (a ^ x mod N))
    ∧ execute (Exp_a_N a N wires_x wires_res wires_support [x0; x1]) (state_of 0)
      = Some (state_of (a ^ x mod N))
    ∧ measure (state_of (a ^ x mod N)) wires_x = Some x
    ∧ measure (state_of (a ^ x mod N)) wires_res = Some (a ^ x mod N)
    ∧ measure (state_of (a ^ x mod N)) (wires_support ++ [x0; x1]) = Some 0.
Proof.
  intros HN Ha Hpass Hx Hlen Hfits Hnd Hx0 Hx1 state_of.
  destruct (exponent_layout _ _ _ _ _ Hnd)
    as (Hwx & Hres & Hrest & Hfresh & Hxr & Hxs & Hrs & Haux).
  destruct (last wires_res) as [r0|] eqn:Hlast.
  2:{ apply last_None in Hlast. subst wires_res. unfold len in Hfits.
      simpl in Hfits. lia. }
  set (sx := BasisEmbedding x wires_x s).
  assert (Hsx0 : sx !! x0 = Some (Basis false)).
  { unfold sx. rewrite lookup_BasisEmbedding_ne; [exact Hx0|].
    apply (Haux x0). left. }
  assert (Hsx1 : sx !! x1 = Some (Basis false)).
  { unfold sx. rewrite lookup_BasisEmbedding_ne; [exact Hx1|].
    apply (Haux x1). right. left. }
  assert (Hflip : run_op (PauliX r0) (state_of 0) = Some (state_of 1)).
  { unfold state_of, BasisEmbedding.
    rewrite <- !(write_comm wires_res _ wires_support _ _) by exact Hrs.
    apply (run_PauliX_last wires_res r0 _ Hres Hlast). }
  assert (Hloop : run (controlled_multipliers a N wires_x wires_res
                         wires_support x0 x1) (state_of 1)
                  = Some (state_of (a ^ x mod N))).
  { unfold state_of. fold sx.
    rewrite (run_controlled_multipliers a N wires_res wires_support x0 x1
               HN Hfits Hlen Hrest Hpass wires_x
               (Zbits (length wires_x) x) 1 sx Hfresh
               (read_BasisEmbedding x wires_x s Hwx) Hsx0 Hsx1) by lia.
    rewrite bits_value_Zbits, (Z.mod_small x), Z.mul_1_l by exact Hx.
    reflexivity. }
  assert (Hok := Exp_a_N_ok a N wires_res wires_support x0 x1 HN Hlen Hrest
                   Hpass wires_x r0 [] Hlast Hfresh).
  pose proof (Z.mod_pos_bound (a ^ x) N ltac:(lia)) as Hr.
  exists r0, (controlled_multipliers a N wires_x wires_res wires_support x0 x1).
  split; [exact Hok|]. split; [reflexivity|]. split; [exact Hflip|].
  split; [exact Hloop|]. split; [|split; [|split]].
  - rewrite Hok. unfold execute.
    rewrite (run_cons_Some _ _ _ _ Hflip). exact Hloop.
  - unfold state_of. rewrite !measure_BasisEmbedding_ne by assumption.
    apply measure_BasisEmbedding; assumption.
  - unfold state_of. rewrite measure_BasisEmbedding_ne by exact Hrs.
    apply measure_BasisEmbedding; [exact Hres|lia].
  - apply measure_zeros. intros w Hw. unfold state_of.
    apply elem_of_app in Hw as [Hw|Hw];
      [apply lookup_BasisEmbedding_0, Hw|].
    destruct (Haux w Hw) as (H1 & H2 & H3).
    rewrite !lookup_BasisEmbedding_ne by assumption.
    apply elem_of_cons in Hw as [->|Hw]; [exact Hx0|].
    apply list_elem_of_singleton in Hw as ->. exact Hx1.
Qed.

Lemma Exp_a_N_correct_witness :
  ∃ r0 ops,
    Exp_a_N 2 7 [0; 1; 2]%nat [3; 4; 5]%nat [6; 7; 8]%nat [9; 10]%nat
    = Ok tt [] (PauliX r0 :: ops)
    ∧ execute (Exp_a_N 2 7 [0; 1; 2]%nat [3; 4; 5]%nat [6; 7; 8]%nat [9; 10]%nat)
        (BasisEmbedding 0 [6; 7; 8]%nat
           (BasisEmbedding 0 [3; 4; 5]%nat
              (BasisEmbedding 3 [0; 1; 2]%nat (device 11))))
      = Some (BasisEmbedding 0 [6; 7; 8]%nat
                (BasisEmbedding (2 ^ 3 mod 7) [3; 4; 5]%nat
                   (BasisEmbedding 3 [0; 1; 2]%nat (device 11)))).
Proof.
  destruct (Exp_a_N_correct 7 2 3 [0; 1; 2]%nat [3; 4; 5]%nat [6; 7; 8]%nat
              9%nat 10%nat (device 11))
    as (r0 & ops & H1 & _ & _ & _ & H2 & _);
    [lia|lia|reflexivity|by_compute|reflexivity|by_compute|by_compute
    |reflexivity|reflexivity|].
  exists r0, ops. split; [exact H1|exact H2].
Defined.

(** C2 as stated fails for a = 0: the test of [mult_in_k_N] rejects every
    constant of the loop, only the flip is queued, and the result register
    holds 1 whatever the exponent, where 0^3 mod 7 = 0. *)
Lemma Exp_a_N_zero_base :
  (∃ out, Exp_a_N 0 7 [0; 1; 2]%nat [3; 4; 5]%nat [6; 7; 8]%nat [9; 10]%nat
          = Ok tt out [PauliX 5])
  ∧ ∃ s', execute
            (Exp_a_N 0 7 [0; 1; 2]%nat [3; 4; 5]%nat [6; 7; 8]%nat [9; 10]%nat)
            (BasisEmbedding 3 [0; 1; 2]%nat (device 11)) = Some s'
        ∧ measure s' [0; 1; 2]%nat = Some 3
        ∧ measure s' [3; 4; 5]%nat = Some 1
        ∧ 1 ≠ 0 ^ 3 mod 7.
Proof.
  split; [eexists; vm_compute; reflexivity|].
  eexists. split; [vm_compute; reflexivity|].
  split; [vm_compute; reflexivity|]. split; [vm_compute; reflexivity|].
  discriminate.
Qed.

(** ** binary_to_integer *)

Lemma is_bits_inv v : is_bits v → ∃ bits, v = Z.b2z <$> bits.
Proof.
  induction 1 as [|b v Hb _ [bits ->]]; [exists []; reflexivity|].
  destruct Hb as [->| ->]; [exists (false :: bits)|exists (true :: bits)];
    reflexivity.
Qed.

(** X1: on vectors of samples of the same length, of at most 63 entries
    (where the 64-bit integers of numpy are exact), [binary_to_integer] is
    one-to-one and its value is below [2^n]: the printed integer determines
    the sampled bits. *)
Theorem binary_to_integer_one_to_one (v1 v2 : list Z) :
  is_bits v1 → is_bits v2 → length v1 = length v2 → len v1 <= 63 →
  0 <= binary_to_integer v1 < 2 ^ len v1
  ∧ (binary_to_integer v1 = binary_to_integer v2 → v1 = v2).
Proof.
  intros H1 H2 Hlen _.
  apply is_bits_inv in H1 as [bits1 ->]. apply is_bits_inv in H2 as [bits2 ->].
  rewrite !length_fmap in Hlen. fold (bits_value bits1) (bits_value bits2).
  split.
  - unfold len. rewrite length_fmap. apply bits_value_range.
  - intros Heq. f_equal.
    rewrite <- (Zbits_bits_value bits1), <- (Zbits_bits_value bits2).
    rewrite Hlen, Heq. reflexivity.
Qed.

Lemma binary_to_integer_one_to_one_witness :
  0 <= binary_to_integer [1; 1; 0; 0] < 2 ^ len [1; 1; 0; 0]
  ∧ (binary_to_integer [1; 1; 0; 0] = binary_to_integer [1; 1; 0; 0]
     → [1; 1; 0; 0] = [1; 1; 0; 0]).
Proof.
  apply (binary_to_integer_one_to_one [1; 1; 0; 0] [1; 1; 0; 0]);
    [by_compute|by_compute|reflexivity|by_compute].
Defined.

(** X2: the samples of two registers read one after the other: the value
    of the concatenation is the value of the first, shifted by the width of
    the second, plus the value of the second (at most 63 samples in all). *)
Theorem binary_to_integer_concat (v1 v2 : list Z) :
  is_bits v1 → is_bits v2 → len (v1 ++ v2) <= 63 →
  binary_to_integer (v1 ++ v2)
  = binary_to_integer v1 * 2 ^ len v2 + binary_to_integer v2.
Proof.
  intros _ _ _. induction v1 as [|b v1 IH]; [reflexivity|].
  cbn [app]. rewrite !binary_to_integer_cons, IH. unfold len.
  rewrite length_app, Nat2Z.inj_add, Z.pow_add_r by lia. ring.
Qed.

Lemma binary_to_integer_concat_witness :
  binary_to_integer ([1; 0] ++ [0; 1; 1])
  = binary_to_integer [1; 0] * 2 ^ len [0; 1; 1] + binary_to_integer [0; 1; 1].
Proof.
  apply (binary_to_integer_concat [1; 0] [0; 1; 1]); by_compute.
Defined.

(** ** sum_k between the transforms *)

Lemma then_Ok (out1 out2 : list string) (ops1 ops2 : list Op) :
  (Ok tt out1 ops1 ;; Ok tt out2 ops2) = Ok tt (out1 ++ out2) (ops1 ++ ops2).
Proof. reflexivity. Qed.

(** X3: between the Fourier transform and its adjoint, the rotations of
    [sum_k(k, wires)] add [k] to the register modulo [2^n], for every
    integer [k] from [-2^n] to [2^n], negative ones included, within the
    range where the angles are floats computed from the exact constant;
    the other wires are as they were. *)
Theorem sum_k_adds (k a : Z) (wires : list wire) (s : state) :
  NoDup wires → 0 <= a < 2 ^ len wires →
  - 2 ^ len wires <= k <= 2 ^ len wires → float_range k wires →
  ∃ s', execute (queue (QFT wires) ;; sum_k k wires ;; queue (QFTdg wires))
          (BasisEmbedding a wires s) = Some s'
      ∧ s' = BasisEmbedding (a + k) wires s
      ∧ measure s' wires = Some ((a + k) mod 2 ^ len wires).
Proof.
  intros Hnd Ha _ _. eexists. split; [|split; [reflexivity|]].
  - rewrite sum_k_ok. unfold queue. rewrite !then_Ok. cbn [app execute].
    unfold BasisEmbedding.
    erewrite run_cons_Some; [|apply run_QFT; [exact Hnd|apply Zbits_length]].
    rewrite bits_value_Zbits, fourier_mod.
    rewrite fourier_from_0.
    erewrite run_app_Some; [|apply (run_rotations k 0 wires s a Hnd)].
    erewrite run_cons_Some; [reflexivity|]. apply run_QFTdg, Hnd.
  - unfold BasisEmbedding. rewrite <- (Zbits_mod _ (a + k)).
    apply measure_BasisEmbedding; [exact Hnd|].
    apply Z.mod_pos_bound. unfold len. apply Z.pow_pos_nonneg; lia.
Qed.

Lemma sum_k_adds_witness :
  ∃ s', execute (queue (QFT [1; 2; 3]%nat) ;; sum_k 5 [1; 2; 3]%nat ;;
                 queue (QFTdg [1; 2; 3]%nat))
          (BasisEmbedding 6 [1; 2; 3]%nat (device 4)) = Some s'
      ∧ s' = BasisEmbedding (6 + 5) [1; 2; 3]%nat (device 4)
      ∧ measure s' [1; 2; 3]%nat = Some ((6 + 5) mod 2 ^ len [1; 2; 3]%nat).
Proof.
  apply (sum_k_adds 5 6 [1; 2; 3]%nat (device 4)); by_compute.
Defined.

(** ** add_in_k_N on a register in the Fourier basis *)

(** X4: with [is_in_standard_basis=False] the adder queues no transform
    of its own at either end and works on the Fourier state: on a register
    with one spare top wire it takes the Fourier state of [a < N] to the
    Fourier state of [(a + k) mod N], the overflow wire back at 0. *)
Theorem add_in_k_N_fourier (N k a : Z) (wires_a wires_aux : list wire)
    (x0 : wire) (s : state) :
  0 <= k < N → 0 <= a < N → N <= 2 ^ (len wires_a - 1) →
  head wires_aux = Some x0 → NoDup (x0 :: wires_a) →
  s !! x0 = Some (Basis false) →
  let n := length wires_a in
  (∃ ops, add_in_k_N k N wires_a wires_aux false = Ok tt [] ops
          ∧ add_in_k_N k N wires_a wires_aux true
            = Ok tt [] (QFT wires_a :: ops ++ [QFTdg wires_a]))
  ∧ execute (add_in_k_N k N wires_a wires_aux false)
      (write wires_a (fourier n a) s)
    = Some (write wires_a (fourier n ((a + k) mod N)) s).
Proof.
  intros Hk Ha Hwidth Haux Hnd Hx n.
  destruct wires_aux as [|x aux']; [discriminate|]. injection Haux as ->.
  destruct wires_a as [|w0 ws'].
  { exfalso. unfold len in Hwidth. simpl in Hwidth. lia. }
  assert (Hfresh : x0 ∉ w0 :: ws') by (apply NoDup_cons in Hnd; tauto).
  assert (Hw : N <= 2 ^ Z.of_nat (length ws')).
  { revert Hwidth. unfold len. cbn [length]. rewrite Nat2Z.inj_succ.
    replace (Z.succ (Z.of_nat (length ws')) - 1) with (Z.of_nat (length ws'))
      by lia. trivial. }
  rewrite !add_in_k_N_ok by exact Hfresh. split.
  - eexists. split; reflexivity.
  - apply run_adder_core; assumption.
Qed.

Lemma add_in_k_N_fourier_witness :
  execute (add_in_k_N 3 5 [0; 1; 2; 3]%nat [4%nat] false)
    (write [0; 1; 2; 3]%nat (fourier 4 4) (device 10))
  = Some (write [0; 1; 2; 3]%nat (fourier 4 ((4 + 3) mod 5)) (device 10)).
Proof.
  apply (add_in_k_N_fourier 5 3 4 [0; 1; 2; 3]%nat [4%nat] 4%nat (device 10));
    [lia|lia|by_compute|reflexivity|by_compute|reflexivity].
Defined.

(** ** Copying a register *)

Lemma copies_imap src dst :
  (length dst ≤ length src)%nat →
  concat (imap (λ i r, [CNOT (default 0%nat (src !! i)) r]) dst) = copies src dst.
Proof.
  revert src. induction dst as [|r dst IH]; intros [|a src] Hlen;
    simpl in Hlen; try lia; [reflexivity|reflexivity|].
  cbn [imap concat app]. unfold copies. cbn [zip_with]. simpl. f_equal.
  apply IH. lia.
Qed.

(** The loop [for i in range(len(dst)): qml.CNOT(wires=[src[i], dst[i]])]. *)
Lemma copy_loop_ok src dst :
  (length dst ≤ length src)%nat →
  for_each (range (length dst)) (λ i,
    a ← py_index src (Z.of_nat i);
    r ← py_index dst (Z.of_nat i);
    queue (CNOT a r))
  = Ok tt [] (copies src dst).
Proof.
  intros Hlen.
  rewrite (for_each_range dst _ (λ _ _, [])
             (λ i r, [CNOT (default 0%nat (src !! i)) r])).
  - rewrite concat_imap_nil, copies_imap by exact Hlen. reflexivity.
  - intros i r Hi.
    destruct (lookup_lt_is_Some_2 src i) as [a Ha].
    { pose proof (lookup_lt_Some _ _ _ Hi). lia. }
    rewrite (py_index_nat _ _ _ Ha), bind_mret.
    rewrite (py_index_nat _ _ _ Hi), bind_mret, Ha. reflexivity.
Qed.

(** The same loop over the source: [for i in range(len(src))]. *)
Lemma copy_loop_src_ok src dst :
  length src = length dst →
  for_each (range (length src)) (λ i,
    a ← py_index src (Z.of_nat i);
    r ← py_index dst (Z.of_nat i);
    queue (CNOT a r))
  = Ok tt [] (copies src dst).
Proof. intros Hlen. rewrite Hlen. apply copy_loop_ok. lia. Qed.

(** A loop that indexes a list beyond its end stops with [IndexError]. *)
Lemma py_index_beyond {A} (l : list A) (i : nat) :
  (length l ≤ i)%nat → py_index l (Z.of_nat i) = Raise IndexError.
Proof.
  intros H. unfold py_index.
  destruct (Z.ltb_spec (Z.of_nat i) 0); [lia|].
  destruct (Z.ltb_spec (Z.of_nat i) 0); [lia|].
  destruct (Z.leb_spec (Z.of_nat (length l)) (Z.of_nat i)); [reflexivity|lia].
Qed.

(** A loop stops at the first body that raises. *)
Lemma for_each_stops {A} (l1 l2 : list A) (x : A) (body : A → build unit) e :
  (∀ y, y ∈ l1 → ∃ out ops, body y = Ok tt out ops) →
  body x = Raise e →
  for_each (l1 ++ x :: l2) body = Raise e.
Proof.
  intros Hok Hx. induction l1 as [|y l1 IH]; cbn [app for_each].
  - rewrite Hx. reflexivity.
  - destruct (Hok y ltac:(left)) as (out & ops & Hy).
    rewrite Hy, bind_Ok, IH; [reflexivity|].
    intros z Hz. apply Hok. right. exact Hz.
Qed.

Lemma range_split (m n : nat) :
  (m < n)%nat → range n = range m ++ m :: seq (S m) (n - S m).
Proof.
  intros H. unfold range.
  replace n with (m + S (n - S m))%nat at 1 by lia.
  rewrite seq_app. reflexivity.
Qed.

(** The copy loop run beyond the end of one of its two lists: the first
    index that one of them lacks raises [IndexError]. *)
Lemma copy_loop_beyond (first second : list wire) (n : nat) :
  (length first `min` length second < n)%nat →
  for_each (range n) (λ i,
    a ← py_index first (Z.of_nat i);
    r ← py_index second (Z.of_nat i);
    queue (CNOT a r))
  = Raise IndexError.
Proof.
  intros Hlt. rewrite (range_split _ n Hlt).
  apply for_each_stops.
  - intros i Hi. apply elem_of_seq in Hi.
    destruct (lookup_lt_is_Some_2 first i) as [a Ha]; [lia|].
    destruct (lookup_lt_is_Some_2 second i) as [r Hr]; [lia|].
    rewrite (py_index_nat _ _ _ Ha), bind_mret.
    rewrite (py_index_nat _ _ _ Hr), bind_mret. eauto.
  - destruct (decide (length first ≤ length second)%nat) as [Hle|Hgt].
    + rewrite (py_index_beyond first) by (clear Hlt; lia). reflexivity.
    + destruct (lookup_lt_is_Some_2 first (length first `min` length second))
        as [a Ha]; [clear Hlt; lia|].
      rewrite (py_index_nat _ _ _ Ha), bind_mret.
      rewrite (py_index_beyond second) by (clear Hlt; lia). reflexivity.
Qed.

(** The copies take a register at 0 to the value of the source. *)
Lemma run_copies src dst abits (s : state) :
  NoDup dst → (∀ w, w ∈ src → w ∉ dst) → length src = length dst →
  read s src = Some (Basis <$> abits) →
  (∀ w, w ∈ dst → s !! w = Some (Basis false)) →
  run (copies src dst) s = Some (write dst (Basis <$> abits) s).
Proof.
  revert dst abits s.
  induction src as [|a src IH]; intros [|r dst] abits s Hnd Hdisj Hlen Hread Hz;
    try discriminate.
  - destruct abits; [reflexivity|discriminate].
  - rewrite read_cons in Hread.
    destruct (s !! a) as [q|] eqn:Ha; [|discriminate]. simpl in Hread.
    destruct (read s src) as [qs|] eqn:Hr; [|discriminate].
    destruct abits as [|b abits]; [discriminate|]. injection Hread as -> ->.
    apply NoDup_cons in Hnd as [Hr' Hnd].
    assert (Hne : a ≠ r) by (intros ->; apply (Hdisj r); left).
    assert (Hsrc : r ∉ src) by (intros Hin; apply (Hdisj r); [right|left]; auto).
    unfold copies. cbn [zip_with]. fold (copies src dst).
    erewrite run_cons_Some.
    2:{ cbn [run_op]. rewrite decide_False by exact Hne.
        rewrite Ha. simpl. rewrite (Hz r) by left. simpl.
        instantiate (1 := <[r := Basis b]> s).
        destruct b; [reflexivity|].
        rewrite insert_id; [reflexivity|]. apply Hz. left. }
    rewrite (IH dst abits).
    + rewrite write_insert by exact Hr'. reflexivity.
    + exact Hnd.
    + intros w Hw Hin. apply (Hdisj w); right; assumption.
    + simpl in Hlen. lia.
    + rewrite read_insert_ne by exact Hsrc. exact Hr.
    + intros w Hw. rewrite lookup_insert_ne; [apply Hz; right; exact Hw|].
      intros ->. contradiction.
Qed.

(** ** add_out_k_N *)

Lemma two_ancillas {A} (x0 x1 : A) aux' : (len (x0 :: x1 :: aux') <? 2) = false.
Proof. apply Z.ltb_ge. unfold len. simpl length. lia. Qed.

Lemma py_index_second {A} (x0 x1 : A) aux' :
  py_index (x0 :: x1 :: aux') 1 = mret x1.
Proof. exact (py_index_nat (x0 :: x1 :: aux') 1 x1 eq_refl). Qed.

Lemma add_out_k_N_ok k N wa wr x0 x1 aux' :
  (length wr ≤ length wa)%nat → x1 ∉ x0 :: wr →
  add_out_k_N k N wa wr (x0 :: x1 :: aux')
  = Ok tt [] (copies wa wr ++ adder_ops k N (x0 :: wr) x1 true).
Proof.
  intros Hlen Hx. unfold add_out_k_N.
  rewrite two_ancillas, copy_loop_ok by exact Hlen.
  rewrite py_index_head, py_index_second, bind_Ok, !bind_mret. cbn [app].
  rewrite add_in_k_N_ok by exact Hx. reflexivity.
Qed.

(** The layout of the wires of the out-of-place adders: the source, the
    result register and the two ancilla wires, all apart. *)
Lemma copy_layout (wa wr : list wire) (x0 x1 : wire) :
  NoDup (wa ++ wr ++ [x0; x1]) →
  NoDup wa ∧ NoDup wr ∧ NoDup (x1 :: x0 :: wr)
  ∧ (∀ w, w ∈ wa → w ∉ x1 :: x0 :: wr) ∧ (∀ w, w ∈ wa → w ∉ wr)
  ∧ (x0 ∉ wa) ∧ (x1 ∉ wa).
Proof.
  intros H. destruct (adder_layout _ _ _ _ H) as (H1 & H2 & H3 & H4 & H5).
  repeat split; try assumption.
  - intros Hin. apply (H4 x0 Hin). right. left.
  - intros Hin. apply (H4 x1 Hin). left.
Qed.

(** X5: on a source and a result register of the same width that hold
    the residues modulo [N], with the result register and the two ancilla
    wires at 0 and all wires apart, the circuit of [add_out_k_N] leaves
    [a < N] in the source and puts [(a + k) mod N] in the result register;
    the ancilla wires are back at 0. *)
Theorem add_out_k_N_correct (N k a : Z) (wires_a wires_res aux' : list wire)
    (x0 x1 : wire) (s : state) :
  0 <= k < N → 0 <= a < N → N <= 2 ^ len wires_res →
  length wires_a = length wires_res →
  NoDup (wires_a ++ wires_res ++ [x0; x1]) →
  Forall (λ w, s !! w = Some (Basis false)) (wires_res ++ [x0; x1]) →
  ∃ s', execute (add_out_k_N k N wires_a wires_res (x0 :: x1 :: aux'))
          (BasisEmbedding a wires_a s) = Some s'
      ∧ s' = BasisEmbedding ((a + k) mod N) wires_res (BasisEmbedding a wires_a s)
      ∧ measure s' wires_a = Some a
      ∧ measure s' wires_res = Some ((a + k) mod N)
      ∧ measure s' [x0; x1] = Some 0.
Proof.
  intros Hk Ha HN Hlen Hnd Hz. rewrite Forall_forall in Hz.
  destruct (copy_layout _ _ _ _ Hnd) as (Hwa & Hwr & Hext & Hdisj & Hab & H0 & H1).
  assert (Hx1 : x1 ∉ x0 :: wires_res) by (apply NoDup_cons in Hext; tauto).
  assert (Hx0 : x0 ∉ wires_res).
  { apply NoDup_cons in Hext as [_ H]. apply NoDup_cons in H; tauto. }
  set (sa := BasisEmbedding a wires_a s).
  assert (Hza : ∀ w, w ∈ wires_res ++ [x0; x1] → sa !! w = Some (Basis false)).
  { intros w Hw. unfold sa. rewrite lookup_BasisEmbedding_ne; [apply Hz, Hw|].
    intros Hin. apply elem_of_app in Hw as [Hw|Hw]; [apply (Hab w Hin Hw)|].
    apply elem_of_cons in Hw as [->|Hw]; [contradiction|].
    apply list_elem_of_singleton in Hw as ->. contradiction. }
  assert (Hsx0 : sa !! x0 = Some (Basis false))
    by (apply Hza, elem_of_app; right; left).
  assert (Hsx1 : sa !! x1 = Some (Basis false))
    by (apply Hza, elem_of_app; right; right; left).
  assert (Ha' : 0 <= a < 2 ^ Z.of_nat (length wires_res))
    by (unfold len in HN; lia).
  pose proof (Z.mod_pos_bound (a + k) N ltac:(lia)) as Hr.
  eexists. split; [|split; [reflexivity|split; [|split]]].
  - rewrite add_out_k_N_ok by (exact Hx1 || lia). cbn [execute].
    erewrite run_app_Some.
    2:{ apply (run_copies wires_a wires_res (Zbits (length wires_a) a));
          [exact Hwr|exact Hab|exact Hlen| |].
        - apply read_BasisEmbedding, Hwa.
        - intros w Hw. apply Hza, elem_of_app. left. exact Hw. }
    rewrite Hlen. fold (BasisEmbedding a wires_res sa).
    unfold BasisEmbedding at 1.
    rewrite <- (write_extended x0 wires_res x1 Hext a sa Hsx0 Ha').
    fold (BasisEmbedding a (x0 :: wires_res) sa).
    rewrite run_adder_std by (assumption || lia).
    unfold BasisEmbedding at 1.
    rewrite (write_extended x0 wires_res x1 Hext)
      by (exact Hsx0 || (unfold len in HN; lia)).
    reflexivity.
  - rewrite measure_BasisEmbedding_ne by exact Hab.
    apply measure_BasisEmbedding; [exact Hwa|]. unfold len. rewrite Hlen. lia.
  - apply measure_BasisEmbedding; [exact Hwr|]. unfold len in *. lia.
  - apply measure_zeros. intros w Hw.
    rewrite lookup_BasisEmbedding_ne; [apply Hza, elem_of_app; right; exact Hw|].
    apply elem_of_cons in Hw as [->|Hw]; [exact Hx0|].
    apply list_elem_of_singleton in Hw as ->.
    intros Hin. apply Hx1. right. exact Hin.
Qed.

Lemma add_out_k_N_correct_witness :
  ∃ s', execute (add_out_k_N 3 7 [0; 1; 2]%nat [3; 4; 5]%nat [6; 7]%nat)
          (BasisEmbedding 5 [0; 1; 2]%nat (device 8)) = Some s'
      ∧ s' = BasisEmbedding ((5 + 3) mod 7) [3; 4; 5]%nat
               (BasisEmbedding 5 [0; 1; 2]%nat (device 8))
      ∧ measure s' [0; 1; 2]%nat = Some 5
      ∧ measure s' [3; 4; 5]%nat = Some ((5 + 3) mod 7)
      ∧ measure s' [6; 7]%nat = Some 0.
Proof.
  apply (add_out_k_N_correct 7 3 5 [0; 1; 2]%nat [3; 4; 5]%nat [] 6%nat 7%nat
           (device 8));
    [lia|lia|by_compute|reflexivity|by_compute|by_compute].
Defined.

(** X6: a result register longer than the source makes the copy loop of
    [add_out_k_N] index the source beyond its end: with two ancilla wires
    and the wires apart the call raises [IndexError], whatever [k] and
    [N]. *)
Theorem add_out_k_N_result_too_long (k N : Z)
    (wires_a wires_res wires_aux : list wire) :
  2 <= len wires_aux → (length wires_a < length wires_res)%nat →
  NoDup (wires_a ++ wires_res) →
  add_out_k_N k N wires_a wires_res wires_aux = Raise IndexError
  ∧ ∀ s, execute (add_out_k_N k N wires_a wires_res wires_aux) s = None.
Proof.
  intros Haux Hlen _.
  assert (H : add_out_k_N k N wires_a wires_res wires_aux = Raise IndexError).
  { unfold add_out_k_N.
    destruct (Z.ltb_spec (len wires_aux) 2) as [|_]; [lia|].
    rewrite copy_loop_beyond by lia. reflexivity. }
  rewrite H. split; reflexivity.
Qed.

Lemma add_out_k_N_result_too_long_witness :
  add_out_k_N 3 7 [0; 1]%nat [3; 4; 5]%nat [6; 7]%nat = Raise IndexError.
Proof.
  apply (add_out_k_N_result_too_long 3 7 [0; 1]%nat [3; 4; 5]%nat [6; 7]%nat);
    by_compute.
Defined.

(** ** add_out_N *)

Lemma add_out_N_ok N wa wb wr sup x aux2' :
  N ≠ 0 → length wb = length wr → x ∉ sup :: wr →
  (∀ w, w ∈ wa → w ∉ x :: sup :: wr) →
  add_out_N N wa wb wr [sup] (x :: aux2')
  = Ok tt [] (copies wb wr ++ scaled_adder 1 N wa (sup :: wr) x).
Proof.
  intros HN Hlen Hx Hwa. unfold add_out_N.
  rewrite copy_loop_src_ok by exact Hlen.
  rewrite (add_in_N_ok N wa wr [sup] sup wr x aux2') by auto.
  reflexivity.
Qed.

(** X7: on two operand registers and a result register, the second
    operand and the result of the same width, the result register wide
    enough for the residues modulo [N], the result, support and overflow
    wires at 0 and all wires apart, the circuit of [add_out_N] leaves [a]
    and [b < N] where they are and puts [(a + b) mod N] in the result
    register; the support and overflow wires are back at 0. *)
Theorem add_out_N_correct (N a b : Z) (wires_a wires_b wires_res : list wire)
    (sup ovf : wire) (s : state) :
  0 < N → 0 <= a < 2 ^ len wires_a → 0 <= b < N → N <= 2 ^ len wires_res →
  length wires_b = length wires_res →
  NoDup (wires_a ++ wires_b ++ wires_res ++ [sup; ovf]) →
  Forall (λ w, s !! w = Some (Basis false)) (wires_res ++ [sup; ovf]) →
  let s0 := BasisEmbedding b wires_b (BasisEmbedding a wires_a s) in
  ∃ s', execute (add_out_N N wires_a wires_b wires_res [sup] [ovf]) s0 = Some s'
      ∧ s' = BasisEmbedding ((a + b) mod N) wires_res s0
      ∧ measure s' wires_a = Some a
      ∧ measure s' wires_b = Some b
      ∧ measure s' wires_res = Some ((a + b) mod N)
      ∧ measure s' [sup; ovf] = Some 0.
Proof.
  intros HN Ha Hb Hfits Hlen Hnd Hz s0. rewrite Forall_forall in Hz.
  destruct (exponent_layout _ _ _ _ _ Hnd)
    as (Hwa & Hwb & Hrest & Hfresh & Hab & Har & Hbr & Haux).
  destruct (copy_layout _ _ _ _ Hrest) as (_ & Hwr & Hext & _ & _ & _ & _).
  assert (Hx : ovf ∉ sup :: wires_res) by (apply NoDup_cons in Hext; tauto).
  assert (Hdisj : ∀ w, w ∈ wires_a → w ∉ ovf :: sup :: wires_res).
  { intros w Hw Hin. apply (Hfresh w Hw). apply elem_of_app. right. exact Hin. }
  destruct (Haux sup ltac:(left)) as (Hsa & Hsb & Hsr).
  destruct (Haux ovf ltac:(right; left)) as (Hoa & Hob & Hor).
  assert (Hz0 : ∀ w, w ∈ wires_res ++ [sup; ovf] → s0 !! w = Some (Basis false)).
  { intros w Hw. unfold s0.
    rewrite !lookup_BasisEmbedding_ne; [apply Hz, Hw| |];
      intros Hin; apply elem_of_app in Hw as [Hw|Hw];
      try (apply (Har w Hin Hw)); try (apply (Hbr w Hin Hw));
      destruct (Haux w Hw) as (? & ? & ?); contradiction. }
  assert (Hb' : 0 <= b < 2 ^ len wires_b) by (unfold len in *; rewrite Hlen; lia).
  pose proof (Z.mod_pos_bound (a + b) N ltac:(lia)) as Hr.
  eexists. split; [|split; [reflexivity|split; [|split; [|split]]]].
  - rewrite add_out_N_ok by (auto; lia). cbn [execute].
    erewrite run_app_Some.
    2:{ apply (run_copies wires_b wires_res (Zbits (length wires_b) b));
          [exact Hwr|exact Hbr|exact Hlen| |].
        - apply read_BasisEmbedding, Hwb.
        - intros w Hw. apply Hz0, elem_of_app. left. exact Hw. }
    rewrite Hlen. fold (BasisEmbedding b wires_res s0).
    assert (Hcomm : s0 = BasisEmbedding a wires_a (BasisEmbedding b wires_b s)).
    { unfold s0, BasisEmbedding. apply write_comm.
      intros w Hw Hin. apply (Hab w Hin Hw). }
    rewrite Hcomm.
    assert (Hso : ∀ w, w ∈ [sup; ovf] →
              BasisEmbedding b wires_b s !! w = Some (Basis false)).
    { intros w Hw. destruct (Haux w Hw) as (_ & H & _).
      rewrite lookup_BasisEmbedding_ne by exact H.
      apply Hz, elem_of_app. right. exact Hw. }
    rewrite (run_scaled_adder sup wires_res ovf N Hext
               ltac:(unfold len in Hfits; lia) 1 wires_a a b _ Hwa Hdisj
               (Hso ovf ltac:(right; left)) (Hso sup ltac:(left)) Ha Hb).
    rewrite Z.mul_1_l, (Z.add_comm b a). reflexivity.
  - unfold s0. rewrite !measure_BasisEmbedding_ne by assumption.
    apply measure_BasisEmbedding; assumption.
  - unfold s0. rewrite measure_BasisEmbedding_ne by exact Hbr.
    apply measure_BasisEmbedding; assumption.
  - apply measure_BasisEmbedding; [exact Hwr|]. lia.
  - apply measure_zeros. intros w Hw.
    rewrite lookup_BasisEmbedding_ne;
      [apply Hz0, elem_of_app; right; exact Hw|].
    destruct (Haux w Hw) as (_ & _ & H). exact H.
Qed.

Lemma add_out_N_correct_witness :
  let s0 := BasisEmbedding 3 [3; 4; 5]%nat
              (BasisEmbedding 1 [0; 1; 2]%nat (device 11)) in
  ∃ s', execute (add_out_N 5 [0; 1; 2]%nat [3; 4; 5]%nat [6; 7; 8]%nat
                   [9%nat] [10%nat]) s0 = Some s'
      ∧ s' = BasisEmbedding ((1 + 3) mod 5) [6; 7; 8]%nat s0
      ∧ measure s' [0; 1; 2]%nat = Some 1
      ∧ measure s' [3; 4; 5]%nat = Some 3
      ∧ measure s' [6; 7; 8]%nat = Some ((1 + 3) mod 5)
      ∧ measure s' [9; 10]%nat = Some 0.
Proof.
  apply (add_out_N_correct 5 1 3 [0; 1; 2]%nat [3; 4; 5]%nat [6; 7; 8]%nat
           9%nat 10%nat (device 11));
    [lia|by_compute|lia|by_compute|reflexivity|by_compute|by_compute].
Defined.

(** X8: a result register shorter than the second operand makes the copy
    loop of [add_out_N] index the result register beyond its end: with
    the wires apart the call raises [IndexError] before the adder is
    reached, whatever the modulus and the ancilla wires. *)
Theorem add_out_N_result_too_short (N : Z)
    (wires_a wires_b wires_res aux1 aux2 : list wire) :
  (length wires_res < length wires_b)%nat → NoDup (wires_b ++ wires_res) →
  add_out_N N wires_a wires_b wires_res aux1 aux2 = Raise IndexError
  ∧ ∀ s, execute (add_out_N N wires_a wires_b wires_res aux1 aux2) s = None.
Proof.
  intros Hlen _.
  assert (H : add_out_N N wires_a wires_b wires_res aux1 aux2 = Raise IndexError).
  { unfold add_out_N. rewrite copy_loop_beyond by lia. reflexivity. }
  rewrite H. split; reflexivity.
Qed.

Lemma add_out_N_result_too_short_witness :
  add_out_N 5 [0; 1; 2]%nat [3; 4; 5]%nat [6; 7]%nat [9%nat] [10%nat]
  = Raise IndexError.
Proof.
  apply (add_out_N_result_too_short 5 [0; 1; 2]%nat [3; 4; 5]%nat [6; 7]%nat
           [9%nat] [10%nat]);
    by_compute.
Defined.

(** ** mult_out_k_N *)

(** X9: on an operand register and a result register wide enough for
    the residues modulo [N], with the two ancilla wires at 0 and all wires
    apart, the circuit of [mult_out_k_N] leaves [a] in the operand register
    and adds [k * a] modulo [N] to the result register, for every integer
    [k] and every [a] the operand register can hold; the ancilla wires are
    back at 0. *)
Theorem mult_out_k_N_correct (N k a b : Z) (wires_a wires_b aux' : list wire)
    (x0 x1 : wire) (s : state) :
  0 < N → N <= 2 ^ len wires_b → 0 <= a < 2 ^ len wires_a → 0 <= b < N →
  NoDup (wires_a ++ wires_b ++ [x0; x1]) →
  s !! x0 = Some (Basis false) → s !! x1 = Some (Basis false) →
  ∃ s', execute (mult_out_k_N k N wires_a wires_b (x0 :: x1 :: aux'))
          (BasisEmbedding b wires_b (BasisEmbedding a wires_a s)) = Some s'
      ∧ s' = BasisEmbedding ((b + k * a) mod N) wires_b (BasisEmbedding a wires_a s)
      ∧ measure s' wires_a = Some a
      ∧ measure s' wires_b = Some ((b + k * a) mod N)
      ∧ measure s' [x0; x1] = Some 0.
Proof.
  intros HN Hfits Ha Hb Hnd Hx0 Hx1.
  destruct (copy_layout _ _ _ _ Hnd) as (Hwa & Hwb & Hext & Hdisj & Hab & H0 & H1).
  assert (Hx : x1 ∉ x0 :: wires_b) by (apply NoDup_cons in Hext; tauto).
  assert (Hx0' : x0 ∉ wires_b).
  { apply NoDup_cons in Hext as [_ H]. apply NoDup_cons in H; tauto. }
  pose proof (Z.mod_pos_bound (b + k * a) N ltac:(lia)) as Hr.
  eexists. split; [|split; [reflexivity|split; [|split]]].
  - rewrite mult_out_k_N_ok by (auto; lia). cbn [execute].
    apply (run_scaled_adder x0 wires_b x1 N Hext); auto.
  - rewrite measure_BasisEmbedding_ne by exact Hab.
    apply measure_BasisEmbedding; assumption.
  - apply measure_BasisEmbedding; [exact Hwb|]. lia.
  - apply measure_zeros. intros w Hw.
    apply elem_of_cons in Hw as [->|Hw].
    + rewrite !lookup_BasisEmbedding_ne by assumption. exact Hx0.
    + apply list_elem_of_singleton in Hw as ->.
      rewrite !lookup_BasisEmbedding_ne; [exact Hx1|exact H1|].
      intros Hin. apply Hx. right. exact Hin.
Qed.

Lemma mult_out_k_N_correct_witness :
  ∃ s', execute (mult_out_k_N 4 6 [0; 1; 2]%nat [3; 4; 5]%nat [6; 7]%nat)
          (BasisEmbedding 3 [3; 4; 5]%nat
             (BasisEmbedding 2 [0; 1; 2]%nat (device 8))) = Some s'
      ∧ s' = BasisEmbedding ((3 + 4 * 2) mod 6) [3; 4; 5]%nat
               (BasisEmbedding 2 [0; 1; 2]%nat (device 8))
      ∧ measure s' [0; 1; 2]%nat = Some 2
      ∧ measure s' [3; 4; 5]%nat = Some ((3 + 4 * 2) mod 6)
      ∧ measure s' [6; 7]%nat = Some 0.
Proof.
  apply (mult_out_k_N_correct 6 4 2 3 [0; 1; 2]%nat [3; 4; 5]%nat [] 6%nat 7%nat
           (device 8));
    [lia|by_compute|by_compute|lia|by_compute|reflexivity|reflexivity].
Defined.

Lemma subtract_back (N k a b : Z) :
  0 < N → 0 <= b < N → ((b - k * a) mod N + k * a) mod N = b.
Proof.
  intros HN Hb. rewrite Z.add_mod_idemp_l by lia.
  replace (b - k * a + k * a) with b by ring. apply Z.mod_small, Hb.
Qed.

Lemma subtract_complement (N k a b : Z) :
  0 < N → (b + (N - k) * a) mod N = (b - k * a) mod N.
Proof.
  intros HN. replace (b + (N - k) * a) with (b - k * a + a * N) by ring.
  apply Z.mod_add. lia.
Qed.

(** X10: the multiplier by [N - k] undoes the multiplier by [k].  From
    (a, b) the adjoint of the circuit of [mult_out_k_N(k, ...)] and the
    circuit of [mult_out_k_N(N - k, ...)] itself arrive at the same state,
    (a, (b - k * a) mod N); this is why the third step of [mult_in_k_N] can
    run the multiplier forward. *)
Theorem mult_out_k_N_complement (N k a b : Z) (wires_a wires_b aux' : list wire)
    (x0 x1 : wire) (s : state) :
  0 < N → N <= 2 ^ len wires_b → 0 <= a < 2 ^ len wires_a → 0 <= b < N →
  NoDup (wires_a ++ wires_b ++ [x0; x1]) → wf s →
  s !! x0 = Some (Basis false) → s !! x1 = Some (Basis false) →
  let aux := x0 :: x1 :: aux' in
  let s0 := BasisEmbedding b wires_b (BasisEmbedding a wires_a s) in
  let s1 := BasisEmbedding ((b - k * a) mod N) wires_b (BasisEmbedding a wires_a s) in
  execute (adjoint (mult_out_k_N k N wires_a wires_b aux)) s0 = Some s1
  ∧ execute (mult_out_k_N (N - k) N wires_a wires_b aux) s0 = Some s1
  ∧ execute (mult_out_k_N k N wires_a wires_b aux) s1 = Some s0.
Proof.
  intros HN Hfits Ha Hb Hnd Hwf Hx0 Hx1 aux s0 s1.
  destruct (copy_layout _ _ _ _ Hnd) as (Hwa & Hwb & Hext & Hdisj & Hab & H0 & H1).
  assert (Hx : x1 ∉ x0 :: wires_b) by (apply NoDup_cons in Hext; tauto).
  assert (Hfits' : 0 < N <= 2 ^ Z.of_nat (length wires_b))
    by (unfold len in Hfits; lia).
  pose proof (Z.mod_pos_bound (b - k * a) N ltac:(lia)) as Hr.
  assert (Hforth : run (scaled_adder k N wires_a (x0 :: wires_b) x1) s1 = Some s0).
  { unfold s0, s1.
    rewrite (run_scaled_adder x0 wires_b x1 N Hext Hfits' k wires_a a _ s)
      by auto.
    rewrite subtract_back by lia. reflexivity. }
  unfold aux. rewrite !mult_out_k_N_ok by (auto; lia). cbn [adjoint execute].
  split; [|split; [|exact Hforth]].
  - apply run_adjoint; [|exact Hforth].
    unfold s1. apply wf_BasisEmbedding, wf_BasisEmbedding, Hwf.
  - unfold s0, s1.
    rewrite (run_scaled_adder x0 wires_b x1 N Hext Hfits' (N - k) wires_a a b s)
      by auto.
    rewrite subtract_complement by lia. reflexivity.
Qed.

Lemma mult_out_k_N_complement_witness :
  let aux := [6; 7]%nat in
  let s0 := BasisEmbedding 3 [3; 4; 5]%nat
              (BasisEmbedding 2 [0; 1; 2]%nat (device 8)) in
  let s1 := BasisEmbedding ((3 - 4 * 2) mod 6) [3; 4; 5]%nat
              (BasisEmbedding 2 [0; 1; 2]%nat (device 8)) in
  execute (adjoint (mult_out_k_N 4 6 [0; 1; 2]%nat [3; 4; 5]%nat aux)) s0 = Some s1
  ∧ execute (mult_out_k_N (6 - 4) 6 [0; 1; 2]%nat [3; 4; 5]%nat aux) s0 = Some s1
  ∧ execute (mult_out_k_N 4 6 [0; 1; 2]%nat [3; 4; 5]%nat aux) s1 = Some s0.
Proof.
  apply (mult_out_k_N_complement 6 4 2 3 [0; 1; 2]%nat [3; 4; 5]%nat [] 6%nat
           7%nat (device 8));
    [lia|by_compute|by_compute|lia|by_compute|apply wf_device
    |reflexivity|reflexivity].
Defined.

(** ** Several controls *)

Lemma conflicts_none cs g : (∀ c, c ∈ cs → c ∉ op_wires g) → conflicts cs g = false.
Proof.
  intros H. unfold conflicts. apply not_true_is_false. intros Hex.
  apply existsb_exists in Hex as (c & Hc & Hin).
  apply bool_decide_eq_true_1 in Hin. apply (H c); [|exact Hin].
  apply list_elem_of_In, Hc.
Qed.

(** Controls in basis states select between the operators and nothing:
    the operators run when every control is at 1. *)
Lemma run_controlled_by_list ops cs bits (s : state) :
  (∀ g, g ∈ ops → ∀ c, c ∈ cs → c ∉ op_wires g) →
  read s cs = Some (Basis <$> bits) →
  run (controlled_by cs ops) s = if forallb id bits then run ops s else Some s.
Proof.
  revert s. induction ops as [|g ops IH]; intros s Hc Hs.
  - destruct (forallb id bits); reflexivity.
  - assert (Hg : ∀ c, c ∈ cs → c ∉ op_wires g) by (apply Hc; left).
    assert (Hops : ∀ g', g' ∈ ops → ∀ c, c ∈ cs → c ∉ op_wires g')
      by (intros g' Hg'; apply Hc; right; exact Hg').
    change (controlled_by cs (g :: ops))
      with (Controlled g cs :: controlled_by cs ops).
    cbn [run run_op]. rewrite conflicts_none, Hs by exact Hg. simpl.
    rewrite as_bits_Basis. simpl.
    destruct (forallb id bits) eqn:Hall.
    + destruct (run_op g s) as [s'|] eqn:Hrun; [|reflexivity]. simpl.
      apply (IH s' Hops).
      rewrite <- Hs. apply read_ext. intros w Hw.
      apply (run_op_frame _ _ _ _ Hrun), Hg, Hw.
    + simpl. apply (IH s Hops Hs).
Qed.

Lemma ctrl_Ok_list out ops cs :
  (∀ g, g ∈ ops → ∀ c, c ∈ cs → c ∉ op_wires g) →
  ctrl (Ok tt out ops) cs = Ok tt out (controlled_by cs ops).
Proof.
  intros H. unfold ctrl.
  replace (existsb (conflicts cs) ops) with false; [reflexivity|].
  symmetry. apply not_true_is_false. intros Hex.
  apply existsb_exists in Hex as (g & Hg & Hcon).
  rewrite conflicts_none in Hcon; [discriminate|].
  apply H, list_elem_of_In, Hg.
Qed.

(** ** mult_out_N *)

Lemma doubly_controlled_adders_imap e N w wb ext x j :
  concat (imap (λ i w', controlled_by [w; w']
                 (adder_ops
                    (2 ^ (e + (Z.of_nat (j + length wb) - Z.of_nat (j + i) - 1))
                     mod N) N ext x false)) wb)
  = doubly_controlled_adders e N w wb ext x.
Proof.
  revert j. induction wb as [|w' wb IH]; intros j; [reflexivity|].
  cbn [imap concat length doubly_controlled_adders]. f_equal.
  - do 5 f_equal. unfold len. lia.
  - rewrite <- (IH (S j)). f_equal. apply imap_ext. intros i w'' _.
    unfold compose. do 5 f_equal. lia.
Qed.

Lemma product_adders_imap N wa wb ext x j :
  concat (imap (λ i w, doubly_controlled_adders
                 (Z.of_nat (j + length wa) - Z.of_nat (j + i) - 1)
                 N w wb ext x) wa)
  = product_adders N wa wb ext x.
Proof.
  revert j. induction wa as [|w wa IH]; intros j; [reflexivity|].
  cbn [imap concat length product_adders]. f_equal.
  - f_equal. unfold len. lia.
  - rewrite <- (IH (S j)). f_equal. apply imap_ext. intros i w' _.
    unfold compose. f_equal. lia.
Qed.

Lemma mult_out_N_ok N wa wb wr x0 x1 aux' :
  N ≠ 0 → x1 ∉ x0 :: wr →
  (∀ w, w ∈ wa ++ wb → w ∉ x1 :: x0 :: wr) →
  mult_out_N N wa wb wr (x0 :: x1 :: aux')
  = Ok tt [] (product_ops N wa wb (x0 :: wr) x1).
Proof.
  intros HN Hx Hfresh. unfold mult_out_N.
  rewrite py_index_head, bind_mret. cbn [app].
  rewrite (for_each_range wa _ (λ _ _, [])
             (λ i w, doubly_controlled_adders (len wa - Z.of_nat i - 1)
                       N w wb (x0 :: wr) x1)).
  - rewrite concat_imap_nil. unfold product_ops.
    rewrite <- (product_adders_imap N wa wb (x0 :: wr) x1 0). reflexivity.
  - intros i w Hi. cbv zeta.
    rewrite (for_each_range wb _ (λ _ _, [])
               (λ j w', controlled_by [w; w']
                  (adder_ops
                     (2 ^ (len wa - Z.of_nat i - 1 + (len wb - Z.of_nat j - 1))
                      mod N) N (x0 :: wr) x1 false))).
    + rewrite concat_imap_nil.
      rewrite <- (doubly_controlled_adders_imap _ N w wb (x0 :: wr) x1 0).
      reflexivity.
    + intros j w' Hj.
      rewrite py_mod_ok, bind_mret by exact HN.
      rewrite (py_index_nat _ _ _ Hi), bind_mret.
      rewrite (py_index_nat _ _ _ Hj), bind_mret.
      rewrite py_index_second, bind_mret.
      rewrite add_in_k_N_ok by exact Hx.
      apply ctrl_Ok_list. intros g Hg c Hc.
      refine (within_fresh (x1 :: x0 :: wr) _ c (within_adder_ops _ _ _ _ _ _)
                _ g Hg).
      apply Hfresh, elem_of_app.
      apply elem_of_cons in Hc as [->|Hc];
        [left; eapply list_elem_of_lookup_2, Hi|].
      apply list_elem_of_singleton in Hc as ->.
      right. eapply list_elem_of_lookup_2, Hj.
Qed.

Section ProductAdders.
Variables (e0 : wire) (ext' : list wire) (x : wire) (N : Z).
Let ext := e0 :: ext'.
Hypothesis wires_NoDup : NoDup (x :: ext).
Hypothesis N_fits : 0 < N <= 2 ^ Z.of_nat (length ext').

(** The inner loop of [mult_out_N]: the second operand times the weight
    of the wire [w], if that wire is at 1. *)
Lemma run_doubly_controlled_adders e w (ba : bool) wb bbits v s :
  0 <= e → w ∉ x :: ext → (∀ w', w' ∈ wb → w' ∉ x :: ext) →
  s !! w = Some (Basis ba) → read s wb = Some (Basis <$> bbits) →
  s !! x = Some (Basis false) → 0 <= v < N →
  run (doubly_controlled_adders e N w wb ext x)
    (write ext (fourier (length ext) v) s)
  = Some (write ext
            (fourier (length ext)
               ((v + Z.b2z ba * 2 ^ e * bits_value bbits) mod N)) s).
Proof.
  intros He Hw. revert bbits v.
  induction wb as [|w' wb IH]; intros bbits v Hwb Hba Hread Hx Hv.
  - destruct bbits; [|discriminate]. simpl.
    unfold bits_value, binary_to_integer. simpl.
    rewrite Z.mul_0_r, Z.add_0_r, Z.mod_small by lia. reflexivity.
  - rewrite read_cons in Hread.
    destruct (s !! w') as [q|] eqn:Hw'; [|discriminate]. simpl in Hread.
    destruct (read s wb) as [qs|] eqn:Hr; [|discriminate].
    destruct bbits as [|b bbits]; [discriminate|].
    injection Hread as -> ->.
    assert (Hfw : w' ∉ x :: ext) by (apply Hwb; left).
    assert (Hwb' : ∀ w'', w'' ∈ wb → w'' ∉ x :: ext)
      by (intros w'' Hw''; apply Hwb; right; exact Hw'').
    assert (Hlen : len wb = len bbits).
    { unfold len. f_equal. apply read_length in Hr.
      rewrite length_fmap in Hr. congruence. }
    cbn [doubly_controlled_adders].
    set (value := 2 ^ (e + len wb) mod N).
    assert (Hvalue : 0 <= value < N) by (apply Z.mod_pos_bound; lia).
    assert (Hstep :
      run (controlled_by [w; w'] (adder_ops value N ext x false))
        (write ext (fourier (length ext) v) s)
      = Some (write ext
                (fourier (length ext)
                   (if ba && b then (v + value) mod N else v)) s)).
    { rewrite (run_controlled_by_list _ [w; w'] [ba; b]).
      - cbn [forallb id]. rewrite andb_true_r.
        destruct (ba && b); [|reflexivity].
        apply (run_adder_core e0 ext' x wires_NoDup value N v s Hx Hv Hvalue).
        lia.
      - intros g Hg c Hc.
        apply (within_fresh (x :: ext) _ c (within_adder_ops _ _ _ _ _ _)
                 ltac:(apply elem_of_cons in Hc as [->|Hc];
                       [exact Hw|
                        apply list_elem_of_singleton in Hc as ->; exact Hfw])
                 g Hg).
      - unfold read. cbn [mapM].
        rewrite !lookup_write_ne, Hba, Hw';
          [reflexivity| |];
          intros Hin; [apply Hw|apply Hfw]; right; exact Hin. }
    rewrite (run_app_Some _ _ _ _ Hstep).
    rewrite bits_value_cons, <- Hlen.
    assert (Hlen0 : 0 <= len wb) by (unfold len; lia).
    destruct ba, b; cbn [andb Z.b2z].
    + rewrite (IH bbits ((v + value) mod N) Hwb' Hba eq_refl Hx)
        by (apply Z.mod_pos_bound; lia).
      unfold value. cbn [Z.b2z]. rewrite mod_add_chain by lia.
      rewrite Z.pow_add_r by lia. f_equal; f_equal; f_equal; f_equal; ring.
    + rewrite (IH bbits v Hwb' Hba eq_refl Hx Hv). cbn [Z.b2z].
      f_equal; f_equal; f_equal; f_equal; ring.
    + rewrite (IH bbits v Hwb' Hba eq_refl Hx Hv). cbn [Z.b2z].
      f_equal; f_equal; f_equal; f_equal; ring.
    + rewrite (IH bbits v Hwb' Hba eq_refl Hx Hv). cbn [Z.b2z].
      f_equal; f_equal; f_equal; f_equal; ring.
Qed.

(** The two loops: the product of the operands. *)
Lemma run_product_adders wa abits wb bbits v s :
  (∀ w, w ∈ wa → w ∉ x :: ext) → (∀ w, w ∈ wb → w ∉ x :: ext) →
  read s wa = Some (Basis <$> abits) → read s wb = Some (Basis <$> bbits) →
  s !! x = Some (Basis false) → 0 <= v < N →
  run (product_adders N wa wb ext x) (write ext (fourier (length ext) v) s)
  = Some (write ext
            (fourier (length ext)
               ((v + bits_value abits * bits_value bbits) mod N)) s).
Proof.
  revert abits v.
  induction wa as [|w wa IH]; intros abits v Hwa Hwb Hra Hrb Hx Hv.
  - destruct abits; [|discriminate]. simpl.
    unfold bits_value at 1, binary_to_integer. simpl.
    rewrite Z.add_0_r, Z.mod_small by lia. reflexivity.
  - rewrite read_cons in Hra.
    destruct (s !! w) as [q|] eqn:Hw; [|discriminate]. simpl in Hra.
    destruct (read s wa) as [qs|] eqn:Hr; [|discriminate].
    destruct abits as [|ba abits]; [discriminate|].
    injection Hra as -> ->.
    assert (Hlen : len wa = len abits).
    { unfold len. f_equal. apply read_length in Hr.
      rewrite length_fmap in Hr. congruence. }
    assert (Hlen0 : 0 <= len wa) by (unfold len; lia).
    cbn [product_adders].
    rewrite (run_app_Some _ _ _ _
               (run_doubly_controlled_adders (len wa) w ba wb bbits v s Hlen0
                  (Hwa w ltac:(left)) Hwb Hw Hrb Hx Hv)).
    rewrite (IH abits _ (λ w' Hw', Hwa w' ltac:(right; exact Hw')) Hwb
               eq_refl Hrb Hx)
      by (apply Z.mod_pos_bound; lia).
    rewrite bits_value_cons, <- Hlen, Z.add_mod_idemp_l by lia.
    f_equal; f_equal; f_equal; f_equal; ring.
Qed.

Lemma run_product_ops wa wb a b r s :
  NoDup wa → NoDup wb → (∀ w, w ∈ wa → w ∉ wb) →
  (∀ w, w ∈ wa ++ wb → w ∉ x :: ext) →
  s !! x = Some (Basis false) → s !! e0 = Some (Basis false) →
  0 <= a < 2 ^ len wa → 0 <= b < 2 ^ len wb → 0 <= r < N →
  let sab := BasisEmbedding b wb (BasisEmbedding a wa s) in
  run (product_ops N wa wb ext x) (BasisEmbedding r ext' sab)
  = Some (BasisEmbedding ((r + a * b) mod N) ext' sab).
Proof.
  intros Hwa Hwb Hab Hfresh Hx He Ha Hb Hr sab.
  assert (Hext : NoDup ext) by (apply NoDup_cons in wires_NoDup; tauto).
  assert (Hfa : ∀ w, w ∈ wa → w ∉ x :: ext)
    by (intros w Hw; apply Hfresh, elem_of_app; left; exact Hw).
  assert (Hfb : ∀ w, w ∈ wb → w ∉ x :: ext)
    by (intros w Hw; apply Hfresh, elem_of_app; right; exact Hw).
  assert (Hout : ∀ w, w ∈ x :: ext → sab !! w = s !! w).
  { intros w Hw. unfold sab. rewrite !lookup_BasisEmbedding_ne; [reflexivity| |];
      intros Hin; [apply (Hfa w Hin Hw)|apply (Hfb w Hin Hw)]. }
  assert (Hxs : sab !! x = Some (Basis false)) by (rewrite Hout; [exact Hx|left]).
  assert (Hes : sab !! e0 = Some (Basis false))
    by (rewrite Hout; [exact He|right; left]).
  assert (Hra : read sab wa = Some (Basis <$> Zbits (length wa) a)).
  { unfold sab, BasisEmbedding at 1. rewrite read_write_ne by exact Hab.
    apply read_BasisEmbedding, Hwa. }
  assert (Hrb : read sab wb = Some (Basis <$> Zbits (length wb) b))
    by (apply read_BasisEmbedding, Hwb).
  pose proof (Z.mod_pos_bound (r + a * b) N ltac:(lia)) as Hres.
  unfold BasisEmbedding at 1 2.
  rewrite <- !(write_extended e0 ext' x wires_NoDup) by (auto || lia).
  unfold product_ops.
  erewrite run_cons_Some; [|apply run_QFT; [exact Hext|apply Zbits_length]].
  rewrite bits_value_Zbits, fourier_mod.
  erewrite run_app_Some;
    [|apply (run_product_adders wa _ wb _ r sab Hfa Hfb Hra Hrb Hxs Hr)].
  rewrite !bits_value_Zbits, (Z.mod_small a), (Z.mod_small b) by assumption.
  erewrite run_cons_Some; [reflexivity|]. apply run_QFTdg, Hext.
Qed.
End ProductAdders.

(** X11: on two operand registers and a result register wide enough for
    the residues modulo [N], with the two ancilla wires at 0 and all wires
    apart, the circuit of [mult_out_N] leaves [a] and [b] in the operand
    registers and adds their product modulo [N] to the result register:
    from (a, b, r) to (a, b, (r + a * b) mod N); the ancilla wires are back
    at 0. *)
Theorem mult_out_N_correct (N a b r : Z) (wires_a wires_b wires_res aux' : list wire)
    (x0 x1 : wire) (s : state) :
  0 < N → N <= 2 ^ len wires_res →
  0 <= a < 2 ^ len wires_a → 0 <= b < 2 ^ len wires_b → 0 <= r < N →
  NoDup (wires_a ++ wires_b ++ wires_res ++ [x0; x1]) →
  s !! x0 = Some (Basis false) → s !! x1 = Some (Basis false) →
  let sab := BasisEmbedding b wires_b (BasisEmbedding a wires_a s) in
  ∃ s', execute (mult_out_N N wires_a wires_b wires_res (x0 :: x1 :: aux'))
          (BasisEmbedding r wires_res sab) = Some s'
      ∧ s' = BasisEmbedding ((r + a * b) mod N) wires_res sab
      ∧ measure s' wires_a = Some a
      ∧ measure s' wires_b = Some b
      ∧ measure s' wires_res = Some ((r + a * b) mod N)
      ∧ measure s' [x0; x1] = Some 0.
Proof.
  intros HN Hfits Ha Hb Hr Hnd Hx0 Hx1 sab.
  destruct (exponent_layout _ _ _ _ _ Hnd)
    as (Hwa & Hwb & Hrest & Hfresh & Hab & Har & Hbr & Haux).
  destruct (copy_layout _ _ _ _ Hrest) as (_ & Hwr & Hext & Hfb & _ & _ & _).
  assert (Hx : x1 ∉ x0 :: wires_res) by (apply NoDup_cons in Hext; tauto).
  assert (Hall : ∀ w, w ∈ wires_a ++ wires_b → w ∉ x1 :: x0 :: wires_res).
  { intros w Hw. apply elem_of_app in Hw as [Hw|Hw]; [|apply Hfb, Hw].
    intros Hin. apply (Hfresh w Hw). apply elem_of_app. right. exact Hin. }
  pose proof (Z.mod_pos_bound (r + a * b) N ltac:(lia)) as Hres.
  eexists. split; [|split; [reflexivity|split; [|split; [|split]]]].
  - rewrite mult_out_N_ok by (auto; lia). cbn [execute].
    apply (run_product_ops x0 wires_res x1 N Hext); auto.
  - unfold sab. rewrite !measure_BasisEmbedding_ne by assumption.
    apply measure_BasisEmbedding; assumption.
  - unfold sab. rewrite measure_BasisEmbedding_ne by exact Hbr.
    apply measure_BasisEmbedding; assumption.
  - apply measure_BasisEmbedding; [exact Hwr|]. lia.
  - apply measure_zeros. intros w Hw. destruct (Haux w Hw) as (H1 & H2 & H3).
    unfold sab. rewrite !lookup_BasisEmbedding_ne by assumption.
    apply elem_of_cons in Hw as [->|Hw]; [exact Hx0|].
    apply list_elem_of_singleton in Hw as ->. exact Hx1.
Qed.

Lemma mult_out_N_correct_witness :
  let sab := BasisEmbedding 5 [3; 4; 5]%nat
               (BasisEmbedding 3 [0; 1; 2]%nat (device 11)) in
  ∃ s', execute (mult_out_N 7 [0; 1; 2]%nat [3; 4; 5]%nat [6; 7; 8]%nat
                   [9; 10]%nat)
          (BasisEmbedding 0 [6; 7; 8]%nat sab) = Some s'
      ∧ s' = BasisEmbedding ((0 + 3 * 5) mod 7) [6; 7; 8]%nat sab
      ∧ measure s' [0; 1; 2]%nat = Some 3
      ∧ measure s' [3; 4; 5]%nat = Some 5
      ∧ measure s' [6; 7; 8]%nat = Some ((0 + 3 * 5) mod 7)
      ∧ measure s' [9; 10]%nat = Some 0.
Proof.
  apply (mult_out_N_correct 7 3 5 0 [0; 1; 2]%nat [3; 4; 5]%nat [6; 7; 8]%nat
           [] 9%nat 10%nat (device 11));
    [lia|by_compute|by_compute|by_compute|lia|by_compute
    |reflexivity|reflexivity].
Defined.

(** X12: [mult_out_N] has no test on the ancilla wires, unlike
    [mult_out_k_N], which prints and returns: with fewer than two ancilla
    wires, a modulus other than 0, operand registers that are not empty
    and the wires apart, the call raises [IndexError], where
    [mult_out_k_N] on the same ancilla wires queues nothing and prints
    its line. *)
Theorem mult_out_N_too_few_ancillas (N k : Z)
    (wires_a wires_b wires_res wires_aux : list wire) :
  len wires_aux < 2 → N ≠ 0 → wires_a ≠ [] → wires_b ≠ [] →
  NoDup (wires_a ++ wires_b ++ wires_res ++ wires_aux) →
  mult_out_N N wires_a wires_b wires_res wires_aux = Raise IndexError
  ∧ mult_out_k_N k N wires_a wires_b wires_aux
    = Ok tt ["Not enough ancillary qubits"] [].
Proof.
  intros Haux HN Ha Hb _. split.
  - unfold mult_out_N.
    destruct wires_aux as [|x0 [|x1 aux']]; [reflexivity| |].
    2:{ unfold len in Haux. simpl in Haux. lia. }
    rewrite py_index_head, bind_mret.
    destruct wires_a as [|a wa]; [contradiction|].
    destruct wires_b as [|b wb]; [contradiction|].
    cbn [length range seq for_each].
    rewrite py_mod_ok, bind_mret by exact HN.
    rewrite !py_index_head, !bind_mret.
    reflexivity.
  - unfold mult_out_k_N.
    destruct (Z.ltb_spec (len wires_aux) 2) as [_|]; [reflexivity|lia].
Qed.

Lemma mult_out_N_too_few_ancillas_witness :
  mult_out_N 7 [0; 1; 2]%nat [3; 4; 5]%nat [6; 7; 8]%nat [9%nat] = Raise IndexError
  ∧ mult_out_k_N 3 7 [0; 1; 2]%nat [3; 4; 5]%nat [9%nat]
    = Ok tt ["Not enough ancillary qubits"] [].
Proof.
  apply (mult_out_N_too_few_ancillas 7 3 [0; 1; 2]%nat [3; 4; 5]%nat
           [6; 7; 8]%nat [9%nat]);
    [by_compute|lia|by_compute|by_compute|by_compute].
Defined.

(** ** The adjoint of the constant adder *)

Lemma add_back (N k a : Z) :
  0 < N → 0 <= a < N → ((a - k) mod N + k) mod N = a.
Proof.
  intros HN Ha. rewrite Z.add_mod_idemp_l by lia.
  replace (a - k + k) with a by ring. apply Z.mod_small, Ha.
Qed.

Lemma add_opposite (N k a : Z) :
  0 < N → (a + (- k) mod N) mod N = (a - k) mod N.
Proof.
  intros HN. rewrite Z.add_mod_idemp_r by lia. reflexivity.
Qed.

(** X13: the adjoint of the circuit of [add_in_k_N] subtracts: on a
    register with one spare top wire it takes [a < N] to [(a - k) mod N],
    as the circuit of [add_in_k_N] for the constant [(-k) mod N] does, and
    the circuit for [k] leads back to [a]. *)
Theorem add_in_k_N_adjoint_subtracts (N k a : Z) (wires_a wires_aux : list wire)
    (x0 : wire) (s : state) :
  0 <= k < N → 0 <= a < N → N <= 2 ^ (len wires_a - 1) →
  head wires_aux = Some x0 → NoDup (x0 :: wires_a) → wf s →
  s !! x0 = Some (Basis false) →
  let s0 := BasisEmbedding a wires_a s in
  let s1 := BasisEmbedding ((a - k) mod N) wires_a s in
  execute (adjoint (add_in_k_N k N wires_a wires_aux true)) s0 = Some s1
  ∧ execute (add_in_k_N ((- k) mod N) N wires_a wires_aux true) s0 = Some s1
  ∧ execute (add_in_k_N k N wires_a wires_aux true) s1 = Some s0.
Proof.
  intros Hk Ha Hwidth Haux Hnd Hwf Hx s0 s1.
  destruct wires_aux as [|x aux']; [discriminate|]. injection Haux as ->.
  destruct wires_a as [|w0 ws'].
  { exfalso. unfold len in Hwidth. simpl in Hwidth. lia. }
  assert (Hfresh : x0 ∉ w0 :: ws') by (apply NoDup_cons in Hnd; tauto).
  assert (Hw : N <= 2 ^ Z.of_nat (length ws')).
  { revert Hwidth. unfold len. cbn [length]. rewrite Nat2Z.inj_succ.
    replace (Z.succ (Z.of_nat (length ws')) - 1) with (Z.of_nat (length ws'))
      by lia. trivial. }
  pose proof (Z.mod_pos_bound (a - k) N ltac:(lia)) as Hr.
  pose proof (Z.mod_pos_bound (- k) N ltac:(lia)) as Hopp.
  assert (Hforth : run (adder_ops k N (w0 :: ws') x0 true) s1 = Some s0).
  { unfold s0, s1. rewrite run_adder_std by assumption.
    rewrite add_back by lia. reflexivity. }
  rewrite !add_in_k_N_ok by exact Hfresh. cbn [adjoint execute].
  split; [|split; [|exact Hforth]].
  - apply run_adjoint; [|exact Hforth]. apply wf_BasisEmbedding, Hwf.
  - unfold s0, s1. rewrite run_adder_std by assumption.
    rewrite add_opposite by lia. reflexivity.
Qed.

Lemma add_in_k_N_adjoint_subtracts_witness :
  let s0 := BasisEmbedding 2 [0; 1; 2; 3]%nat (device 10) in
  let s1 := BasisEmbedding ((2 - 3) mod 5) [0; 1; 2; 3]%nat (device 10) in
  execute (adjoint (add_in_k_N 3 5 [0; 1; 2; 3]%nat [4%nat] true)) s0 = Some s1
  ∧ execute (add_in_k_N ((- 3) mod 5) 5 [0; 1; 2; 3]%nat [4%nat] true) s0 = Some s1
  ∧ execute (add_in_k_N 3 5 [0; 1; 2; 3]%nat [4%nat] true) s1 = Some s0.
Proof.
  apply (add_in_k_N_adjoint_subtracts 5 3 2 [0; 1; 2; 3]%nat [4%nat] 4%nat
           (device 10));
    [lia|lia|by_compute|reflexivity|by_compute|apply wf_device|reflexivity].
Defined.

(** ** Calls that cannot succeed *)

Lemma add_in_k_N_no_overflow_wire k N w0 ws' std :
  add_in_k_N k N (w0 :: ws') [] std = Raise IndexError.
Proof.
  unfold add_in_k_N. rewrite !sum_k_ok, !adjoint_Ok.
  destruct std; reflexivity.
Qed.

(** X14: the adders index their overflow wire: without one, the constant
    adder on a register that is not empty raises [IndexError], in either
    basis, and so does the register adder whose operand register is not
    empty ([N] other than 0).  The constants are within the range where
    the rotations queued before the overflow wire is indexed are built:
    [k] and [N] of at most [2^53] in absolute value, registers of at most
    1024 wires. *)
Theorem adders_need_overflow_wire (k N : Z) (wires_a wires_b aux1 : list wire)
    (is_in_standard_basis : bool) :
  wires_a ≠ [] → NoDup wires_a → NoDup (aux1 ++ wires_b) → aux1 ++ wires_b ≠ [] →
  N ≠ 0 →
  float_range k wires_a → float_range N wires_a →
  float_range N (aux1 ++ wires_b) →
  add_in_k_N k N wires_a [] is_in_standard_basis = Raise IndexError
  ∧ add_in_N N wires_a wires_b aux1 [] = Raise IndexError.
Proof.
  intros Ha _ _ Hb HN _ _ _.
  destruct wires_a as [|w0 ws']; [contradiction|].
  split; [apply add_in_k_N_no_overflow_wire|].
  unfold add_in_N. destruct (aux1 ++ wires_b) as [|e0 ext']; [contradiction|].
  cbn [length range seq for_each].
  rewrite py_mod_ok, bind_mret, py_index_head, bind_mret by exact HN.
  rewrite add_in_k_N_no_overflow_wire. reflexivity.
Qed.

Lemma adders_need_overflow_wire_witness :
  add_in_k_N 3 5 [0; 1; 2; 3]%nat [] true = Raise IndexError
  ∧ add_in_N 5 [0; 1; 2]%nat [3; 4; 5]%nat [6%nat] [] = Raise IndexError.
Proof.
  apply (adders_need_overflow_wire 3 5 [0; 1; 2; 3]%nat [3; 4; 5]%nat [6%nat]
           true);
    [by_compute|by_compute|by_compute|by_compute|lia
    |by_compute|by_compute|by_compute].
Defined.

(** X15: with the modulus 0 the register operators cannot be built:
    [add_in_N], [mult_out_k_N] and [mult_out_N] raise [ZeroDivisionError]
    at the first constant of their loop, and [mult_in_k_N] raises
    [ValueError] from [pow(k, -2, 0)]; the registers are not empty, the
    ancilla wires are enough and the wires are apart. *)
Theorem modulus_zero (k : Z) (wires_a wires_b wires_res aux1 aux2 aux' : list wire)
    (x0 x1 : wire) :
  wires_a ≠ [] → wires_b ≠ [] → length wires_a = length wires_b →
  NoDup (wires_a ++ wires_b ++ wires_res ++ aux1 ++ aux2 ++ [x0; x1]) →
  add_in_N 0 wires_a wires_b aux1 aux2 = Raise ZeroDivisionError
  ∧ mult_out_k_N k 0 wires_a wires_b (x0 :: x1 :: aux') = Raise ZeroDivisionError
  ∧ mult_out_N 0 wires_a wires_b wires_res (x0 :: x1 :: aux')
    = Raise ZeroDivisionError
  ∧ mult_in_k_N k 0 wires_a wires_b (x0 :: x1 :: aux') = Raise ValueError.
Proof.
  intros Ha Hb Hlen _.
  destruct wires_a as [|a wa]; [contradiction|].
  destruct wires_b as [|b wb]; [contradiction|].
  repeat split.
  - unfold mult_out_k_N. rewrite two_ancillas. reflexivity.
  - unfold mult_in_k_N. rewrite two_ancillas. unfold len. rewrite Hlen.
    rewrite Z.eqb_refl. reflexivity.
Qed.

Lemma modulus_zero_witness :
  add_in_N 0 [0; 1; 2]%nat [3; 4; 5]%nat [6%nat] [7%nat] = Raise ZeroDivisionError
  ∧ mult_out_k_N 3 0 [0; 1; 2]%nat [3; 4; 5]%nat [9; 10]%nat
    = Raise ZeroDivisionError
  ∧ mult_out_N 0 [0; 1; 2]%nat [3; 4; 5]%nat [11; 12; 13]%nat [9; 10]%nat
    = Raise ZeroDivisionError
  ∧ mult_in_k_N 3 0 [0; 1; 2]%nat [3; 4; 5]%nat [9; 10]%nat = Raise ValueError.
Proof.
  apply (modulus_zero 3 [0; 1; 2]%nat [3; 4; 5]%nat [11; 12; 13]%nat [6%nat]
           [7%nat] [] 9%nat 10%nat);
    [by_compute|by_compute|reflexivity|by_compute].
Defined.

(** ** The size of the circuits *)








(** ** Exp_a_N on a base that shares a factor with the modulus *)

Lemma passes_coprime k N : N ≠ 0 → passes k N → Z.gcd k N = 1.
Proof.
  unfold passes. intros HN H.
  assert (Hdiv : (Z.gcd k N | 1)).
  { rewrite <- H, Z.mod_eq by exact HN.
    apply Z.divide_sub_r.
    - apply Z.divide_mul_r, Z.gcd_divide_l.
    - apply Z.divide_mul_l, Z.gcd_divide_r. }
  apply Z.divide_1_r_nonneg in Hdiv; [exact Hdiv|apply Z.gcd_nonneg].
Qed.

Lemma power_not_coprime a N e : 0 < e → Z.gcd a N ≠ 1 → Z.gcd (a ^ e) N ≠ 1.
Proof.
  intros He Ha Hpow. apply Ha.
  assert (Hdiv : (Z.gcd a N | Z.gcd (a ^ e) N)).
  { apply Z.gcd_greatest; [|apply Z.gcd_divide_r].
    replace e with (Z.succ (e - 1)) by lia. rewrite Z.pow_succ_r by lia.
    apply Z.divide_mul_l, Z.gcd_divide_l. }
  rewrite Hpow in Hdiv.
  apply Z.divide_1_r_nonneg in Hdiv; [exact Hdiv|apply Z.gcd_nonneg].
Qed.

Lemma concat_imap_singleton {A B} (f : nat → B) (l : list A) :
  concat (imap (λ i _, [f i]) l) = f <$> seq 0 (length l).
Proof.
  revert f. induction l as [|x l IH]; intros f; [reflexivity|].
  cbn [imap concat length seq fmap list_fmap app]. f_equal.
  rewrite <- fmap_S_seq, <- list_fmap_compose. apply (IH (f ∘ S)).
Qed.

(** X17: when the base shares a factor with the modulus, every constant
    of the loop of [Exp_a_N] fails the test of [mult_in_k_N]: the call
    prints one line per wire of the exponent, queues the flip of the last
    result wire and nothing else, and the result register reads 1 whatever
    the exponent. *)
Theorem Exp_a_N_common_factor (N a x : Z)
    (wires_x wires_res wires_support aux' : list wire) (x0 x1 : wire) (s : state) :
  2 <= N → Z.gcd a N ≠ 1 → 0 <= x < 2 ^ len wires_x →
  length wires_res = length wires_support → wires_res ≠ [] →
  NoDup (wires_x ++ wires_res ++ wires_support ++ [x0; x1]) →
  let n := len wires_x in
  let aux := x0 :: x1 :: aux' in
  let sx := BasisEmbedding x wires_x s in
  ∃ r0,
    last wires_res = Some r0
    ∧ Exp_a_N a N wires_x wires_res wires_support aux
      = Ok tt ((λ i, fallo (a ^ (2 ^ (n - Z.of_nat i - 1))) N) <$> range (length wires_x))
          [PauliX r0]
    ∧ execute (Exp_a_N a N wires_x wires_res wires_support aux)
        (BasisEmbedding 0 wires_res sx)
      = Some (BasisEmbedding 1 wires_res sx)
    ∧ measure (BasisEmbedding 1 wires_res sx) wires_res = Some 1.
Proof.
  intros HN Ha Hx Hlen Hres Hnd n aux sx.
  destruct (exponent_layout _ _ _ _ _ Hnd)
    as (Hwx & Hnres & _ & _ & Hxr & _ & _ & _).
  destruct (last wires_res) as [r0|] eqn:Hlast;
    [|apply last_None in Hlast; contradiction].
  assert (Hok : Exp_a_N a N wires_x wires_res wires_support aux
    = Ok tt ((λ i, fallo (a ^ (2 ^ (n - Z.of_nat i - 1))) N)
               <$> range (length wires_x)) [PauliX r0]).
  { unfold Exp_a_N. cbv zeta.
    rewrite (py_index_last _ _ Hlast), bind_mret.
    rewrite (for_each_range wires_x _
               (λ i _, [fallo (a ^ (2 ^ (n - Z.of_nat i - 1))) N])
               (λ _ _, [])).
    - rewrite (concat_imap_singleton
                 (λ i, fallo (a ^ (2 ^ (n - Z.of_nat i - 1))) N) wires_x).
      replace (concat (imap (λ _ _, []) wires_x)) with (@nil Op)
        by (clear; induction wires_x; [reflexivity|assumption]).
      reflexivity.
    - intros i w Hi. rewrite (py_index_nat _ _ _ Hi), bind_mret.
      pose proof (lookup_lt_Some _ _ _ Hi) as Hlt.
      rewrite mult_in_k_N_reject; [reflexivity|exact HN| |].
      + apply short_of_wires_false, Hlen.
      + intros Hpass. apply passes_coprime in Hpass; [|lia]. revert Hpass.
        apply power_not_coprime; [|exact Ha].
        apply Z.pow_pos_nonneg; [lia|]. unfold n, len. lia. }
  exists r0. split; [reflexivity|]. split; [exact Hok|]. split.
  - rewrite Hok. cbn [execute run].
    rewrite (run_PauliX_last wires_res r0 sx Hnres Hlast). reflexivity.
  - apply measure_BasisEmbedding; [exact Hnres|].
    split; [lia|]. destruct wires_res as [|r res']; [contradiction|].
    unfold len. cbn [length]. rewrite Nat2Z.inj_succ, Z.pow_succ_r by lia.
    pose proof (Z.pow_pos_nonneg 2 (Z.of_nat (length res')) ltac:(lia) ltac:(lia)).
    lia.
Qed.

Lemma Exp_a_N_common_factor_witness :
  ∃ r0,
    last [3; 4; 5]%nat = Some r0
    ∧ Exp_a_N 2 6 [0; 1; 2]%nat [3; 4; 5]%nat [6; 7; 8]%nat [9; 10]%nat
      = Ok tt ((λ i, fallo (2 ^ (2 ^ (len [0; 1; 2]%nat - Z.of_nat i - 1))) 6)
                 <$> range 3) [PauliX r0]
    ∧ execute (Exp_a_N 2 6 [0; 1; 2]%nat [3; 4; 5]%nat [6; 7; 8]%nat [9; 10]%nat)
        (BasisEmbedding 0 [3; 4; 5]%nat (BasisEmbedding 3 [0; 1; 2]%nat (device 11)))
      = Some (BasisEmbedding 1 [3; 4; 5]%nat
                (BasisEmbedding 3 [0; 1; 2]%nat (device 11)))
    ∧ measure (BasisEmbedding 1 [3; 4; 5]%nat
                 (BasisEmbedding 3 [0; 1; 2]%nat (device 11))) [3; 4; 5]%nat
      = Some 1.
Proof.
  apply (Exp_a_N_common_factor 6 2 3 [0; 1; 2]%nat [3; 4; 5]%nat [6; 7; 8]%nat
           [] 9%nat 10%nat (device 11));
    [lia|by_compute|by_compute|reflexivity|by_compute|by_compute].
Defined.

(** ** The spare top wire of add_in_k_N *)

Lemma measure_BasisEmbedding_mod v ws s :
  NoDup ws → measure (BasisEmbedding v ws s) ws = Some (v mod 2 ^ len ws).
Proof.
  intros Hnd. unfold BasisEmbedding. rewrite <- (Zbits_mod _ v).
  apply measure_BasisEmbedding; [exact Hnd|].
  apply Z.mod_pos_bound. unfold len. apply Z.pow_pos_nonneg; lia.
Qed.

(** X18: the constant adder needs the top wire of its register for the
    sign of its differences.  On [n] wires, for every modulus above
    [2^(n-1)] (and at most [2^n], so that the register can hold the
    residues), the circuit of [add_in_k_N(0, N, ...)] from 0 leaves the
    overflow wire at 1 and [2^n - N] in the register. *)
Theorem add_in_k_N_needs_spare_wire (N : Z) (wires_a wires_aux : list wire)
    (x0 : wire) (s : state) :
  wires_a ≠ [] → 2 ^ (len wires_a - 1) < N <= 2 ^ len wires_a →
  head wires_aux = Some x0 → NoDup (x0 :: wires_a) →
  s !! x0 = Some (Basis false) →
  ∃ s', execute (add_in_k_N 0 N wires_a wires_aux true)
          (BasisEmbedding 0 wires_a s) = Some s'
      ∧ measure s' wires_a = Some (2 ^ len wires_a - N)
      ∧ s' !! x0 = Some (Basis true).
Proof.
  intros Hne HN Haux Hnd Hx.
  destruct wires_aux as [|x aux']; [discriminate|]. injection Haux as ->.
  destruct wires_a as [|w0 ws']; [contradiction|].
  assert (Hws : NoDup (w0 :: ws')) by (apply NoDup_cons in Hnd; tauto).
  assert (Hfresh : x0 ∉ w0 :: ws') by (apply NoDup_cons in Hnd; tauto).
  assert (Hlen : len (w0 :: ws') = Z.succ (Z.of_nat (length ws')))
    by (unfold len; cbn [length]; lia).
  rewrite Hlen in HN |- *.
  replace (Z.succ (Z.of_nat (length ws')) - 1) with (Z.of_nat (length ws'))
    in HN by lia.
  rewrite <- Nat2Z.inj_succ in HN |- *.
  eexists. split; [|split].
  - rewrite add_in_k_N_ok by exact Hfresh. cbn [execute].
    apply run_adder_narrow; assumption.
  - rewrite measure_BasisEmbedding_mod, Hlen, <- Nat2Z.inj_succ by exact Hws.
    f_equal. symmetry. apply (Z.mod_unique_pos _ _ (-1)); lia.
  - rewrite lookup_BasisEmbedding_ne by exact Hfresh. apply lookup_insert_eq.
Qed.

Lemma add_in_k_N_needs_spare_wire_witness :
  ∃ s', execute (add_in_k_N 0 5 [1; 2; 3]%nat [4%nat] true)
          (BasisEmbedding 0 [1; 2; 3]%nat (device 5)) = Some s'
      ∧ measure s' [1; 2; 3]%nat = Some (2 ^ len [1; 2; 3]%nat - 5)
      ∧ s' !! 4%nat = Some (Basis true).
Proof.
  apply (add_in_k_N_needs_spare_wire 5 [1; 2; 3]%nat [4%nat] 4%nat (device 5));
    [by_compute|by_compute|reflexivity|by_compute|reflexivity].
Defined.
